(** * Mihran's Tetris Mania: the game core of [src/App.jsx]

    A shallow embedding of the game-state core of the React component
    [App]: the piece geometry ([rotateMatrixCW], [rotateIconsCW],
    [collides]), the board mutations ([merge], [clearLines]), the spawn
    routine ([randomPiece], [randIcon]), the action handlers ([moveLeft],
    [moveRight], [softDropStep], [rotateAction], [hardDrop],
    [lockAndSpawn], [resetGame]), the lightning-award effect and the
    best-score bookkeeping ([updateHighScore] and the [high] initialiser).

    Conventions of the embedding.
    - JavaScript arrays are lists; [a[i]] is stdpp's lookup [a !! i], whose
      [None] stands for [undefined].  [null] and [undefined] are both
      [None]: the program only ever tests such values for truthiness or
      compares them with [===] against a non-null constant.
    - Numbers that the program uses as indices, counters and scores are
      integers ([Z]); the best score, which is read back from storage, is a
      rational ([Q]).  Arithmetic is exact: binary64 rounding is outside
      the model.
    - [Math.random()] reads the next element of a sequence of values of the
      half-open unit interval.
    - A handler that throws or does not return has no successor state: the
      handlers return [option].

    Execution model.
    - An event is one step: the handler runs, React renders, and the
      effects of that render run, before the next event is handled.  The
      refs [boardRef], [pieceRef] and [overRef] therefore agree with the
      state whenever a handler reads them.  Interleavings in which a timer
      callback runs between a state update and its render are outside the
      model.
    - A handler reads [score] and [high] from the closure of the render
      that created it.  Key, touch and click handlers are re-created by
      every render; the animation loop and the hold timer keep the
      handlers of the render that started them.
    - An updater function passed to a state setter runs when React
      processes the update queue, after the handler has returned. *)

From Stdlib Require Import ZArith QArith Qround String Ascii Lia Bool.
From stdpp Require Import base list.

Open Scope Z_scope.

(** ** Constants *)

Definition COLS : Z := 10.
Definition ROWS : Z := 20.

Definition LIGHTNING : string := "⚡".

Definition ICONS : list string :=
  ["★"; "◆"; "●"; "▲"; "♥"; "♣"; "☀"; "☂"; "⚙"; LIGHTNING; "✿"; "◼"; "⬢"]%string.

Definition NON_LIGHTNING_ICONS : list string :=
  List.filter (fun x => negb (String.eqb x LIGHTNING)) ICONS.

(** [LIGHTNING_PROB = 0.03]: the number the literal denotes, which is the
    binary64 value nearest to 3/100, [1080863910568919 / 2^55], slightly
    below 3/100. *)
Definition LIGHTNING_PROB : Q := 1080863910568919 # 36028797018963968.

(** ** Data model *)

(** A bitmask: rows of numbers, [0] for an unset cell. *)
Abbreviation Matrix := (list (list Z)).

(** The icon overlay: rows of icon strings, [null] where the bitmask is
    unset. *)
Abbreviation Icons := (list (list (option string))).

(** JavaScript truthiness of a bitmask entry. *)
Definition truthy (v : Z) : bool := negb (v =? 0).

Record Shape := { shape_color : string; shape_matrix : Matrix }.

Definition SHAPES : list (string * Shape) :=
  [ ("I", {| shape_color := "#00BCD4";
             shape_matrix := [[0;0;0;0];[1;1;1;1];[0;0;0;0];[0;0;0;0]] |});
    ("J", {| shape_color := "#3F51B5";
             shape_matrix := [[1;0;0];[1;1;1];[0;0;0]] |});
    ("L", {| shape_color := "#FF9800";
             shape_matrix := [[0;0;1];[1;1;1];[0;0;0]] |});
    ("O", {| shape_color := "#FFC107";
             shape_matrix := [[1;1];[1;1]] |});
    ("S", {| shape_color := "#4CAF50";
             shape_matrix := [[0;1;1];[1;1;0];[0;0;0]] |});
    ("T", {| shape_color := "#9C27B0";
             shape_matrix := [[0;1;0];[1;1;1];[0;0;0]] |});
    ("Z", {| shape_color := "#F44336";
             shape_matrix := [[1;1;0];[0;1;1];[0;0;0]] |}) ]%string.

(** [Object.keys(SHAPES)]: the keys in insertion order. *)
Definition ALL_KEYS : list string := map fst SHAPES.

(** [SHAPES[key]] *)
Fixpoint assoc {A} (tbl : list (string * A)) (k : string) : option A :=
  match tbl with
  | [] => None
  | (k', v) :: tbl' => if String.eqb k k' then Some v else assoc tbl' k
  end.

(** A locked board cell: [{ color, icon }]. *)
Record Cell := { cell_color : string; cell_icon : option string }.

(** The board: [ROWS] rows of [COLS] cells, [null] for an empty cell. *)
Abbreviation Board := (list (list (option Cell))).

Record Piece := {
  id : Z;
  key : string;
  color : string;
  matrix : Matrix;
  icons : Icons;
  row : Z;
  col : Z
}.

(** [{ ...p, row: r }], [{ ...p, col: c }] and
    [{ ...p, matrix: m, icons: i, col: c }] *)
Definition with_row (p : Piece) (r : Z) : Piece :=
  {| id := id p; key := key p; color := color p; matrix := matrix p;
     icons := icons p; row := r; col := col p |}.

Definition with_col (p : Piece) (c : Z) : Piece :=
  {| id := id p; key := key p; color := color p; matrix := matrix p;
     icons := icons p; row := row p; col := c |}.

Definition with_rotation (p : Piece) (m : Matrix) (i : Icons) (c : Z) : Piece :=
  {| id := id p; key := key p; color := color p; matrix := m;
     icons := i; row := row p; col := c |}.

(** ** Array helpers *)

(** [m[r][c]] *)
Definition get2 {A} (m : list (list A)) (r c : nat) : option A :=
  match m !! r with
  | Some line => line !! c
  | None => None
  end.

(** [m[0].length], read where the source only evaluates it for a
    non-empty [m]. *)
Definition width {A} (m : list (list A)) : nat :=
  match m with
  | [] => 0%nat
  | line :: _ => length line
  end.

(** [for (let i = 0; i < n; i++) acc = body(acc, i)] *)
Definition for_loop {S} (n : nat) (body : S -> nat -> S) (init : S) : S :=
  foldl body init (seq 0 n).

(** A counting loop whose body may [return true], falling through to
    [return false]. *)
Definition for_some (n : nat) (body : nat -> bool) : bool :=
  existsb body (seq 0 n).

(** ** Rotation *)

(** The common body of [rotateMatrixCW] and [rotateIconsCW], which differ
    only in the value that fills the fresh result ([0] or [null]):

    [const rows = m.length, cols = m[0].length;]
    [const res = Array.from({ length: cols }, () => Array(rows).fill(fill));]
    [for r, for c: res[c][rows - 1 - r] = m[r][c];]

    [m[0].length] throws on an empty [m].  A ragged row makes [m[r][c]]
    read [undefined], which is written as the fill value: both are falsy. *)
Definition rotateCW {A} (fill : A) (m : list (list A)) : option (list (list A)) :=
  match m with
  | [] => None
  | line0 :: _ =>
      let rows := length m in
      let cols := length line0 in
      let res := replicate cols (replicate rows fill) in
      Some (for_loop rows (fun res r =>
              for_loop cols (fun res c =>
                alter (fun line =>
                         <[(rows - 1 - r)%nat := default fill (get2 m r c)]> line)
                      c res) res) res)
  end.

Definition rotateMatrixCW (m : Matrix) : option Matrix := rotateCW 0 m.

Definition rotateIconsCW (m : Icons) : option Icons := rotateCW None m.

(** ** Collision *)

(** [board[nr][nc]] is truthy: the cell holds an object.  The index pair
    has passed the range test when this is read, and the board has [ROWS]
    rows of [COLS] cells wherever the program uses it (lemmas [merge_ok],
    [clearLines_ok] and [reachable_Inv]), so the row and the cell exist. *)
Definition occupied (board : Board) (nr nc : Z) : bool :=
  match get2 board (Z.to_nat nr) (Z.to_nat nc) with
  | Some (Some _) => true
  | _ => false
  end.

(** [collides(board, piece, offR = 0, offC = 0, mat = null)] *)
Definition collides (board : Board) (piece : Piece) (offR offC : Z)
    (mat : option Matrix) : bool :=
  let m := match mat with Some m' => m' | None => matrix piece end in
  for_some (length m) (fun r =>
    for_some (width m) (fun c =>
      match get2 m r c with
      | Some v =>
          if truthy v then
            let nr := row piece + Z.of_nat r + offR in
            let nc := col piece + Z.of_nat c + offC in
            if (nr <? 0) || (nr >=? ROWS) || (nc <? 0) || (nc >=? COLS) then true
            else occupied board nr nc
          else false
      | None => false
      end)).

(** ** Board mutation *)

(** [emptyBoard()] *)
Definition emptyBoard : Board :=
  replicate (Z.to_nat ROWS) (replicate (Z.to_nat COLS) None).

(** [merge(board, piece)].  The write [newBoard[br][bc] = ...] is guarded by
    the range test, so on a [ROWS] by [COLS] board it replaces an existing
    cell.  [piece.icons[r][c]] reads the overlay: the code throws when the
    overlay has no row [r] under a set cell inside the board, where this
    function writes a cell without an icon.  The two agree on every piece
    whose overlay has a row for each row of the bitmask, as the pieces of
    [randomPiece], their rotations and so the pieces of all reachable
    states have (lemma [reachable_Inv]). *)
Definition merge (board : Board) (piece : Piece) : Board :=
  let m := matrix piece in
  for_loop (length m) (fun newBoard r =>
    for_loop (width m) (fun newBoard c =>
      match get2 m r c with
      | Some v =>
          if truthy v then
            let br := row piece + Z.of_nat r in
            let bc := col piece + Z.of_nat c in
            if (br >=? 0) && (br <? ROWS) && (bc >=? 0) && (bc <? COLS) then
              alter (fun line =>
                       <[Z.to_nat bc :=
                           Some {| cell_color := color piece;
                                   cell_icon := mjoin (get2 (icons piece) r c) |}]>
                         line)
                    (Z.to_nat br) newBoard
            else newBoard
          else newBoard
      | None => newBoard
      end) newBoard) board.

(** [row.some(cell => !cell)] *)
Definition has_gap (line : list (option Cell)) : bool :=
  existsb (fun cell => match cell with Some _ => false | None => true end) line.

(** [clearLines(board)], returning [(board, cleared)] *)
Definition clearLines (board : Board) : Board * Z :=
  let kept := List.filter has_gap board in
  let cleared := ROWS - Z.of_nat (length kept) in
  let pad := replicate (Z.to_nat cleared) (replicate (Z.to_nat COLS) None) in
  (pad ++ kept, cleared).

(** [hasLightningInIcons(icons)] *)
Definition hasLightningInIcons (ic : Icons) : bool :=
  for_some (length ic) (fun r =>
    for_some (width ic) (fun c =>
      match get2 ic r c with
      | Some (Some s) => String.eqb s LIGHTNING
      | _ => false
      end)).

(** ** Randomness *)

(** A value returned by [Math.random()]: a number [x] with [0 <= x < 1]. *)
Record unit_interval := {
  uq : Q;
  uq_range : Qle_bool 0 uq && negb (Qle_bool 1 uq) = true
}.

(** The values returned by the successive calls of [Math.random()] during
    one call of [randomPiece]. *)
Definition Random := nat -> unit_interval.

(** [x | 0] for a number within the 32-bit range: truncation towards
    zero. *)
Definition to_int (x : Q) : Z := Z.quot (Qnum x) (Z.pos (Qden x)).

(** [a < b] on numbers. *)
Definition Qlt_bool (a b : Q) : bool := negb (Qle_bool b a).

(** [randIcon()], reading [Math.random()] at the cursor [cur]; returns the
    icon and the advanced cursor. *)
Definition randIcon (rng : Random) (cur : nat) : option string * nat :=
  if Qlt_bool (uq (rng cur)) LIGHTNING_PROB then (Some LIGHTNING, S cur)
  else
    let i := to_int (uq (rng (S cur)) * inject_Z (Z.of_nat (length NON_LIGHTNING_ICONS))) in
    (NON_LIGHTNING_ICONS !! Z.to_nat i, S (S cur)).

(** [row.map(v => (v ? randIcon() : null))] *)
Fixpoint icons_of_row (rng : Random) (line : list Z) (cur : nat)
    : list (option string) * nat :=
  match line with
  | [] => ([], cur)
  | v :: line' =>
      let '(ic, cur1) := if truthy v then randIcon rng cur else (None, cur) in
      let '(rest, cur2) := icons_of_row rng line' cur1 in
      (ic :: rest, cur2)
  end.

(** [matrix.map(row => row.map(...))] *)
Fixpoint icons_of_matrix (rng : Random) (m : Matrix) (cur : nat) : Icons * nat :=
  match m with
  | [] => ([], cur)
  | line :: m' =>
      let '(l, cur1) := icons_of_row rng line cur in
      let '(rest, cur2) := icons_of_matrix rng m' cur1 in
      (l :: rest, cur2)
  end.

(** [randomPiece()] when the global [PIECE_SEQ] holds [seq]; the caller
    stores the new identifier back.  [shape.matrix] throws when the key
    lookup gave [undefined]. *)
Definition randomPiece (rng : Random) (seq : Z) : option Piece :=
  let i := to_int (uq (rng 0%nat) * inject_Z (Z.of_nat (length ALL_KEYS))) in
  match ALL_KEYS !! Z.to_nat i with
  | None => None
  | Some k =>
      match assoc SHAPES k with
      | None => None
      | Some shape =>
          let m := shape_matrix shape in
          Some {| id := seq + 1;
                  key := k;
                  color := shape_color shape;
                  matrix := m;
                  icons := fst (icons_of_matrix rng m 1%nat);
                  row := 0;
                  col := (COLS - Z.of_nat (width m)) / 2 |}
      end
  end.

(** ** Component state *)

(** The values of [score] and [high] that a handler closes over: those of
    the render in which the handler was created. *)
Record Env := { env_score : Z; env_high : Q }.

(** The React state ([board], [piece], [score], [high], [gameOver]), the
    ref [awardedRef], the module variable [PIECE_SEQ], and the closures
    kept alive by the two timers.  [boardRef], [pieceRef] and [overRef]
    are copies of the state written after each render and are read off the
    state.

    The animation loop is registered by an effect with an empty dependency
    list, so it keeps calling the [lockAndSpawn] of the first render
    ([mountEnv]).  The interval started by [startHoldDown] keeps calling
    the [softDropStep] of the render in which the button was pressed
    ([holdTimer], [None] when no interval is running). *)
Record State := {
  board : Board;
  piece : Piece;
  score : Z;
  high : Q;
  gameOver : bool;
  awardedRef : Z;
  PIECE_SEQ : Z;
  mountEnv : Env;
  holdTimer : option Env
}.

Definition setBoard (st : State) (b : Board) : State :=
  {| board := b; piece := piece st; score := score st; high := high st;
     gameOver := gameOver st; awardedRef := awardedRef st;
     PIECE_SEQ := PIECE_SEQ st; mountEnv := mountEnv st;
     holdTimer := holdTimer st |}.

Definition setPiece (st : State) (p : Piece) : State :=
  {| board := board st; piece := p; score := score st; high := high st;
     gameOver := gameOver st; awardedRef := awardedRef st;
     PIECE_SEQ := PIECE_SEQ st; mountEnv := mountEnv st;
     holdTimer := holdTimer st |}.

Definition setScore (st : State) (s : Z) : State :=
  {| board := board st; piece := piece st; score := s; high := high st;
     gameOver := gameOver st; awardedRef := awardedRef st;
     PIECE_SEQ := PIECE_SEQ st; mountEnv := mountEnv st;
     holdTimer := holdTimer st |}.

Definition setHigh (st : State) (h : Q) : State :=
  {| board := board st; piece := piece st; score := score st; high := h;
     gameOver := gameOver st; awardedRef := awardedRef st;
     PIECE_SEQ := PIECE_SEQ st; mountEnv := mountEnv st;
     holdTimer := holdTimer st |}.

Definition setGameOver (st : State) (g : bool) : State :=
  {| board := board st; piece := piece st; score := score st; high := high st;
     gameOver := g; awardedRef := awardedRef st;
     PIECE_SEQ := PIECE_SEQ st; mountEnv := mountEnv st;
     holdTimer := holdTimer st |}.

Definition setAwarded (st : State) (a : Z) : State :=
  {| board := board st; piece := piece st; score := score st; high := high st;
     gameOver := gameOver st; awardedRef := a;
     PIECE_SEQ := PIECE_SEQ st; mountEnv := mountEnv st;
     holdTimer := holdTimer st |}.

Definition setSeq (st : State) (n : Z) : State :=
  {| board := board st; piece := piece st; score := score st; high := high st;
     gameOver := gameOver st; awardedRef := awardedRef st;
     PIECE_SEQ := n; mountEnv := mountEnv st;
     holdTimer := holdTimer st |}.

Definition setHoldTimer (st : State) (t : option Env) : State :=
  {| board := board st; piece := piece st; score := score st; high := high st;
     gameOver := gameOver st; awardedRef := awardedRef st;
     PIECE_SEQ := PIECE_SEQ st; mountEnv := mountEnv st;
     holdTimer := t |}.

(** The closure environment of the current render. *)
Definition currentEnv (st : State) : Env :=
  {| env_score := score st; env_high := high st |}.

(** ** Best score *)

(** [updateHighScore(nextScore)] as seen from a closure [e]:
    [if (nextScore > high) setHigh(nextScore)].  The write to local storage
    is best effort and is not part of the state. *)
Definition updateHighScore (e : Env) (nextScore : Z) (st : State) : State :=
  if Qlt_bool (env_high e) (inject_Z nextScore)
  then setHigh st (inject_Z nextScore)
  else st.

(** The updater [s => { const ns = s + delta; updateHighScore(ns); return ns; }]
    passed to the score setter.  React applies it to the pending score when
    it processes the update queue, after the handler has returned. *)
Definition scoreUpdater (e : Env) (delta : Z) (st : State) : State :=
  let ns := score st + delta in
  setScore (updateHighScore e ns st) ns.

(** ** Actions *)

(** [canMove(dr, dc)] *)
Definition canMove (st : State) (dr dc : Z) : bool :=
  negb (collides (board st) (piece st) dr dc None).

Definition moveLeft (st : State) : State :=
  if canMove st 0 (-1)
  then setPiece st (with_col (piece st) (col (piece st) - 1))
  else st.

Definition moveRight (st : State) : State :=
  if canMove st 0 1
  then setPiece st (with_col (piece st) (col (piece st) + 1))
  else st.

(** [lockAndSpawn(currBoard, currPiece)] of the render described by [e].
    The direct call [updateHighScore(score)] of the game-over branch runs
    inside the handler; the score updater queued before it runs
    afterwards, when the queue is processed. *)
Definition lockAndSpawn (e : Env) (rng : Random) (currBoard : Board)
    (currPiece : Piece) (st : State) : option State :=
  let merged := merge currBoard currPiece in
  let '(clearedBoard, cleared) := clearLines merged in
  match randomPiece rng (PIECE_SEQ st) with
  | None => None
  | Some next0 =>
      let next :=
        with_col (with_row next0 0) ((COLS - Z.of_nat (width (matrix next0))) / 2) in
      let st1 := setSeq st (id next0) in
      let st2 :=
        if collides clearedBoard next 0 0 None
        then setGameOver (setBoard (updateHighScore e (env_score e) st1) clearedBoard) true
        else setPiece (setBoard st1 clearedBoard) next in
      Some (if cleared =? 0 then st2 else scoreUpdater e cleared st2)
  end.

(** [softDropStep()] of the render described by [e]. *)
Definition softDropStep (e : Env) (rng : Random) (st : State) : option State :=
  let b := board st in
  let p := piece st in
  if negb (collides b p 1 0 None)
  then Some (setPiece st (with_row p (row p + 1)))
  else lockAndSpawn e rng b p st.

Definition kicks : list Z := [0; 1; -1; 2; -2].

(** [for (let k of kicks) { if (!collides(b, p, 0, k, rotated)) { setPiece(...); break; } }] *)
Fixpoint try_kicks (st : State) (rotated : Matrix) (rotatedIcons : Icons)
    (ks : list Z) : State :=
  match ks with
  | [] => st
  | k :: ks' =>
      if negb (collides (board st) (piece st) 0 k (Some rotated))
      then setPiece st (with_rotation (piece st) rotated rotatedIcons
                                      (col (piece st) + k))
      else try_kicks st rotated rotatedIcons ks'
  end.

(** [rotateAction()] *)
Definition rotateAction (st : State) : option State :=
  let p := piece st in
  if String.eqb (key p) "O" then Some st
  else
    match rotateMatrixCW (matrix p), rotateIconsCW (icons p) with
    | Some rotated, Some rotatedIcons =>
        Some (try_kicks st rotated rotatedIcons kicks)
    | _, _ => None
    end.

(** [let d = 0; while (!collides(b, p, d + 1, 0)) d++;] started at [d];
    each unit of fuel pays for one evaluation of the loop condition. *)
Fixpoint drop_search (fuel : nat) (b : Board) (p : Piece) (d : Z) : option Z :=
  match fuel with
  | O => None
  | S fuel' =>
      if negb (collides b p (d + 1) 0 None)
      then drop_search fuel' b p (d + 1)
      else Some d
  end.

(** Fuel that pays for the whole loop whenever the loop ends at all
    (lemma [drop_search_enough]). *)
Definition drop_fuel (p : Piece) : nat := S (Z.to_nat (ROWS - row p)).

(** [hardDrop()] of the render described by [e]. *)
Definition hardDrop (e : Env) (rng : Random) (st : State) : option State :=
  let b := board st in
  let p := piece st in
  match drop_search (drop_fuel p) b p 0 with
  | None => None
  | Some d =>
      let landed := with_row p (row p + d) in
      lockAndSpawn e rng b landed st
  end.

(** [resetGame()] *)
Definition resetGame (rng : Random) (st : State) : option State :=
  match randomPiece rng (PIECE_SEQ st) with
  | None => None
  | Some first =>
      Some (setAwarded
              (setGameOver
                 (setScore
                    (setPiece (setBoard (setSeq st (id first)) emptyBoard) first)
                    0)
                 false)
              (-1))
  end.

(** ** Effects *)

(** The effect "award lightning bonus once per spawned piece", with the
    closure of the render that registered it. *)
Definition awardEffect (st : State) : State :=
  let p := piece st in
  if id p =? awardedRef st then st
  else
    let st1 :=
      if hasLightningInIcons (icons p)
      then scoreUpdater (currentEnv st) 5 st
      else st in
    setAwarded st1 (id p).

(** The effect has the dependency list [[piece?.id]]: after the render that
    follows a handler it runs only when the identifier differs from the one
    of the previous render. *)
Definition commit (prev st : State) : State :=
  if id (piece st) =? id (piece prev) then st else awardEffect st.

(** ** Loading the best score *)

(** A JavaScript number: a finite value, an infinity or [NaN]. *)
Inductive Num := NaN | PosInfinity | NegInfinity | Finite (q : Q).

Definition code (c : ascii) : Z := Z.of_nat (nat_of_ascii c).

(** White space and line terminators of the ASCII range: tab, line feed,
    vertical tab, form feed, carriage return and space. *)
Definition is_space (c : ascii) : bool :=
  let n := code c in (n =? 32) || ((9 <=? n) && (n <=? 13)).

(** The other white space and line terminators, by the bytes of their
    UTF-8 encoding (a string is the list of the bytes of its text):
    U+00A0 is [C2 A0]; U+1680, U+2000 to U+200A, U+2028, U+2029, U+202F,
    U+205F, U+3000 and U+FEFF take three bytes. *)
Definition wide_space2 (a b : Z) : bool := (a =? 194) && (b =? 160).

Definition wide_space3 (a b c : Z) : bool :=
  ((a =? 225) && (b =? 154) && (c =? 128))
  || ((a =? 226) && (b =? 128)
      && (((128 <=? c) && (c <=? 138)) || (c =? 168) || (c =? 169) || (c =? 175)))
  || ((a =? 226) && (b =? 129) && (c =? 159))
  || ((a =? 227) && (b =? 128) && (c =? 128))
  || ((a =? 239) && (b =? 187) && (c =? 191)).

(** The text without one leading white space character, if it starts
    with one. *)
Definition drop_space (l : list ascii) : option (list ascii) :=
  match l with
  | c1 :: l1 =>
      if is_space c1 then Some l1
      else
        match l1 with
        | c2 :: l2 =>
            if wide_space2 (code c1) (code c2) then Some l2
            else
              match l2 with
              | c3 :: l3 =>
                  if wide_space3 (code c1) (code c2) (code c3) then Some l3
                  else None
              | [] => None
              end
        | [] => None
        end
  | [] => None
  end.

(** The same on the reversed text: one trailing white space character. *)
Definition drop_space_rev (l : list ascii) : option (list ascii) :=
  match l with
  | c1 :: l1 =>
      if is_space c1 then Some l1
      else
        match l1 with
        | c2 :: l2 =>
            if wide_space2 (code c2) (code c1) then Some l2
            else
              match l2 with
              | c3 :: l3 =>
                  if wide_space3 (code c3) (code c2) (code c1) then Some l3
                  else None
              | [] => None
              end
        | [] => None
        end
  | [] => None
  end.

(** Dropping white space characters while there is one; [fuel] bounds
    their number. *)
Fixpoint skip_with (drop : list ascii -> option (list ascii)) (fuel : nat)
    (l : list ascii) : list ascii :=
  match fuel with
  | O => l
  | S fuel' =>
      match drop l with
      | Some l' => skip_with drop fuel' l'
      | None => l
      end
  end.

Definition skip_spaces (l : list ascii) : list ascii :=
  skip_with drop_space (length l) l.

Definition skip_spaces_rev (l : list ascii) : list ascii :=
  skip_with drop_space_rev (length l) l.

(** The text without leading and trailing white space. *)
Definition trim (l : list ascii) : list ascii :=
  rev (skip_spaces_rev (rev (skip_spaces l))).

(** The value of a digit in the given radix. *)
Definition digit_value (radix : Z) (c : ascii) : option Z :=
  let n := code c in
  let v := if (48 <=? n) && (n <=? 57) then n - 48
           else if (97 <=? n) && (n <=? 102) then n - 87
           else if (65 <=? n) && (n <=? 70) then n - 55
           else radix in
  if v <? radix then Some v else None.

(** The longest prefix of digits: its value, its length and the rest. *)
Fixpoint read_digits (radix : Z) (l : list ascii) (acc : Z) (n : nat)
    : Z * nat * list ascii :=
  match l with
  | [] => (acc, n, [])
  | c :: l' =>
      match digit_value radix c with
      | Some d => read_digits radix l' (radix * acc + d) (S n)
      | None => (acc, n, l)
      end
  end.

(** The number that a literal of the value [q] denotes.  A value at or
    beyond [2^1024 - 2^970], half way between the largest binary64 number
    and [2^1024], rounds to an infinity.  Below that the value is kept as
    it is: the rounding of a value that is not a binary64 number to the
    nearest one is not modelled. *)
Definition OVERFLOW : Z := 2 ^ 1024 - 2 ^ 970.

Definition to_number (q : Q) : Num :=
  if Qle_bool (inject_Z OVERFLOW) q then PosInfinity
  else if Qle_bool q (inject_Z (- OVERFLOW)) then NegInfinity
  else Finite q.

(** [0x...], [0o...] and [0b...] after the prefix: digits to the end. *)
Definition read_radix (radix : Z) (l : list ascii) : Num :=
  match read_digits radix l 0 0 with
  | (v, S _, []) => to_number (inject_Z v)
  | _ => NaN
  end.

(** The exponent part, if any, and what follows it. *)
Definition read_exponent (l : list ascii) : option (Z * list ascii) :=
  match l with
  | ("e" | "E")%char :: l' =>
      let '(sign, l'') :=
        match l' with
        | "-"%char :: t => (-1, t)
        | "+"%char :: t => (1, t)
        | _ => (1, l')
        end in
      match read_digits 10 l'' 0 0 with
      | (v, S _, rest) => Some (sign * v, rest)
      | _ => None
      end
  | _ => Some (0, l)
  end.

(** An unsigned decimal literal: digits, an optional fraction, an optional
    exponent, and nothing else. *)
Definition read_decimal (l : list ascii) : option Q :=
  let '(ip, n1, l1) := read_digits 10 l 0 0 in
  let '(fp, n2, dot, l2) :=
    match l1 with
    | "."%char :: t => let '(f, n, r) := read_digits 10 t 0 0 in (f, n, true, r)
    | _ => (0, 0%nat, false, l1)
    end in
  if match n1, n2 with O, O => true | _, _ => false end then None
  else
    match read_exponent l2 with
    | Some (e, []) =>
        Some (Qred ((inject_Z ip + inject_Z fp / inject_Z (10 ^ Z.of_nat n2))
                    * Qpower (inject_Z 10) e))
    | _ => None
    end.

Definition Infinity_text : list ascii := list_ascii_of_string "Infinity".

Definition ascii_list_eqb (a b : list ascii) : bool :=
  String.eqb (string_of_list_ascii a) (string_of_list_ascii b).

(** A signed decimal literal. *)
Definition read_signed (l : list ascii) : Num :=
  let '(neg, body) :=
    match l with
    | "-"%char :: t => (true, t)
    | "+"%char :: t => (false, t)
    | _ => (false, l)
    end in
  if ascii_list_eqb body Infinity_text
  then (if neg then NegInfinity else PosInfinity)
  else
    match read_decimal body with
    | Some q => to_number (if neg then Qred (- q) else q)
    | None => NaN
    end.

(** [Number(s)] for a string [s]: the numeric value of a string as the
    language defines it.  White space and line terminators are trimmed,
    the empty text is 0, and a literal denotes its exact value or, from
    the overflow threshold on, an infinity (see [to_number]). *)
Definition StringToNumber (s : string) : Num :=
  match trim (list_ascii_of_string s) with
  | [] => Finite 0
  | "0"%char :: ("x" | "X")%char :: t => read_radix 16 t
  | "0"%char :: ("o" | "O")%char :: t => read_radix 8 t
  | "0"%char :: ("b" | "B")%char :: t => read_radix 2 t
  | l => read_signed l
  end.

(** [Number(localStorage.getItem("tetris_highscore") || 0)], where
    [getItem] gave [item] ([None] for [null]).  The empty string is falsy. *)
Definition savedNumber (item : option string) : Num :=
  match item with
  | None => Finite 0
  | Some EmptyString => Finite 0
  | Some s => StringToNumber s
  end.

(** The initialiser of the [high] state:
    [if (typeof window === "undefined") return 0;]
    [return Number.isFinite(saved) ? saved : 0;] *)
Definition initialHigh (has_window : bool) (item : option string) : Q :=
  if negb has_window then 0%Q
  else
    match savedNumber item with
    | Finite q => q
    | _ => 0%Q
    end.

(** ** Events *)

Inductive Key := ArrowLeft | ArrowRight | ArrowDown | ArrowUp | Space | KeyR | OtherKey.

(** What [onTouchEnd] makes of a touch: a tap, a second tap within
    [TAP_WINDOW], or a swipe past [SWIPE] in its dominant direction. *)
Inductive Gesture := Tap | DoubleTap | SwipeLeft | SwipeRight | SwipeDown | SwipeUp.

(** The on-screen buttons with an [onClick] handler. *)
Inductive Button := BtnLeft | BtnRotate | BtnRight | BtnDrop.

Inductive Event :=
| KeyDown (k : Key)          (* handleKey *)
| TouchEnd (g : Gesture)     (* onTouchEnd on the canvas *)
| Click (b : Button)         (* onClick of an on-screen button *)
| PressDown                  (* startHoldDown *)
| ReleaseDown                (* stopHoldDown *)
| HoldTick                   (* the interval callback of startHoldDown *)
| Frame.                     (* an animation frame in which [acc >= interval] *)

(** What the environment contributes to one event: the values of
    [Math.random()] for the handler's [randomPiece()] call, and the number
    of times React calls the component function while committing the
    event.  Each such call evaluates the initialiser argument
    [useState(randomPiece())] and so advances [PIECE_SEQ]. *)
Record Oracle := { rng : Random; renders : nat }.

(** [handleKey(e)] *)
Definition handleKey (k : Key) (rnd : Random) (st : State) : option State :=
  match k with
  | KeyR => resetGame rnd st
  | _ =>
      if gameOver st then Some st
      else
        match k with
        | ArrowLeft => Some (moveLeft st)
        | ArrowRight => Some (moveRight st)
        | ArrowDown => softDropStep (currentEnv st) rnd st
        | ArrowUp => rotateAction st
        | Space => hardDrop (currentEnv st) rnd st
        | _ => Some st
        end
  end.

(** [onTouchEnd(e)] *)
Definition onTouchEnd (g : Gesture) (rnd : Random) (st : State) : option State :=
  if gameOver st then Some st
  else
    match g with
    | Tap => rotateAction st
    | DoubleTap => hardDrop (currentEnv st) rnd st
    | SwipeRight => Some (moveRight st)
    | SwipeLeft => Some (moveLeft st)
    | SwipeDown => softDropStep (currentEnv st) rnd st
    | SwipeUp => Some st
    end.

(** The [onClick] handlers of the on-screen buttons: they call the actions
    without looking at [gameOver]. *)
Definition onClick (b : Button) (rnd : Random) (st : State) : option State :=
  match b with
  | BtnLeft => Some (moveLeft st)
  | BtnRotate => rotateAction st
  | BtnRight => Some (moveRight st)
  | BtnDrop => hardDrop (currentEnv st) rnd st
  end.

(** [startHoldDown()]: the interval callback closes over the
    [softDropStep] of the current render. *)
Definition startHoldDown (st : State) : State :=
  match holdTimer st with
  | None => setHoldTimer st (Some (currentEnv st))
  | Some _ => st
  end.

(** [stopHoldDown()] *)
Definition stopHoldDown (st : State) : State := setHoldTimer st None.

(** The interval callback: [if (!overRef.current) softDropStep();] *)
Definition holdTick (rnd : Random) (st : State) : option State :=
  match holdTimer st with
  | None => Some st
  | Some e => if gameOver st then Some st else softDropStep e rnd st
  end.

(** The body of the animation loop once [acc >= interval]. *)
Definition frame (rnd : Random) (st : State) : option State :=
  if gameOver st then Some st
  else if negb (collides (board st) (piece st) 1 0 None)
  then Some (setPiece st (with_row (piece st) (row (piece st) + 1)))
  else lockAndSpawn (mountEnv st) rnd (board st) (piece st) st.

Definition handler (ev : Event) (rnd : Random) (st : State) : option State :=
  match ev with
  | KeyDown k => handleKey k rnd st
  | TouchEnd g => onTouchEnd g rnd st
  | Click b => onClick b rnd st
  | PressDown => Some (startHoldDown st)
  | ReleaseDown => Some (stopHoldDown st)
  | HoldTick => holdTick rnd st
  | Frame => frame rnd st
  end.

(** One event: the handler, the render and its effects. *)
Definition step (st : State) (ev : Event) (o : Oracle) : option State :=
  match handler ev (rng o) st with
  | None => None
  | Some st1 =>
      let st2 := commit st st1 in
      Some (setSeq st2 (PIECE_SEQ st2 + Z.of_nat (renders o)))
  end.

(** Mounting the component: the first render and its effects.  [item] is
    what local storage holds under the key [tetris_highscore]. *)
Definition mount (has_window : bool) (item : option string) (o : Oracle)
    : option State :=
  match randomPiece (rng o) 0 with
  | None => None
  | Some first =>
      let h := initialHigh has_window item in
      let e := {| env_score := 0; env_high := h |} in
      let st0 :=
        {| board := emptyBoard; piece := first; score := 0; high := h;
           gameOver := false; awardedRef := -1; PIECE_SEQ := id first;
           mountEnv := e; holdTimer := None |} in
      let st1 := awardEffect st0 in
      Some (setSeq st1 (PIECE_SEQ st1 + Z.of_nat (renders o)))
  end.

(** Running a list of events. *)
Fixpoint run (st : State) (evs : list (Event * Oracle)) : option State :=
  match evs with
  | [] => Some st
  | (ev, o) :: evs' =>
      match step st ev o with
      | None => None
      | Some st' => run st' evs'
      end
  end.

(** The states the component can be in. *)
Inductive reachable : State -> Prop :=
| reachable_mount w item o st :
    mount w item o = Some st -> reachable st
| reachable_step st ev o st' :
    reachable st -> step st ev o = Some st' -> reachable st'.

(** * Specification-side definitions *)

(** A row in which every cell is occupied. *)
Definition row_full (line : list (option Cell)) : bool :=
  forallb (fun cell => match cell with Some _ => true | None => false end) line.

(** A row in which every cell is empty. *)
Definition empty_row : list (option Cell) := replicate (Z.to_nat COLS) None.

(** A rectangular matrix of [R] rows and [C] columns. *)
Definition rect {A} (R C : nat) (m : list (list A)) : Prop :=
  length m = R /\ Forall (fun line => length line = C) m.

(** The clockwise rotation as the specification words it: the result has
    one row per source column, and its cell [(c, j)] is the source cell
    [(R - 1 - j, c)], that is, source [(r, c)] lands on [(c, R - 1 - r)]. *)
Definition rotated {A} (fill : A) (m : list (list A)) : list (list A) :=
  let R := length m in
  map (fun c => map (fun j => default fill (get2 m (R - 1 - j) c)) (seq 0 R))
      (seq 0 (width m)).

(** Four rotations in a row. *)
Definition rotate4 {A} (rot : list (list A) -> option (list (list A)))
    (m : list (list A)) : option (list (list A)) :=
  ((rot m ≫= rot) ≫= rot) ≫= rot.

(** The icon overlay matches the bitmask: same cells, and an icon exactly
    where the bitmask is set. *)
Definition icons_match (m : Matrix) (ic : Icons) : Prop :=
  forall r c,
    match get2 m r c, get2 ic r c with
    | Some v, Some i => truthy v = true <-> is_Some i
    | None, None => True
    | _, _ => False
    end.

(** The bitmask has a set cell inside its [n] by [n] frame. *)
Definition has_set_cell (n : nat) (m : Matrix) : Prop :=
  exists r c v, (r < n)%nat /\ (c < n)%nat /\ get2 m r c = Some v /\ truthy v = true.

(** The number of set cells of a bitmask. *)
Definition count_set (m : Matrix) : nat :=
  list_sum (map (fun line => length (List.filter truthy line)) m).

(** A well-formed piece: a square bitmask with a set cell, an icon overlay
    that matches it, and a row that is not above the board. *)
Definition piece_ok (p : Piece) : Prop :=
  exists n, (0 < n)%nat /\ rect n n (matrix p) /\ rect n n (icons p)
            /\ has_set_cell n (matrix p)
            /\ icons_match (matrix p) (icons p)
            /\ 0 <= row p.

(** A well-formed board: [ROWS] rows of [COLS] cells. *)
Definition board_ok (b : Board) : Prop :=
  rect (Z.to_nat ROWS) (Z.to_nat COLS) b.

(** The test the two loops of [collides] apply to the cell [(r, c)] of the
    matrix [m]. *)
Definition hits (b : Board) (p : Piece) (offR offC : Z) (m : Matrix)
    (r c : nat) : bool :=
  match get2 m r c with
  | Some v =>
      if truthy v then
        let nr := row p + Z.of_nat r + offR in
        let nc := col p + Z.of_nat c + offC in
        if (nr <? 0) || (nr >=? ROWS) || (nc <? 0) || (nc >=? COLS) then true
        else occupied b nr nc
      else false
  | None => false
  end.

(** The closures a handler can run with: the one of the current render
    (key, touch and click handlers), the one of the first render (the
    animation loop), and the one held by a running hold timer. *)
Definition closure_of (st : State) (e : Env) : Prop :=
  e = currentEnv st \/ e = mountEnv st \/ holdTimer st = Some e.

(** The ways an action replaces the active piece without locking it. *)
Inductive moved (b : Board) (p : Piece) : Piece -> Prop :=
| moved_col k :
    collides b p 0 k None = false -> moved b p (with_col p (col p + k))
| moved_row :
    collides b p 1 0 None = false -> moved b p (with_row p (row p + 1))
| moved_rot m ic k :
    rotateMatrixCW (matrix p) = Some m ->
    rotateIconsCW (icons p) = Some ic ->
    collides b p 0 k (Some m) = false ->
    moved b p (with_rotation p m ic (col p + k)).

(** The piece handed to [lockAndSpawn]: the active piece, or the active
    piece dropped by [d] rows. *)
Definition lands (p cp : Piece) : Prop :=
  cp = p \/ exists d, 0 <= d /\ cp = with_row p (row p + d).

(** What a handler can do to the state. *)
Inductive handled (rnd : Random) (st : State) : State -> Prop :=
| handled_same : handled rnd st st
| handled_moved p' :
    moved (board st) (piece st) p' -> handled rnd st (setPiece st p')
| handled_lock e cp st1 :
    closure_of st e -> lands (piece st) cp ->
    lockAndSpawn e rnd (board st) cp st = Some st1 -> handled rnd st st1
| handled_reset st1 :
    resetGame rnd st = Some st1 -> handled rnd st st1
| handled_hold t :
    t = None \/ t = Some (currentEnv st) -> handled rnd st (setHoldTimer st t).

(** The invariant of the component state. *)
Record Inv (st : State) : Prop := {
  inv_board : board_ok (board st);
  inv_piece : piece_ok (piece st);
  inv_award : awardedRef st = id (piece st);
  inv_id : 1 <= id (piece st) <= PIECE_SEQ st;
  inv_score : 0 <= score st;
  inv_free : gameOver st = false ->
             collides (board st) (piece st) 0 0 None = false;
  inv_mount : env_score (mountEnv st) = 0;
  inv_hold : forall e, holdTimer st = Some e -> 0 <= env_score e;
  inv_high : high st = env_high (mountEnv st)
             \/ exists n, 0 <= n /\ high st = inject_Z n
}.


(** The icon matrix contains the lightning icon: some cell of some row
    holds it. *)
Definition is_lightning (i : option string) : bool :=
  match i with
  | Some s => String.eqb s LIGHTNING
  | None => false
  end.

Definition holds_lightning (ic : Icons) : bool :=
  existsb (existsb is_lightning) ic.

(** The bonus is due in the commit that follows the handler result [st1],
    [prev] being the state before the handler: the active piece has a new
    identifier, which has not been credited, and its icon matrix contains
    the lightning icon. *)
Definition awards_bonus (prev st1 : State) : bool :=
  negb (id (piece st1) =? id (piece prev))
  && negb (id (piece st1) =? awardedRef st1)
  && holds_lightning (icons (piece st1)).

(** The identifiers of the pieces credited with the bonus along a run, in
    the order of the run. *)
Fixpoint credited (st : State) (evs : list (Event * Oracle)) : list Z :=
  match evs with
  | [] => []
  | (ev, o) :: evs' =>
      match handler ev (rng o) st, step st ev o with
      | Some st1, Some st' =>
          (if awards_bonus st st1 then [id (piece st1)] else [])
          ++ credited st' evs'
      | _, _ => []
      end
  end.

(** * Concrete inputs *)

Definition half : unit_interval := {| uq := 1 # 2; uq_range := eq_refl |}.
Definition zero : unit_interval := {| uq := 0; uq_range := eq_refl |}.

(** Draws for which [randomPiece] returns the O piece with ordinary icons,
    the O piece with lightning icons, and the I piece with ordinary
    icons. *)
Definition draw_O : Random := fun _ => half.
Definition draw_O_lightning : Random :=
  fun n => match n with O => half | _ => zero end.
Definition draw_I : Random :=
  fun n => match n with O => zero | _ => half end.

Definition oracle (r : Random) : Oracle := {| rng := r; renders := 1 |}.

Definition key_event (k : Key) (r : Random) : Event * Oracle :=
  (KeyDown k, oracle r).

Definition blank_state : State :=
  {| board := []; piece := {| id := 0; key := ""; color := ""; matrix := [];
                              icons := []; row := 0; col := 0 |};
     score := 0; high := 0; gameOver := true; awardedRef := -1;
     PIECE_SEQ := 0; mountEnv := {| env_score := 0; env_high := 0 |};
     holdTimer := None |}.

(** The state a run ends in. *)
Definition state_of (r : option State) : State := default blank_state r.

(** Mounted without a stored best score, with an I piece. *)
Definition st_mount_I : State := state_of (mount true None (oracle draw_I)).

(** The board of the source's own test of [clearLines]: the bottom row
    full. *)
Definition board_bottom_full : Board :=
  replicate 19 empty_row
  ++ [replicate 10 (Some {| cell_color := "#111"; cell_icon := Some "★"%string |})].

(** A cave: an upright I piece in column 0, a flat I piece resting on it
    across columns 0 to 3, and the O piece above columns 1 and 2. *)
Definition cave_events : list (Event * Oracle) :=
  [key_event ArrowUp draw_O]
  ++ replicate 5 (key_event ArrowLeft draw_O)
  ++ [key_event Space draw_I]
  ++ replicate 3 (key_event ArrowLeft draw_O)
  ++ [key_event Space draw_O]
  ++ replicate 3 (key_event ArrowLeft draw_O).

Definition st_cave : State := state_of (run st_mount_I cave_events).

(** Mounted without a stored best score; the first piece carries the
    lightning icon, so the score and the best score are 5. *)
Definition st_mount_lightning : State :=
  state_of (mount true None (oracle draw_O_lightning)).

(** A second game in which the on-screen down button is held from the
    start.  Two I pieces are dropped left and right, and the O piece is
    left to gravity: its lock completes the bottom row. *)
Definition gravity_clear_prefix : list (Event * Oracle) :=
  [key_event KeyR draw_I; (PressDown, oracle draw_O)]
  ++ replicate 3 (key_event ArrowLeft draw_O) ++ [key_event Space draw_I]
  ++ replicate 3 (key_event ArrowRight draw_O) ++ [key_event Space draw_O]
  ++ replicate 18 (Frame, oracle draw_I).

Definition st_before_gravity_clear : State :=
  state_of (run st_mount_lightning gravity_clear_prefix).

(** After the gravity lock, two more I pieces; the second one is carried
    down by the hold timer and is about to lock and complete the bottom row
    again. *)
Definition hold_clear_prefix : list (Event * Oracle) :=
  [(Frame, oracle draw_I)]
  ++ replicate 3 (key_event ArrowLeft draw_O) ++ [key_event Space draw_I]
  ++ replicate 3 (key_event ArrowRight draw_O)
  ++ replicate 18 (HoldTick, oracle draw_O).

Definition st_before_hold_clear : State :=
  state_of (run st_before_gravity_clear hold_clear_prefix).

(** After the hold lock, nine O pieces are dropped on top of each other
    and the tenth stands on them at the top of the board. *)
Definition top_out_prefix : list (Event * Oracle) :=
  [(HoldTick, oracle draw_O)] ++ replicate 9 (key_event Space draw_O).

Definition st_before_top_out : State :=
  state_of (run st_before_hold_clear top_out_prefix).

(** Mounted with the text [-5] in storage and a lightning piece, then nine
    O pieces dropped on top of each other. *)
Definition st_negative_best : State :=
  state_of (run (state_of (mount true (Some "-5"%string) (oracle draw_O_lightning)))
                (replicate 9 (key_event Space draw_O))).

(** * Further specification-side definitions *)

(** The board cell [(i, j)] lies under a set cell of the piece. *)
Definition covered (p : Piece) (i j : nat) : bool :=
  let r := Z.of_nat i - row p in
  let c := Z.of_nat j - col p in
  (0 <=? r) && (r <? Z.of_nat (length (matrix p)))
  && (0 <=? c) && (c <? Z.of_nat (width (matrix p)))
  && match get2 (matrix p) (Z.to_nat r) (Z.to_nat c) with
     | Some v => truthy v
     | None => false
     end.

(** The icon overlay has a row for every row of the bitmask: [piece.icons[r]]
    is an array wherever [merge] reads [piece.icons[r][c]].  Pieces made by
    [randomPiece] and their rotations have an overlay of the shape of the
    bitmask. *)
Definition overlay_rows (p : Piece) : Prop :=
  (length (matrix p) <= length (icons p))%nat.

(** The cell that [merge] writes at the board position [(i, j)]: the
    colour of the piece and the icon of the piece cell above it. *)
Definition locked_cell (p : Piece) (i j : nat) : Cell :=
  {| cell_color := color p;
     cell_icon := mjoin (get2 (icons p) (Z.to_nat (Z.of_nat i - row p))
                              (Z.to_nat (Z.of_nat j - col p))) |}.

(** The piece cell [(r, c)] comes before [(r0, c0)] in the order of the
    two loops. *)
Definition before (r c r0 c0 : Z) : bool :=
  (r <? r0) || ((r =? r0) && (c <? c0)).

(** The number of occupied cells of a row and of a board. *)
Definition row_cells (line : list (option Cell)) : nat :=
  length (List.filter (fun cell => match cell with Some _ => true | None => false end) line).

Definition cells (b : Board) : nat := list_sum (map row_cells b).

(** The events that look at the status before they act: every key but R,
    the touch gestures, and the two timers. *)
Definition gated (ev : Event) : bool :=
  match ev with
  | KeyDown KeyR => false
  | KeyDown _ | TouchEnd _ | HoldTick | Frame => true
  | Click _ | PressDown | ReleaseDown => false
  end.

(** The events whose handlers are re-created by every render: keys,
    touches and clicks, pressing and releasing the hold button. *)
Definition from_user (ev : Event) : bool :=
  match ev with
  | HoldTick | Frame => false
  | _ => true
  end.

(** What a handler of the current render can do to the state. *)
Inductive user_handled (rnd : Random) (st : State) : State -> Prop :=
| user_same : user_handled rnd st st
| user_moved p' :
    moved (board st) (piece st) p' -> user_handled rnd st (setPiece st p')
| user_lock cp st1 :
    lands (piece st) cp ->
    lockAndSpawn (currentEnv st) rnd (board st) cp st = Some st1 ->
    user_handled rnd st st1
| user_reset st1 :
    resetGame rnd st = Some st1 -> user_handled rnd st st1
| user_hold t :
    t = None \/ t = Some (currentEnv st) -> user_handled rnd st (setHoldTimer st t).

(** The best score is at least the score. *)
Definition best_covers_score (st : State) : Prop :=
  (inject_Z (score st) <= high st)%Q.

(** From [st] to [st']: the best score covers the score, has not
    decreased, and is the old best score or the new score. *)
Definition keeps_maximum (st st' : State) : Prop :=
  best_covers_score st'
  /\ (high st <= high st')%Q
  /\ (high st' = high st \/ high st' = inject_Z (score st')).

(** The scores reached along a run: the score of the start state and the
    score of the state after each event. *)
Fixpoint scores_of (st : State) (evs : list (Event * Oracle)) : list Z :=
  score st ::
  match evs with
  | [] => []
  | (ev, o) :: evs' =>
      match step st ev o with
      | Some st' => scores_of st' evs'
      | None => []
      end
  end.

(** [h] is the maximum of the number [h0] and the integers of [l]: it is
    one of them and none of them exceeds it. *)
Definition maximum_of (h0 : Q) (l : list Z) (h : Q) : Prop :=
  (h0 <= h)%Q
  /\ Forall (fun s => (inject_Z s <= h)%Q) l
  /\ (h = h0 \/ Exists (fun s => h = inject_Z s) l).

(** The state without its identifiers: the module counter, the
    identifier of the active piece and the last credited identifier. *)
Definition erase_ids (st : State) : State :=
  {| board := board st;
     piece := {| id := 0; key := key (piece st); color := color (piece st);
                 matrix := matrix (piece st); icons := icons (piece st);
                 row := row (piece st); col := col (piece st) |};
     score := score st; high := high st; gameOver := gameOver st;
     awardedRef := 0; PIECE_SEQ := 0; mountEnv := mountEnv st;
     holdTimer := holdTimer st |}.

(** Presses of the soft-drop key, one for each oracle. *)
Definition soft_drop_keys (os : list Oracle) : list (Event * Oracle) :=
  map (fun o => (KeyDown ArrowDown, o)) os.

(** The event that clears the hold timer. *)
Definition releases (ev : Event) : bool :=
  match ev with
  | ReleaseDown => true
  | _ => false
  end.

(** An ASCII character that is not white space: no white space
    character starts or ends with its byte. *)
Definition plain (c : ascii) : bool := negb (is_space c) && (code c <? 128).


(** The ten decimal digits. *)
Definition decimal_digits : list ascii :=
  ["0"; "1"; "2"; "3"; "4"; "5"; "6"; "7"; "8"; "9"]%char.

(** The character of the digit [d]. *)
Definition digit_char (d : Z) : ascii := ascii_of_nat (48 + Z.to_nat d).

(** The decimal digits of [n], most significant first; [fuel] bounds their
    number. *)
Fixpoint digits_text (fuel : nat) (n : Z) : list ascii :=
  match fuel with
  | O => []
  | S fuel' =>
      if n <? 10 then [digit_char n]
      else digits_text fuel' (n / 10) ++ [digit_char (n mod 10)]
  end.

(** [String(n)] for an integer [n] with [0 <= n < 10^21]: the language
    prints such a number with its decimal digits and no exponent. *)
Definition NumberToString (n : Z) : string :=
  string_of_list_ascii (digits_text 21 n).

(** What local storage holds under [tetris_highscore] after
    [updateHighScore(nextScore)] of the render described by [e], when it
    held [item] before; [throws] tells whether [setItem] threw, which the
    [try] block swallows. *)
Definition storedHighScore (e : Env) (nextScore : Z) (throws : bool)
    (item : option string) : option string :=
  if Qlt_bool (env_high e) (inject_Z nextScore)
  then (if throws then item else Some (NumberToString nextScore))
  else item.

(** The tenth O piece is locked by gravity at the top of the board: the
    game is over. *)
Definition st_over : State :=
  state_of (step st_before_top_out Frame (oracle draw_O)).

(** The drop button is pressed in the first render of a game that starts
    with a lightning piece. *)
Definition st_pressed : State :=
  state_of (step st_mount_lightning PressDown (oracle draw_O)).

(** With the button held: a hard drop, a second press and a restart. *)
Definition held_events : list (Event * Oracle) :=
  [key_event Space draw_O; (PressDown, oracle draw_O); key_event KeyR draw_O].

Lemma has_gap_not_full line : has_gap line = negb (row_full line).
Proof.
  induction line as [|[c|] line IH]; simpl; auto.
Qed.

Lemma filter_split_length {A} (f : A -> bool) (l : list A) :
  (length (List.filter f l) + length (List.filter (fun x => negb (f x)) l))%nat
  = length l.
Proof.
  induction l as [|x l IH]; simpl; [reflexivity|].
  destruct (f x); simpl; lia.
Qed.

Lemma clearLines_kept b :
  List.filter has_gap b = List.filter (fun l => negb (row_full l)) b.
Proof.
  apply List.filter_ext. intros l. apply has_gap_not_full.
Qed.

Lemma clearLines_length b :
  length b = Z.to_nat ROWS -> length (fst (clearLines b)) = Z.to_nat ROWS.
Proof.
  intros Hb. unfold clearLines. cbn [fst].
  rewrite length_app, length_replicate.
  pose proof (List.filter_length_le has_gap b) as Hle.
  unfold ROWS in *. lia.
Qed.

Lemma clearLines_width b :
  Forall (fun l => length l = Z.to_nat COLS) b ->
  Forall (fun l => length l = Z.to_nat COLS) (fst (clearLines b)).
Proof.
  intros Hb. unfold clearLines. cbn [fst].
  apply Forall_app. split.
  - apply Forall_replicate. apply length_replicate.
  - rewrite Forall_forall in *. intros l Hl. apply Hb.
    apply list_elem_of_In in Hl. apply List.filter_In in Hl.
    apply list_elem_of_In. tauto.
Qed.

(** C3. On a board of 20 rows by 10 columns, [clearLines] removes exactly
    the rows in which every cell is occupied, puts as many entirely empty
    rows on top, keeps the remaining rows in their order, and returns the
    number of rows removed; with no full row the board is returned as it
    is and the count is 0. *)
Theorem clearLines_spec (b : Board) :
  length b = Z.to_nat ROWS ->
  Forall (fun l => length l = Z.to_nat COLS) b ->
  let full := List.filter row_full b in
  let rest := List.filter (fun l => negb (row_full l)) b in
  let n := length full in
  clearLines b = (replicate n empty_row ++ rest, Z.of_nat n)
  /\ length (fst (clearLines b)) = Z.to_nat ROWS
  /\ Forall (fun l => length l = Z.to_nat COLS) (fst (clearLines b))
  /\ (n = 0%nat -> clearLines b = (b, 0)).
Proof.
  intros Hlen Hw full rest n.
  assert (Hn : ROWS - Z.of_nat (length (List.filter has_gap b)) = Z.of_nat n).
  { rewrite clearLines_kept.
    pose proof (filter_split_length row_full b) as Hs.
    fold full in Hs. fold n in Hs. unfold ROWS in *. lia. }
  assert (Heq : clearLines b = (replicate n empty_row ++ rest, Z.of_nat n)).
  { unfold clearLines. rewrite Hn, Nat2Z.id, clearLines_kept. reflexivity. }
  split; [exact Heq|].
  split; [apply clearLines_length; exact Hlen|].
  split; [apply clearLines_width; exact Hw|].
  intros H0. rewrite Heq, H0. simpl. f_equal.
  subst rest. clear Heq Hn.
  assert (Hall : forall l, In l b -> row_full l = false).
  { intros l Hl. destruct (row_full l) eqn:E; [|reflexivity].
    assert (In l full) by (apply List.filter_In; auto).
    subst n. destruct full; [contradiction|discriminate]. }
  clear -Hall. induction b as [|l b IH]; simpl; [reflexivity|].
  rewrite (Hall l) by (left; reflexivity). simpl. f_equal.
  apply IH. intros l' Hl'. apply Hall. right. exact Hl'.
Qed.

(** ** Rotation *)

Lemma alter_loop_lookup {A} (f : nat -> A -> A) (n : nat) :
  forall (a : nat) (res : list A) (i : nat),
    foldl (fun res c => alter (f c) c res) res (seq a n) !! i
    = if bool_decide (a <= i < a + n)%nat then f i <$> res !! i else res !! i.
Proof.
  induction n as [|n IH]; intros a res i; simpl.
  - rewrite bool_decide_eq_false_2 by lia. reflexivity.
  - rewrite IH. rewrite list_lookup_alter.
    destruct (decide (a = i)) as [->|Hne].
    + rewrite bool_decide_eq_false_2 by lia.
      rewrite bool_decide_eq_true_2 by lia. reflexivity.
    + destruct (bool_decide (S a <= i < S a + n)%nat) eqn:E.
      * apply bool_decide_eq_true_1 in E.
        rewrite bool_decide_eq_true_2 by lia. reflexivity.
      * apply bool_decide_eq_false_1 in E.
        rewrite bool_decide_eq_false_2 by lia. reflexivity.
Qed.

Section RotateLoops.
Context {A : Type} (fill : A) (m : list (list A)).

Let R := length m.
Let C := width m.
Let v (r c : nat) : A := default fill (get2 m r c).

(** Row [i] of the result after the outer loop has handled the source
    rows below [k]. *)
Let partial (k i : nat) : list A :=
  map (fun j => if bool_decide (R - 1 - j < k)%nat then v (R - 1 - j) i else fill)
      (seq 0 R).

Let body (res : list (list A)) (r : nat) : list (list A) :=
  for_loop C (fun res c =>
    alter (fun line => <[(R - 1 - r)%nat := v r c]> line) c res) res.

Lemma partial_length k i : length (partial k i) = R.
Proof. unfold partial. rewrite length_map, length_seq. reflexivity. Qed.

Lemma partial_lookup k i j :
  (j < R)%nat ->
  partial k i !! j
  = Some (if bool_decide (R - 1 - j < k)%nat then v (R - 1 - j) i else fill).
Proof.
  intros Hj. unfold partial. rewrite list_lookup_fmap, lookup_seq_lt by lia.
  reflexivity.
Qed.

Lemma body_step k :
  (k < R)%nat ->
  body (map (partial k) (seq 0 C)) k = map (partial (S k)) (seq 0 C).
Proof.
  intros Hk. apply list_eq. intros i. unfold body, for_loop.
  rewrite (alter_loop_lookup (fun c line => <[(R - 1 - k)%nat := v k c]> line)).
  destruct (decide (i < C)%nat) as [Hi|Hi].
  - rewrite bool_decide_eq_true_2 by lia.
    rewrite !list_lookup_fmap, !lookup_seq_lt by lia. simpl. f_equal.
    apply list_eq. intros j.
    destruct (decide (j < R)%nat) as [Hj|Hj].
    + rewrite list_lookup_insert, partial_length, !partial_lookup by lia.
      destruct (decide ((R - 1 - k)%nat = j /\ (R - 1 - k < R)%nat)) as [[<- _]|Hn].
      * rewrite bool_decide_eq_true_2 by lia. do 2 f_equal. lia.
      * destruct (bool_decide (R - 1 - j < k)%nat) eqn:E.
        -- apply bool_decide_eq_true_1 in E.
           rewrite bool_decide_eq_true_2 by lia. reflexivity.
        -- apply bool_decide_eq_false_1 in E.
           rewrite bool_decide_eq_false_2 by lia. reflexivity.
    + rewrite !lookup_ge_None_2; [reflexivity| |].
      * rewrite partial_length. lia.
      * rewrite length_insert, partial_length. lia.
  - rewrite bool_decide_eq_false_2 by lia.
    rewrite !lookup_ge_None_2; [reflexivity| |];
      rewrite length_map, length_seq; lia.
Qed.

Lemma outer_loop k :
  (k <= R)%nat ->
  foldl body (replicate C (replicate R fill)) (seq 0 k)
  = map (partial k) (seq 0 C).
Proof.
  induction k as [|k IH]; intros Hk.
  - simpl. apply list_eq. intros i.
    destruct (decide (i < C)%nat) as [Hi|Hi].
    + rewrite list_lookup_fmap, lookup_seq_lt by lia. simpl.
      rewrite lookup_replicate_2 by lia. f_equal.
      apply list_eq. intros j.
      destruct (decide (j < R)%nat) as [Hj|Hj].
      * rewrite partial_lookup, lookup_replicate_2 by lia.
        rewrite bool_decide_eq_false_2 by lia. reflexivity.
      * rewrite !lookup_ge_None_2; [reflexivity| |].
        -- rewrite partial_length. lia.
        -- rewrite length_replicate. lia.
    + rewrite !lookup_ge_None_2; [reflexivity| |].
      * rewrite length_map, length_seq. lia.
      * rewrite length_replicate. lia.
  - rewrite seq_S, foldl_app. simpl. rewrite IH by lia.
    apply body_step. lia.
Qed.

Lemma partial_full i : partial R i = map (fun j => v (R - 1 - j)%nat i) (seq 0 R).
Proof.
  unfold partial. apply map_ext_in. intros j Hj. apply in_seq in Hj.
  rewrite bool_decide_eq_true_2 by lia. reflexivity.
Qed.

Lemma loops_rotated :
  for_loop R (fun res r =>
    for_loop C (fun res c =>
      alter (fun line => <[(R - 1 - r)%nat := default fill (get2 m r c)]> line)
            c res) res) (replicate C (replicate R fill))
  = rotated fill m.
Proof.
  change (foldl body (replicate C (replicate R fill)) (seq 0 R) = rotated fill m).
  rewrite outer_loop by lia. unfold rotated. fold R. fold C.
  apply map_ext. intros i. apply partial_full.
Qed.
End RotateLoops.

(** The two loops compute the rotation cell by cell. *)
Lemma rotateCW_rotated {A} (fill : A) (m : list (list A)) :
  m <> [] -> rotateCW fill m = Some (rotated fill m).
Proof.
  intros Hm. destruct m as [|line0 m']; [congruence|].
  unfold rotateCW. f_equal. apply (loops_rotated fill (line0 :: m')).
Qed.

Lemma rect_width {A} (R C : nat) (m : list (list A)) :
  rect R C m -> (0 < R)%nat -> width m = C.
Proof.
  intros [Hlen Hall] HR. destruct m as [|line m']; simpl in *; [lia|].
  inversion Hall; assumption.
Qed.

Lemma rect_get2 {A} (R C : nat) (m : list (list A)) r c :
  rect R C m -> (r < R)%nat -> (c < C)%nat -> is_Some (get2 m r c).
Proof.
  intros [Hlen Hall] Hr Hc. unfold get2.
  destruct (lookup_lt_is_Some_2 m r) as [line Hline]; [lia|].
  rewrite Hline. apply lookup_lt_is_Some_2.
  rewrite Forall_lookup in Hall. rewrite (Hall _ _ Hline). exact Hc.
Qed.

Lemma rect_get2_None {A} (R C : nat) (m : list (list A)) r c :
  rect R C m -> ~ ((r < R)%nat /\ (c < C)%nat) -> get2 m r c = None.
Proof.
  intros [Hlen Hall] Hn. unfold get2.
  destruct (m !! r) as [line|] eqn:Hline; [|reflexivity].
  apply lookup_ge_None_2.
  rewrite Forall_lookup in Hall. rewrite (Hall _ _ Hline).
  apply lookup_lt_Some in Hline. lia.
Qed.

Lemma rect_ext {A} (R C : nat) (a b : list (list A)) :
  rect R C a -> rect R C b ->
  (forall r c, (r < R)%nat -> (c < C)%nat -> get2 a r c = get2 b r c) ->
  a = b.
Proof.
  intros [Ha Hwa] [Hb Hwb] Hext. apply list_eq. intros r.
  destruct (decide (r < R)%nat) as [Hr|Hr].
  - destruct (lookup_lt_is_Some_2 a r) as [la Hla]; [lia|].
    destruct (lookup_lt_is_Some_2 b r) as [lb Hlb]; [lia|].
    rewrite Hla, Hlb. f_equal. apply list_eq. intros c.
    rewrite Forall_lookup in Hwa, Hwb.
    destruct (decide (c < C)%nat) as [Hc|Hc].
    + specialize (Hext r c Hr Hc). unfold get2 in Hext.
      rewrite Hla, Hlb in Hext. exact Hext.
    + rewrite !lookup_ge_None_2; [reflexivity| |].
      * rewrite (Hwb _ _ Hlb). lia.
      * rewrite (Hwa _ _ Hla). lia.
  - rewrite !lookup_ge_None_2; [reflexivity|lia|lia].
Qed.

Lemma rotated_rect {A} (fill : A) (R C : nat) (m : list (list A)) :
  rect R C m -> (0 < R)%nat -> rect C R (rotated fill m).
Proof.
  intros Hm HR. pose proof (rect_width R C m Hm HR) as Hw.
  destruct Hm as [Hlen Hall]. unfold rotated. rewrite Hw, Hlen. split.
  - rewrite length_map, length_seq. reflexivity.
  - apply Forall_fmap, Forall_forall. intros c _. simpl.
    rewrite length_map, length_seq. reflexivity.
Qed.

Lemma rotated_get2 {A} (fill : A) (R C : nat) (m : list (list A)) i j :
  rect R C m -> (i < C)%nat -> (j < R)%nat ->
  get2 (rotated fill m) i j = get2 m (R - 1 - j) i.
Proof.
  intros Hm Hi Hj. pose proof (rect_width R C m Hm ltac:(lia)) as Hw.
  destruct (rect_get2 R C m (R - 1 - j) i Hm ltac:(lia) Hi) as [x Hx].
  destruct Hm as [Hlen Hall]. unfold rotated, get2 at 1. rewrite Hw, Hlen.
  rewrite list_lookup_fmap, lookup_seq_lt by lia. simpl.
  rewrite list_lookup_fmap, lookup_seq_lt by lia. simpl.
  rewrite Hx. reflexivity.
Qed.

(** Source cell [(r, c)] lands on [(c, R - 1 - r)]. *)
Lemma rotated_maps {A} (fill : A) (R C : nat) (m : list (list A)) r c :
  rect R C m -> (r < R)%nat -> (c < C)%nat ->
  get2 (rotated fill m) c (R - 1 - r) = get2 m r c.
Proof.
  intros Hm Hr Hc. rewrite (rotated_get2 fill R C) by (auto; lia).
  f_equal. lia.
Qed.

Lemma rect_nonempty {A} (R C : nat) (m : list (list A)) :
  rect R C m -> (0 < R)%nat -> m <> [].
Proof. intros [Hlen _] HR ->. simpl in Hlen. lia. Qed.

Lemma rotateCW_rect {A} (fill : A) (R C : nat) (m : list (list A)) :
  rect R C m -> (0 < R)%nat -> rotateCW fill m = Some (rotated fill m).
Proof. intros Hm HR. apply rotateCW_rotated. eapply rect_nonempty; eauto. Qed.

Lemma rotated_four {A} (fill : A) (R C : nat) (m : list (list A)) :
  rect R C m -> (0 < R)%nat -> (0 < C)%nat ->
  rotated fill (rotated fill (rotated fill (rotated fill m))) = m.
Proof.
  intros Hm HR HC.
  pose proof (rotated_rect fill R C m Hm HR) as H1.
  pose proof (rotated_rect fill C R _ H1 HC) as H2.
  pose proof (rotated_rect fill R C _ H2 HR) as H3.
  pose proof (rotated_rect fill C R _ H3 HC) as H4.
  apply (rect_ext R C); [exact H4|exact Hm|].
  intros r c Hr Hc.
  rewrite (rotated_get2 fill C R) by (auto; lia).
  rewrite (rotated_get2 fill R C) by (auto; lia).
  rewrite (rotated_get2 fill C R) by (auto; lia).
  rewrite (rotated_get2 fill R C) by (auto; lia).
  f_equal; lia.
Qed.

Lemma rotate4_rect {A} (fill : A) (R C : nat) (m : list (list A)) :
  rect R C m -> (0 < R)%nat -> (0 < C)%nat ->
  rotate4 (rotateCW fill) m = Some m.
Proof.
  intros Hm HR HC.
  pose proof (rotated_rect fill R C m Hm HR) as H1.
  pose proof (rotated_rect fill C R _ H1 HC) as H2.
  pose proof (rotated_rect fill R C _ H2 HR) as H3.
  unfold rotate4.
  rewrite (rotateCW_rect fill R C m Hm HR). simpl.
  rewrite (rotateCW_rect fill C R _ H1 HC). simpl.
  rewrite (rotateCW_rect fill R C _ H2 HR). simpl.
  rewrite (rotateCW_rect fill C R _ H3 HC).
  f_equal. apply (rotated_four fill R C); assumption.
Qed.

Lemma rotated_icons_match (R C : nat) (m : Matrix) (ic : Icons) :
  rect R C m -> rect R C ic -> (0 < R)%nat ->
  icons_match m ic -> icons_match (rotated 0 m) (rotated None ic).
Proof.
  intros Hm Hic HR Hmatch i j.
  pose proof (rotated_rect 0 R C m Hm HR) as Hm'.
  pose proof (rotated_rect None R C ic Hic HR) as Hic'.
  destruct (decide ((i < C)%nat /\ (j < R)%nat)) as [[Hi Hj]|Hn].
  - rewrite (rotated_get2 0 R C), (rotated_get2 None R C) by auto.
    apply Hmatch.
  - rewrite (rect_get2_None C R _ i j Hm' Hn).
    rewrite (rect_get2_None C R _ i j Hic' Hn). exact I.
Qed.

(** C4. On a rectangular matrix with [R >= 1] rows and [C >= 1] columns,
    one clockwise rotation yields a [C] by [R] matrix in which the cell
    [(c, R - 1 - r)] holds the source cell [(r, c)]; four rotations give the
    matrix back.  [rotateIconsCW] applies the same transform to the icon
    overlay, so an overlay that matches the bitmask still matches it after
    the rotation. *)
Theorem rotation_order_four (R C : nat) (m : Matrix) (ic : Icons) :
  (0 < R)%nat -> (0 < C)%nat -> rect R C m -> rect R C ic ->
  exists m' ic',
    rotateMatrixCW m = Some m' /\ rotateIconsCW ic = Some ic'
    /\ rect C R m' /\ rect C R ic'
    /\ (forall r c, (r < R)%nat -> (c < C)%nat ->
          get2 m' c (R - 1 - r) = get2 m r c
          /\ get2 ic' c (R - 1 - r) = get2 ic r c)
    /\ rotate4 rotateMatrixCW m = Some m
    /\ rotate4 rotateIconsCW ic = Some ic
    /\ (icons_match m ic -> icons_match m' ic').
Proof.
  intros HR HC Hm Hic.
  exists (rotated 0 m), (rotated None ic).
  split; [apply (rotateCW_rect 0 R C); assumption|].
  split; [apply (rotateCW_rect None R C); assumption|].
  split; [apply rotated_rect; assumption|].
  split; [apply rotated_rect; assumption|].
  split.
  { intros r c Hr Hc. split; apply (rotated_maps _ R C); assumption. }
  split; [apply (rotate4_rect 0 R C); assumption|].
  split; [apply (rotate4_rect None R C); assumption|].
  apply (rotated_icons_match R C); assumption.
Qed.

(** ** Loops and lookups *)

Lemma for_some_true (n : nat) (body : nat -> bool) :
  for_some n body = true <-> exists i, (i < n)%nat /\ body i = true.
Proof.
  unfold for_some. rewrite existsb_exists. split.
  - intros (i & Hi & Hb). apply in_seq in Hi. exists i. split; [lia|exact Hb].
  - intros (i & Hi & Hb). exists i. split; [apply in_seq; lia|exact Hb].
Qed.

Lemma for_some_false (n : nat) (body : nat -> bool) :
  for_some n body = false <-> forall i, (i < n)%nat -> body i = false.
Proof.
  split.
  - intros H i Hi. destruct (body i) eqn:E; [|reflexivity].
    assert (for_some n body = true) by (apply for_some_true; eauto).
    congruence.
  - intros H. destruct (for_some n body) eqn:E; [|reflexivity].
    apply for_some_true in E. destruct E as (i & Hi & Hb).
    rewrite H in Hb by exact Hi. discriminate.
Qed.

Lemma for_some_ext (n : nat) (f g : nat -> bool) :
  (forall i, (i < n)%nat -> f i = g i) -> for_some n f = for_some n g.
Proof.
  intros H. destruct (for_some n g) eqn:E.
  - apply for_some_true in E. destruct E as (i & Hi & Hb).
    apply for_some_true. exists i. rewrite H by exact Hi. auto.
  - rewrite for_some_false in E. apply for_some_false.
    intros i Hi. rewrite H by exact Hi. auto.
Qed.

(** ** Collision *)

Lemma collides_true b p offR offC mat :
  let m := match mat with Some m' => m' | None => matrix p end in
  collides b p offR offC mat = true
  <-> exists r c, (r < length m)%nat /\ (c < width m)%nat
                  /\ hits b p offR offC m r c = true.
Proof.
  intros m. unfold collides. fold m. rewrite for_some_true. split.
  - intros (r & Hr & H). apply for_some_true in H. destruct H as (c & Hc & H).
    exists r, c. auto.
  - intros (r & c & Hr & Hc & H). exists r. split; [exact Hr|].
    apply for_some_true. exists c. auto.
Qed.

Lemma collides_false b p offR offC mat :
  let m := match mat with Some m' => m' | None => matrix p end in
  collides b p offR offC mat = false
  <-> forall r c, (r < length m)%nat -> (c < width m)%nat ->
                  hits b p offR offC m r c = false.
Proof.
  intros m. unfold collides. fold m. rewrite for_some_false. split.
  - intros H r c Hr Hc. specialize (H r Hr). rewrite for_some_false in H.
    apply H. exact Hc.
  - intros H r Hr. apply for_some_false. intros c Hc. apply H; assumption.
Qed.

(** Only the matrix, the row and the column of a piece matter, and an
    offset is the same as a displacement of the piece. *)
Lemma collides_shift b p q offR offC offR' offC' mat mat' :
  match mat with Some m' => m' | None => matrix p end
  = match mat' with Some m' => m' | None => matrix q end ->
  row p + offR = row q + offR' ->
  col p + offC = col q + offC' ->
  collides b p offR offC mat = collides b q offR' offC' mat'.
Proof.
  intros Hm Hr Hc. unfold collides. rewrite Hm.
  apply for_some_ext. intros r _. apply for_some_ext. intros c _.
  destruct (get2 _ r c) as [v|]; [|reflexivity].
  destruct (truthy v); [|reflexivity].
  replace (row p + Z.of_nat r + offR) with (row q + Z.of_nat r + offR') by lia.
  replace (col p + Z.of_nat c + offC) with (col q + Z.of_nat c + offC') by lia.
  reflexivity.
Qed.

Lemma collides_with_row b p k :
  collides b (with_row p (row p + k)) 0 0 None = collides b p k 0 None.
Proof. apply collides_shift; simpl; lia || reflexivity. Qed.

Lemma collides_with_col b p k :
  collides b (with_col p (col p + k)) 0 0 None = collides b p 0 k None.
Proof. apply collides_shift; simpl; lia || reflexivity. Qed.

Lemma collides_with_rotation b p m ic k :
  collides b (with_rotation p m ic (col p + k)) 0 0 None
  = collides b p 0 k (Some m).
Proof. apply collides_shift; simpl; lia || reflexivity. Qed.

(** A set cell pushed to or below the floor collides. *)
Lemma collides_floor b p n k :
  rect n n (matrix p) -> has_set_cell n (matrix p) ->
  ROWS <= row p + k -> 0 <= row p ->
  collides b p k 0 None = true.
Proof.
  intros Hrect (r & c & v & Hr & Hc & Hget & Hv) Hk Hrow.
  apply collides_true. simpl.
  exists r, c.
  destruct Hrect as [Hlen Hall].
  split; [lia|]. split.
  { rewrite (rect_width n n); [exact Hc|split; assumption|lia]. }
  unfold hits. rewrite Hget, Hv. simpl.
  replace (row p + Z.of_nat r + k >=? ROWS) with true by (symmetry; apply Z.geb_le; lia).
  rewrite orb_true_r. reflexivity.
Qed.

(** ** Spawning *)

(** [(Math.random() * n) | 0] is an index below [n]. *)
Lemma to_int_unit (u : unit_interval) (n : Z) :
  0 < n -> 0 <= to_int (uq u * inject_Z n) < n.
Proof.
  intros Hn. destruct u as [[a b] H]. simpl.
  apply andb_true_iff in H. destruct H as [H0 H1].
  apply negb_true_iff in H1.
  unfold Qle_bool in H0, H1. simpl in H0, H1.
  apply Z.leb_le in H0. apply Z.leb_gt in H1.
  unfold to_int. simpl. rewrite Pos.mul_1_r.
  rewrite Z.quot_div_nonneg by nia.
  split.
  - apply Z.div_pos; nia.
  - apply Z.div_lt_upper_bound; nia.
Qed.

Lemma randIcon_Some rnd cur : is_Some (fst (randIcon rnd cur)).
Proof.
  unfold randIcon. destruct (Qlt_bool _ _); simpl; [eauto|].
  apply lookup_lt_is_Some_2.
  pose proof (to_int_unit (rnd (S cur)) (Z.of_nat (length NON_LIGHTNING_ICONS))
                ltac:(reflexivity)) as Hi.
  change (length NON_LIGHTNING_ICONS) with 12%nat in *.
  lia.
Qed.

Lemma icons_of_row_spec rnd line :
  forall cur,
    let l := fst (icons_of_row rnd line cur) in
    length l = length line
    /\ forall c,
         match line !! c, l !! c with
         | Some v, Some i => truthy v = true <-> is_Some i
         | None, None => True
         | _, _ => False
         end.
Proof.
  induction line as [|v line IH]; intros cur; simpl.
  - split; [reflexivity|]. intros c. destruct c; exact I.
  - destruct (if truthy v then randIcon rnd cur else (None, cur)) as [ic cur1] eqn:E.
    specialize (IH cur1). destruct (icons_of_row rnd line cur1) as [rest cur2].
    simpl in *. destruct IH as [IHlen IHc].
    split; [congruence|].
    intros [|c]; simpl; [|apply IHc].
    destruct (truthy v).
    + pose proof (randIcon_Some rnd cur) as Hs. rewrite E in Hs. simpl in Hs.
      tauto.
    + inversion E; subst. split; [discriminate|].
      intros [x Hx]. discriminate.
Qed.

Lemma icons_of_matrix_spec rnd (R C : nat) m :
  forall cur, rect R C m ->
    rect R C (fst (icons_of_matrix rnd m cur))
    /\ icons_match m (fst (icons_of_matrix rnd m cur)).
Proof.
  revert R. induction m as [|line m IH]; intros R cur [Hlen Hall]; simpl.
  - split; [split; [exact Hlen|constructor]|].
    intros r c. unfold get2. destruct r; exact I.
  - pose proof (icons_of_row_spec rnd line cur) as Hrow.
    destruct (icons_of_row rnd line cur) as [l cur1]. simpl in Hrow.
    destruct Hrow as [Hl Hc].
    apply Forall_cons in Hall. destruct Hall as [Hline Hrest].
    specialize (IH (length m) cur1 (conj eq_refl Hrest)).
    destruct (icons_of_matrix rnd m cur1) as [rest cur2]. simpl in *.
    destruct IH as [[IHlen IHall] IHm].
    split.
    + split; [simpl; congruence|]. constructor; [congruence|exact IHall].
    + intros [|r] c; unfold get2; simpl; [apply Hc|apply IHm].
Qed.

(** What [randomPiece] returns: one of the seven templates, at row 0 of
    the centred column, with the next identifier. *)
Lemma randomPiece_cases rnd s :
  exists k sh,
    In (k, sh) SHAPES
    /\ randomPiece rnd s
       = Some {| id := s + 1; key := k; color := shape_color sh;
                 matrix := shape_matrix sh;
                 icons := fst (icons_of_matrix rnd (shape_matrix sh) 1%nat);
                 row := 0;
                 col := (COLS - Z.of_nat (width (shape_matrix sh))) / 2 |}.
Proof.
  unfold randomPiece.
  pose proof (to_int_unit (rnd 0%nat) (Z.of_nat (length ALL_KEYS))
                ltac:(reflexivity)) as Hi.
  change (Z.of_nat (length ALL_KEYS)) with 7 in *.
  assert (Hlt : (Z.to_nat (to_int (uq (rnd 0%nat) * inject_Z 7)) < 7)%nat) by lia.
  clear Hi. revert Hlt.
  generalize (Z.to_nat (to_int (uq (rnd 0%nat) * inject_Z 7))). intros i Hlt.
  do 7 (destruct i as [|i];
        [eexists _, _; split; [|reflexivity]; simpl; tauto|]).
  lia.
Qed.


(** The fresh piece is already where [lockAndSpawn] re-centres it. *)
Lemma randomPiece_centred rnd s p :
  randomPiece rnd s = Some p ->
  with_col (with_row p 0) ((COLS - Z.of_nat (width (matrix p))) / 2) = p
  /\ id p = s + 1 /\ row p = 0.
Proof.
  intros H. destruct (randomPiece_cases rnd s) as (k & sh & _ & Hp).
  rewrite Hp in H. inversion H; subst. simpl. auto.
Qed.

Lemma randomPiece_ok rnd s p : randomPiece rnd s = Some p -> piece_ok p.
Proof.
  intros H. destruct (randomPiece_cases rnd s) as (k & sh & Hin & Hp).
  rewrite Hp in H. inversion H; subst. clear H Hp.
  unfold piece_ok. simpl.
  assert (Hshape : exists n, (0 < n)%nat /\ rect n n (shape_matrix sh)
                             /\ has_set_cell n (shape_matrix sh)).
  { simpl in Hin.
    repeat (destruct Hin as [Hin|Hin]; [inversion Hin; subst; clear Hin|]);
      try contradiction; simpl.
    - exists 4%nat. split; [lia|]. split; [split; [reflexivity|repeat constructor]|].
      exists 1%nat, 0%nat, 1. repeat split; lia.
    - exists 3%nat. split; [lia|]. split; [split; [reflexivity|repeat constructor]|].
      exists 1%nat, 0%nat, 1. repeat split; lia.
    - exists 3%nat. split; [lia|]. split; [split; [reflexivity|repeat constructor]|].
      exists 1%nat, 0%nat, 1. repeat split; lia.
    - exists 2%nat. split; [lia|]. split; [split; [reflexivity|repeat constructor]|].
      exists 1%nat, 0%nat, 1. repeat split; lia.
    - exists 3%nat. split; [lia|]. split; [split; [reflexivity|repeat constructor]|].
      exists 1%nat, 0%nat, 1. repeat split; lia.
    - exists 3%nat. split; [lia|]. split; [split; [reflexivity|repeat constructor]|].
      exists 1%nat, 0%nat, 1. repeat split; lia.
    - exists 3%nat. split; [lia|]. split; [split; [reflexivity|repeat constructor]|].
      exists 1%nat, 1%nat, 1. repeat split; lia. }
  destruct Hshape as (n & Hn & Hrect & Hset).
  destruct (icons_of_matrix_spec rnd n n (shape_matrix sh) 1%nat Hrect) as [Hi Hmatch].
  exists n. repeat split; try assumption; try apply Hrect; try apply Hi. lia.
Qed.

(** A fresh piece fits on the empty board. *)
Lemma randomPiece_fits rnd s p :
  randomPiece rnd s = Some p -> collides emptyBoard p 0 0 None = false.
Proof.
  intros H. destruct (randomPiece_cases rnd s) as (k & sh & Hin & Hp).
  rewrite Hp in H. inversion H; subst. clear H Hp.
  simpl in Hin.
  repeat (destruct Hin as [Hin|Hin]; [inversion Hin; subst; clear Hin|]);
    try contradiction; reflexivity.
Qed.

(** ** The descent loop of [hardDrop] *)

Lemma drop_search_spec fuel b p :
  forall d0 d,
    drop_search fuel b p d0 = Some d ->
    d0 <= d
    /\ collides b p (d + 1) 0 None = true
    /\ forall k, d0 < k <= d -> collides b p k 0 None = false.
Proof.
  induction fuel as [|fuel IH]; intros d0 d H; simpl in H; [discriminate|].
  destruct (collides b p (d0 + 1) 0 None) eqn:E; simpl in H.
  - inversion H; subst. repeat split; [lia|exact E|]. intros k Hk. lia.
  - apply IH in H. destruct H as (Hle & Hhit & Hfree).
    repeat split; [lia|exact Hhit|].
    intros k Hk. destruct (Z.eq_dec k (d0 + 1)) as [->|Hne]; [exact E|].
    apply Hfree. lia.
Qed.

(** The loop ends as soon as the fuel covers the first colliding offset. *)
Lemma drop_search_total fuel b p :
  forall d0 k,
    d0 < k -> collides b p k 0 None = true -> k - d0 <= Z.of_nat fuel ->
    exists d, drop_search fuel b p d0 = Some d /\ d < k.
Proof.
  induction fuel as [|fuel IH]; intros d0 k Hk Hhit Hfuel; [simpl in *; lia|].
  simpl. destruct (collides b p (d0 + 1) 0 None) eqn:E; simpl.
  - exists d0. split; [reflexivity|lia].
  - assert (k <> d0 + 1) by (intros ->; congruence).
    apply (IH (d0 + 1) k); [lia|exact Hhit|lia].
Qed.

Lemma drop_search_more fuel fuel' b p :
  forall d0 d,
    drop_search fuel b p d0 = Some d -> (fuel <= fuel')%nat ->
    drop_search fuel' b p d0 = Some d.
Proof.
  revert fuel'. induction fuel as [|fuel IH]; intros fuel' d0 d H Hle;
    simpl in H; [discriminate|].
  destruct fuel' as [|fuel']; [lia|]. simpl.
  destruct (collides b p (d0 + 1) 0 None); simpl in *; [exact H|].
  apply IH; [exact H|lia].
Qed.

(** A cell that hits at an offset but not one row higher was inside the
    board there. *)
Lemma free_cell_in_range b p k m r c :
  hits b p (k + 1) 0 m r c = true -> hits b p k 0 m r c = false ->
  row p + Z.of_nat r + k < ROWS.
Proof.
  unfold hits. destruct (get2 m r c) as [v|]; [|discriminate].
  destruct (truthy v); [|discriminate].
  intros _ H.
  destruct (row p + Z.of_nat r + k >=? ROWS) eqn:E.
  - rewrite orb_true_r in H. simpl in H. discriminate.
  - rewrite Z.geb_leb in E. apply Z.leb_gt in E. lia.
Qed.

(** [drop_fuel] pays for every run of the loop that ends. *)
Lemma drop_search_enough fuel b p d :
  drop_search fuel b p 0 = Some d ->
  drop_search (drop_fuel p) b p 0 = Some d.
Proof.
  intros H. pose proof (drop_search_spec _ _ _ _ _ H) as (Hd & Hhit & Hfree).
  destruct (drop_search_total (drop_fuel p) b p 0 (d + 1)) as (d' & Hd' & Hlt);
    [lia|exact Hhit| |].
  - unfold drop_fuel. destruct (Z.eq_dec d 0) as [->|Hne]; [lia|].
    apply collides_true in Hhit. destruct Hhit as (r & c & Hr & Hc & Hrc).
    assert (Hd0 : collides b p d 0 None = false) by (apply Hfree; lia).
    rewrite collides_false in Hd0. specialize (Hd0 r c Hr Hc).
    pose proof (free_cell_in_range _ _ _ _ _ _ Hrc Hd0). lia.
  - pose proof (drop_search_spec _ _ _ _ _ Hd') as (Hd0' & Hhit' & _).
    destruct (Z.eq_dec d' d) as [->|Hne]; [exact Hd'|].
    rewrite Hfree in Hhit' by lia. discriminate.
Qed.

(** For a well-formed piece the loop ends within [ROWS] tests. *)
Lemma drop_search_ok b p fuel :
  piece_ok p -> (Z.to_nat ROWS <= fuel)%nat ->
  exists d, drop_search fuel b p 0 = Some d /\ 0 <= d < ROWS.
Proof.
  intros (n & Hn & Hrect & _ & Hset & _ & Hrow) Hfuel.
  destruct (drop_search_total fuel b p 0 (Z.max 1 (ROWS - row p)))
    as (d & Hd & Hlt).
  - lia.
  - apply (collides_floor b p n); try assumption. lia.
  - unfold ROWS in *. lia.
  - exists d. pose proof (drop_search_spec _ _ _ _ _ Hd) as (H0 & _).
    unfold ROWS in *. repeat split; try assumption; lia.
Qed.

(** ** Boards stay 20 by 10 *)

Lemma for_loop_ind {S} (P : S -> Prop) (n : nat) (body : S -> nat -> S) (init : S) :
  P init -> (forall s i, (i < n)%nat -> P s -> P (body s i)) ->
  P (for_loop n body init).
Proof.
  intros Hinit Hbody. unfold for_loop.
  assert (H : forall l s, (forall i, In i l -> (i < n)%nat) -> P s -> P (foldl body s l)).
  { induction l as [|i l IH]; intros s Hl Hs; simpl; [exact Hs|].
    apply IH; [intros j Hj; apply Hl; right; exact Hj|].
    apply Hbody; [apply Hl; left; reflexivity|exact Hs]. }
  apply H; [|exact Hinit]. intros i Hi. apply in_seq in Hi. lia.
Qed.

Lemma emptyBoard_ok : board_ok emptyBoard.
Proof. split; [reflexivity|repeat constructor]. Qed.

Lemma merge_ok b p : board_ok b -> board_ok (merge b p).
Proof.
  intros Hb. unfold merge.
  apply for_loop_ind; [exact Hb|]. intros b1 r _ Hb1.
  apply for_loop_ind; [exact Hb1|]. intros b2 c _ [Hlen Hall].
  destruct (get2 (matrix p) r c) as [v|]; [|split; assumption].
  destruct (truthy v); [|split; assumption].
  destruct (_ && _); [|split; assumption].
  split.
  - rewrite length_alter. exact Hlen.
  - apply Forall_alter; [exact Hall|]. intros line _ Hline.
    rewrite length_insert. exact Hline.
Qed.

Lemma clearLines_ok b : board_ok b -> board_ok (fst (clearLines b)).
Proof.
  intros [Hlen Hall]. split.
  - apply clearLines_length. exact Hlen.
  - apply clearLines_width. exact Hall.
Qed.

Lemma clearLines_count b :
  board_ok b -> 0 <= snd (clearLines b) <= ROWS.
Proof.
  intros [Hlen _]. unfold clearLines. cbn [snd].
  pose proof (List.filter_length_le has_gap b). unfold ROWS in *. lia.
Qed.

(** ** What the actions do to the state *)

Ltac break_if :=
  match goal with
  | |- context [if ?c then _ else _] => destruct c eqn:?
  | H : context [if ?c then _ else _] |- _ => destruct c eqn:?
  end.

Lemma lockAndSpawn_inv e rnd b cp st st1 :
  lockAndSpawn e rnd b cp st = Some st1 ->
  exists next,
    randomPiece rnd (PIECE_SEQ st) = Some next
    /\ let cb := fst (clearLines (merge b cp)) in
       let n := snd (clearLines (merge b cp)) in
       board st1 = cb
       /\ score st1 = score st + n
       /\ PIECE_SEQ st1 = PIECE_SEQ st + 1
       /\ awardedRef st1 = awardedRef st
       /\ mountEnv st1 = mountEnv st
       /\ holdTimer st1 = holdTimer st
       /\ ((collides cb next 0 0 None = true
            /\ gameOver st1 = true /\ piece st1 = piece st)
           \/ (collides cb next 0 0 None = false
               /\ gameOver st1 = gameOver st /\ piece st1 = next))
       /\ (high st1 = high st
           \/ high st1 = inject_Z (env_score e)
           \/ (n <> 0 /\ high st1 = inject_Z (score st + n))).
Proof.
  unfold lockAndSpawn. intros H.
  destruct (clearLines (merge b cp)) as [cb n] eqn:Ecl.
  destruct (randomPiece rnd (PIECE_SEQ st)) as [next|] eqn:Er; [|discriminate].
  destruct (randomPiece_centred _ _ _ Er) as (Hc & Hid & _).
  rewrite Hc in H. exists next. split; [reflexivity|]. cbn [fst snd].
  inversion H as [Hst1]. clear H.
  unfold scoreUpdater, updateHighScore.
  destruct (collides cb next 0 0 None) eqn:Ecol;
    destruct (n =? 0) eqn:En;
    try (apply Z.eqb_eq in En; subst n);
    try (apply Z.eqb_neq in En);
    repeat break_if; cbn;
    repeat split; try lia; try tauto; auto.
Qed.

Lemma resetGame_inv rnd st st1 :
  resetGame rnd st = Some st1 ->
  exists first,
    randomPiece rnd (PIECE_SEQ st) = Some first
    /\ st1 = {| board := emptyBoard; piece := first; score := 0;
                high := high st; gameOver := false; awardedRef := -1;
                PIECE_SEQ := PIECE_SEQ st + 1; mountEnv := mountEnv st;
                holdTimer := holdTimer st |}.
Proof.
  unfold resetGame. intros H.
  destruct (randomPiece rnd (PIECE_SEQ st)) as [first|] eqn:Er; [|discriminate].
  destruct (randomPiece_centred _ _ _ Er) as (_ & Hid & _).
  exists first. split; [reflexivity|]. inversion H. cbn. rewrite Hid. reflexivity.
Qed.

Lemma awardEffect_inv st :
  id (piece st) <> awardedRef st ->
  let bonus := if hasLightningInIcons (icons (piece st)) then 5 else 0 in
  board (awardEffect st) = board st
  /\ piece (awardEffect st) = piece st
  /\ gameOver (awardEffect st) = gameOver st
  /\ PIECE_SEQ (awardEffect st) = PIECE_SEQ st
  /\ mountEnv (awardEffect st) = mountEnv st
  /\ holdTimer (awardEffect st) = holdTimer st
  /\ awardedRef (awardEffect st) = id (piece st)
  /\ score (awardEffect st) = score st + bonus
  /\ (high (awardEffect st) = high st
      \/ (bonus = 5 /\ high (awardEffect st) = inject_Z (score st + 5))).
Proof.
  intros Hne. unfold awardEffect.
  apply Z.eqb_neq in Hne. rewrite Hne.
  unfold scoreUpdater, updateHighScore.
  destruct (hasLightningInIcons (icons (piece st)));
    repeat break_if; cbn; repeat split; try lia; auto.
Qed.

Lemma commit_same prev st :
  id (piece st) = id (piece prev) -> commit prev st = st.
Proof. intros H. unfold commit. rewrite H, Z.eqb_refl. reflexivity. Qed.

Lemma commit_fresh prev st :
  id (piece st) <> id (piece prev) -> commit prev st = awardEffect st.
Proof.
  intros H. unfold commit. apply Z.eqb_neq in H. rewrite H. reflexivity.
Qed.

(** ** Every handler is one of five kinds of transition *)

Lemma try_kicks_handled rnd st m ic ks :
  rotateMatrixCW (matrix (piece st)) = Some m ->
  rotateIconsCW (icons (piece st)) = Some ic ->
  handled rnd st (try_kicks st m ic ks).
Proof.
  intros Hm Hic. induction ks as [|k ks IH]; simpl; [constructor|].
  destruct (collides (board st) (piece st) 0 k (Some m)) eqn:E; simpl; [exact IH|].
  apply handled_moved. apply moved_rot; assumption.
Qed.

Lemma moveLeft_handled rnd st : handled rnd st (moveLeft st).
Proof.
  unfold moveLeft, canMove.
  destruct (collides (board st) (piece st) 0 (-1) None) eqn:E; simpl; [constructor|].
  apply handled_moved. apply (moved_col _ _ (-1)). exact E.
Qed.

Lemma moveRight_handled rnd st : handled rnd st (moveRight st).
Proof.
  unfold moveRight, canMove.
  destruct (collides (board st) (piece st) 0 1 None) eqn:E; simpl; [constructor|].
  apply handled_moved. apply (moved_col _ _ 1). exact E.
Qed.

Lemma rotateAction_handled rnd st st1 :
  rotateAction st = Some st1 -> handled rnd st st1.
Proof.
  unfold rotateAction. intros H.
  destruct (String.eqb (key (piece st)) "O"); [inversion H; constructor|].
  destruct (rotateMatrixCW (matrix (piece st))) as [m|] eqn:Em; [|discriminate].
  destruct (rotateIconsCW (icons (piece st))) as [ic|] eqn:Eic; [|discriminate].
  injection H as <-. exact (try_kicks_handled rnd st m ic kicks Em Eic).
Qed.

Lemma softDropStep_handled e rnd st st1 :
  closure_of st e -> softDropStep e rnd st = Some st1 -> handled rnd st st1.
Proof.
  unfold softDropStep. intros He H.
  destruct (collides (board st) (piece st) 1 0 None) eqn:E; simpl in H.
  - apply (handled_lock _ _ e (piece st)); [exact He|left; reflexivity|exact H].
  - inversion H. apply handled_moved. apply moved_row. exact E.
Qed.

Lemma hardDrop_handled e rnd st st1 :
  closure_of st e -> hardDrop e rnd st = Some st1 -> handled rnd st st1.
Proof.
  unfold hardDrop. intros He H.
  destruct (drop_search _ _ _ 0) as [d|] eqn:Ed; [|discriminate].
  apply drop_search_spec in Ed. destruct Ed as (Hd & _).
  apply (handled_lock _ _ e (with_row (piece st) (row (piece st) + d)));
    [exact He| |exact H].
  right. exists d. auto.
Qed.

Ltac solve_handled H :=
  first
    [ apply handled_reset; exact H
    | injection H as <-;
      solve [apply handled_same | apply moveLeft_handled | apply moveRight_handled]
    | solve [eapply softDropStep_handled; [|exact H]; auto]
    | solve [eapply hardDrop_handled; [|exact H]; auto]
    | solve [eapply rotateAction_handled; exact H] ].

Lemma handler_handled ev rnd st st1 :
  handler ev rnd st = Some st1 -> handled rnd st st1.
Proof.
  assert (Hcur : closure_of st (currentEnv st)) by (left; reflexivity).
  assert (Hmnt : closure_of st (mountEnv st)) by (right; left; reflexivity).
  destruct ev as [k|g|b| | | |]; simpl; intros H.
  - destruct k; simpl in H; try solve_handled H;
      destruct (gameOver st); solve_handled H.
  - unfold onTouchEnd in H. destruct (gameOver st); [solve_handled H|].
    destruct g; solve_handled H.
  - destruct b; simpl in H; solve_handled H.
  - injection H as <-. unfold startHoldDown.
    destruct (holdTimer st); [constructor|].
    apply handled_hold. right. reflexivity.
  - injection H as <-. apply handled_hold. left. reflexivity.
  - unfold holdTick in H. destruct (holdTimer st) as [e|] eqn:Eh;
      [|solve_handled H].
    destruct (gameOver st); [solve_handled H|].
    apply (softDropStep_handled e); [right; right; exact Eh|exact H].
  - unfold frame in H. destruct (gameOver st); [solve_handled H|].
    apply (softDropStep_handled (mountEnv st)); [exact Hmnt|exact H].
Qed.

(** ** The invariant holds in every reachable state *)

Lemma has_set_cell_rotated n m :
  rect n n m -> has_set_cell n m -> has_set_cell n (rotated 0 m).
Proof.
  intros Hrect (r & c & v & Hr & Hc & Hget & Hv).
  exists c, (n - 1 - r)%nat, v.
  split; [exact Hc|]. split; [lia|]. split; [|exact Hv].
  rewrite (rotated_maps 0 n n) by assumption. exact Hget.
Qed.

Lemma moved_ok b p p' :
  piece_ok p -> moved b p p' ->
  piece_ok p' /\ id p' = id p /\ collides b p' 0 0 None = false.
Proof.
  intros (n & Hn & Hm & Hic & Hset & Hmatch & Hrow) Hmv.
  destruct Hmv as [k Hfree|Hfree|m ic k Hrm Hric Hfree].
  - split; [|split; [reflexivity|]].
    + exists n. simpl. auto 10.
    + rewrite collides_with_col. exact Hfree.
  - split; [|split; [reflexivity|]].
    + exists n. simpl. repeat split; try assumption; try apply Hm; try apply Hic. lia.
    + rewrite collides_with_row. exact Hfree.
  - unfold rotateMatrixCW in Hrm. unfold rotateIconsCW in Hric.
    rewrite (rotateCW_rect 0 n n) in Hrm by assumption.
    rewrite (rotateCW_rect None n n) in Hric by assumption.
    injection Hrm as <-. injection Hric as <-.
    split; [|split; [reflexivity|]].
    + exists n. simpl.
      split; [exact Hn|].
      split; [apply rotated_rect; assumption|].
      split; [apply rotated_rect; assumption|].
      split; [apply has_set_cell_rotated; assumption|].
      split; [apply (rotated_icons_match n n); assumption|exact Hrow].
    + rewrite collides_with_rotation. exact Hfree.
Qed.

Lemma closure_score st e :
  Inv st -> closure_of st e -> 0 <= env_score e.
Proof.
  intros HI [-> | [-> | Hh]].
  - simpl. apply (inv_score _ HI).
  - rewrite (inv_mount _ HI). lia.
  - apply (inv_hold _ HI). exact Hh.
Qed.

Lemma Inv_setSeq st k :
  Inv st -> Inv (setSeq st (PIECE_SEQ st + Z.of_nat k)).
Proof.
  intros [Hb Hp Ha Hi Hs Hf Hm Hh Hhi].
  constructor; simpl; try assumption. lia.
Qed.

Lemma Inv_awardEffect st :
  board_ok (board st) -> piece_ok (piece st) ->
  1 <= id (piece st) <= PIECE_SEQ st ->
  id (piece st) <> awardedRef st ->
  0 <= score st ->
  (gameOver st = false -> collides (board st) (piece st) 0 0 None = false) ->
  env_score (mountEnv st) = 0 ->
  (forall e, holdTimer st = Some e -> 0 <= env_score e) ->
  (high st = env_high (mountEnv st) \/ exists n, 0 <= n /\ high st = inject_Z n) ->
  Inv (awardEffect st).
Proof.
  intros Hb Hp Hi Hne Hs Hf Hm Hh Hhi.
  destruct (awardEffect_inv st Hne)
    as (Eb & Ep & Eg & Es & Em & Eh & Ea & Esc & Ehi).
  constructor; rewrite ?Eb, ?Ep, ?Eg, ?Es, ?Em, ?Eh, ?Ea, ?Esc;
    try assumption; try reflexivity.
  - destruct (hasLightningInIcons _); lia.
  - destruct Ehi as [-> | [_ ->]]; [exact Hhi|].
    right. exists (score st + 5). split; [lia|reflexivity].
Qed.

Lemma Inv_handled rnd st st1 :
  Inv st -> handled rnd st st1 -> Inv (commit st st1).
Proof.
  intros HI Hh.
  pose proof HI as [Hb Hp Ha Hi Hs Hf Hm Hho Hhi].
  destruct Hh as [|p' Hmv|e cp st1 He Hl Hlock|st1 Hreset|t Ht].
  - rewrite commit_same by reflexivity. exact HI.
  - destruct (moved_ok _ _ _ Hp Hmv) as (Hp' & Hid & Hfree).
    rewrite commit_same by exact Hid.
    constructor; simpl; rewrite ?Hid; auto.
  - destruct (lockAndSpawn_inv _ _ _ _ _ _ Hlock)
      as (next & Hnext & Eb & Esc & Eseq & Ea & Em & Eh & Hcase & Ehi).
    cbv zeta in *.
    assert (Hcb : board_ok (board st1)).
    { rewrite Eb. apply clearLines_ok, merge_ok, Hb. }
    pose proof (clearLines_count (merge (board st) cp) (merge_ok _ _ Hb)) as Hn.
    pose proof (closure_score st e HI He) as Hes.
    assert (Hhi1 : high st1 = env_high (mountEnv st1)
                   \/ exists n, 0 <= n /\ high st1 = inject_Z n).
    { rewrite Em. destruct Ehi as [-> | [-> | [_ ->]]]; [exact Hhi| |].
      - right. exists (env_score e). split; [exact Hes|reflexivity].
      - right. eexists. split; [|reflexivity]. lia. }
    pose proof Hhi1 as Hhi2. rewrite Em in Hhi2.
    destruct Hcase as [(Hcol & Hg & Ep)|(Hcol & Hg & Ep)].
    + rewrite commit_same by (rewrite Ep; reflexivity).
      constructor; rewrite ?Ep, ?Ea, ?Eseq, ?Esc, ?Em, ?Eh; try assumption;
        try lia.
      rewrite Hg. discriminate.
    + destruct (randomPiece_centred _ _ _ Hnext) as (_ & Hid & _).
      rewrite commit_fresh by (rewrite Ep, Hid; lia).
      apply Inv_awardEffect; rewrite ?Ep, ?Ea, ?Eseq, ?Esc, ?Em, ?Eh;
        try assumption; try lia.
      * eapply randomPiece_ok; eauto.
      * intros _. rewrite Eb. exact Hcol.
  - destruct (resetGame_inv _ _ _ Hreset) as (first & Hfirst & Hst1). subst st1.
    destruct (randomPiece_centred _ _ _ Hfirst) as (_ & Hid & _).
    rewrite commit_fresh by (simpl; lia).
    apply Inv_awardEffect; simpl; try assumption; try lia.
    + apply emptyBoard_ok.
    + eapply randomPiece_ok; eauto.
    + intros _. eapply randomPiece_fits; eauto.
  - rewrite commit_same by reflexivity.
    constructor; simpl; try assumption.
    intros e He. destruct Ht as [-> | ->]; [discriminate|].
    injection He as <-. simpl. exact Hs.
Qed.

Lemma Inv_step st ev o st' : Inv st -> step st ev o = Some st' -> Inv st'.
Proof.
  intros HI H. unfold step in H.
  destruct (handler ev (rng o) st) as [st1|] eqn:Eh; [|discriminate].
  injection H as <-. apply Inv_setSeq.
  apply (Inv_handled (rng o)); [exact HI|].
  eapply handler_handled; eauto.
Qed.

Lemma Inv_mount w item o st : mount w item o = Some st -> Inv st.
Proof.
  unfold mount. intros H.
  destruct (randomPiece (rng o) 0) as [first|] eqn:Ef; [|discriminate].
  injection H as <-.
  destruct (randomPiece_centred _ _ _ Ef) as (_ & Hid & _).
  apply Inv_setSeq. apply Inv_awardEffect; simpl; try lia; auto.
  - apply emptyBoard_ok.
  - eapply randomPiece_ok; eauto.
  - intros _. eapply randomPiece_fits; eauto.
  - intros e He. discriminate.
Qed.

Lemma reachable_Inv st : reachable st -> Inv st.
Proof.
  induction 1 as [w item o st Hm|st ev o st' _ IH Hs].
  - eapply Inv_mount; eauto.
  - eapply Inv_step; eauto.
Qed.

Lemma run_reachable evs :
  forall st st', reachable st -> run st evs = Some st' -> reachable st'.
Proof.
  induction evs as [|[ev o] evs IH]; intros st st' Hr H; simpl in H.
  - injection H as <-. exact Hr.
  - destruct (step st ev o) as [st1|] eqn:Es; [|discriminate].
    apply (IH st1); [|exact H]. eapply reachable_step; eauto.
Qed.

(** ** Rotation keeps the number of set cells *)

(** Rotating adds the new top row as the last column. *)
Lemma rotated_cons {A} (fill : A) (line : list A) (m : list (list A)) (R C : nat) :
  rect R C m -> length line = C -> (0 < R)%nat ->
  rotated fill (line :: m)
  = zip_with (fun l x => l ++ [x]) (rotated fill m) line.
Proof.
  intros Hm Hline HR. pose proof (rect_width R C m Hm HR) as Hw.
  destruct Hm as [Hlen Hall].
  apply list_eq. intros i. rewrite lookup_zip_with.
  unfold rotated. cbn [width length]. rewrite Hw, Hline, Hlen.
  destruct (decide (i < C)%nat) as [Hi|Hi].
  - rewrite !list_lookup_fmap, !lookup_seq_lt by lia.
    destruct (lookup_lt_is_Some_2 line i) as [x Hx]; [lia|].
    rewrite Hx. cbn [fmap option_fmap option_map mbind option_bind plus].
    f_equal.
    rewrite seq_S, map_app. cbn [map plus]. f_equal.
    + apply map_ext_in. intros j Hj. apply in_seq in Hj.
      replace (S R - 1 - j)%nat with (S (R - 1 - j)) by lia. reflexivity.
    + replace (S R - 1 - R)%nat with 0%nat by lia. unfold get2. cbn.
      rewrite Hx. reflexivity.
  - rewrite !list_lookup_fmap. rewrite !lookup_seq_ge by lia. reflexivity.
Qed.

Lemma rotated_single {A} (fill : A) (line : list A) :
  rotated fill [line] = map (fun x => [x]) line.
Proof.
  apply list_eq. intros i. unfold rotated. cbn [width length].
  rewrite !list_lookup_fmap.
  destruct (decide (i < length line)%nat) as [Hi|Hi].
  - rewrite lookup_seq_lt by lia. cbn.
    destruct (lookup_lt_is_Some_2 line i) as [x Hx]; [lia|].
    unfold get2. cbn. rewrite Hx. reflexivity.
  - rewrite lookup_seq_ge by lia. rewrite lookup_ge_None_2 by lia. reflexivity.
Qed.

Lemma count_set_single (line : list Z) :
  count_set (map (fun x => [x]) line) = length (List.filter truthy line).
Proof.
  unfold count_set. induction line as [|x line IH]; [reflexivity|].
  simpl. rewrite IH. destruct (truthy x); simpl; lia.
Qed.

Lemma count_set_snoc (ls : Matrix) :
  forall line : list Z, length ls = length line ->
    count_set (zip_with (fun l x => l ++ [x]) ls line)
    = (count_set ls + length (List.filter truthy line))%nat.
Proof.
  unfold count_set. induction ls as [|l ls IH]; intros [|x line] Hlen;
    try discriminate; [reflexivity|].
  simpl in *. rewrite IH by lia.
  rewrite List.filter_app, length_app. simpl.
  destruct (truthy x); simpl; lia.
Qed.

Lemma count_set_rotated (m : Matrix) :
  forall R C, rect R C m -> (0 < R)%nat ->
    count_set (rotated 0 m) = count_set m.
Proof.
  induction m as [|line m IH]; intros R C [Hlen Hall] HR; [cbn in Hlen; lia|].
  apply Forall_cons in Hall. destruct Hall as [Hline Hrest].
  destruct m as [|line' m'].
  - rewrite rotated_single, count_set_single. unfold count_set. cbn. lia.
  - assert (Hm : rect (length (line' :: m')) C (line' :: m')) by (split; auto).
    rewrite (rotated_cons 0 line (line' :: m') _ C Hm Hline) by (cbn; lia).
    rewrite count_set_snoc.
    + rewrite (IH _ C Hm) by (cbn; lia). unfold count_set. cbn. lia.
    + destruct (rotated_rect 0 _ C _ Hm ltac:(cbn; lia)) as [-> _]. congruence.
Qed.

Lemma has_set_cell_count n m :
  has_set_cell n m -> (0 < count_set m)%nat.
Proof.
  intros (r & c & v & _ & _ & Hget & Hv). unfold count_set, get2 in *.
  destruct (m !! r) as [line|] eqn:Hline; [|discriminate].
  assert (Hin : In v line).
  { apply list_elem_of_In. eapply list_elem_of_lookup_2. exact Hget. }
  assert (Hpos : (0 < length (List.filter truthy line))%nat).
  { assert (In v (List.filter truthy line)) by (apply List.filter_In; auto).
    destruct (List.filter truthy line); [contradiction|cbn; lia]. }
  assert (Hinm : In line m).
  { apply list_elem_of_In. eapply list_elem_of_lookup_2. exact Hline. }
  clear -Hpos Hinm. induction m as [|l m IH]; [contradiction|].
  simpl. destruct Hinm as [Heq|Hin]; [subst l; lia|]. specialize (IH Hin). lia.
Qed.

(** * The claims *)

Lemma mount_I : mount true None (oracle draw_I) = Some st_mount_I.
Proof. reflexivity. Qed.

Lemma reachable_mount_I : reachable st_mount_I.
Proof. exact (reachable_mount true None (oracle draw_I) st_mount_I mount_I). Qed.

Lemma run_cave : run st_mount_I cave_events = Some st_cave.
Proof. vm_compute. reflexivity. Qed.

Lemma reachable_cave : reachable st_cave.
Proof. exact (run_reachable _ _ _ reachable_mount_I run_cave). Qed.

(** C1. In every reachable state whose status is running, whether it was
    reached by the first spawn, a spawn on lock, a restart, a move, a
    rotation, a soft-drop step or a gravity step, the active piece does not
    collide where it stands: [collides(board, piece, 0, 0)] is false. *)
Theorem active_piece_never_collides (st : State) :
  reachable st -> gameOver st = false ->
  collides (board st) (piece st) 0 0 None = false.
Proof.
  intros Hr Hg. apply (inv_free st (reachable_Inv st Hr) Hg).
Qed.

Lemma active_piece_never_collides_witness :
  collides (board st_cave) (piece st_cave) 0 0 None = false.
Proof.
  apply (active_piece_never_collides st_cave).
  - exact reachable_cave.
  - reflexivity.
Defined.

(** ** The rotate action *)

Lemma try_kicks_first st m ic :
  forall ks pre k post,
    ks = pre ++ k :: post ->
    Forall (fun k' => collides (board st) (piece st) 0 k' (Some m) = true) pre ->
    collides (board st) (piece st) 0 k (Some m) = false ->
    try_kicks st m ic ks
    = setPiece st (with_rotation (piece st) m ic (col (piece st) + k)).
Proof.
  intros ks pre. revert ks. induction pre as [|k' pre IH];
    intros ks k post -> Hpre Hk; simpl.
  - rewrite Hk. reflexivity.
  - apply Forall_cons in Hpre. destruct Hpre as [Hk' Hpre].
    rewrite Hk'. simpl. apply (IH _ k post); auto.
Qed.

Lemma try_kicks_none st m ic ks :
  Forall (fun k => collides (board st) (piece st) 0 k (Some m) = true) ks ->
  try_kicks st m ic ks = st.
Proof.
  induction 1 as [|k ks Hk _ IH]; simpl; [reflexivity|].
  rewrite Hk. simpl. exact IH.
Qed.

Lemma setPiece_fields st q :
  setPiece st q
  = {| board := board st; piece := q; score := score st; high := high st;
       gameOver := gameOver st; awardedRef := awardedRef st;
       PIECE_SEQ := PIECE_SEQ st; mountEnv := mountEnv st;
       holdTimer := holdTimer st |}.
Proof. reflexivity. Qed.

Lemma with_rotation_fields p m ic c :
  with_rotation p m ic c
  = {| id := id p; key := key p; color := color p; matrix := m; icons := ic;
       row := row p; col := c |}.
Proof. reflexivity. Qed.

(** C2. In every reachable state the rotate action leaves the state as it
    is when the active piece is the square (key [O]).  For any other piece
    the candidates are the clockwise rotation of the bitmask and of the
    icon matrix, as [rotated] defines it, and the column offsets 0, +1, -1,
    +2, -2 are tried in that order: at the first offset at which the
    rotated bitmask does not collide, the piece takes the rotated bitmask,
    the rotated icons and the shifted column together and keeps its
    identifier, key, colour and row, and nothing else in the state
    changes; when all five offsets collide the state is left as it is. *)
Theorem rotateAction_wall_kick (st : State) :
  reachable st ->
  let b := board st in
  let p := piece st in
  let rm := rotated 0 (matrix p) in
  let ri := rotated None (icons p) in
  (key p = "O"%string -> rotateAction st = Some st)
  /\ (key p <> "O"%string ->
      (forall pre k post,
         [0; 1; -1; 2; -2] = pre ++ k :: post ->
         Forall (fun k' => collides b p 0 k' (Some rm) = true) pre ->
         collides b p 0 k (Some rm) = false ->
         rotateAction st
         = Some {| board := board st;
                   piece := {| id := id p; key := key p; color := color p;
                               matrix := rm; icons := ri;
                               row := row p; col := col p + k |};
                   score := score st; high := high st;
                   gameOver := gameOver st; awardedRef := awardedRef st;
                   PIECE_SEQ := PIECE_SEQ st; mountEnv := mountEnv st;
                   holdTimer := holdTimer st |})
      /\ (Forall (fun k => collides b p 0 k (Some rm) = true)
                 [0; 1; -1; 2; -2] ->
          rotateAction st = Some st)).
Proof.
  intros Hr b p rm ri. split.
  - intros Hk. unfold rotateAction. fold p. rewrite Hk. reflexivity.
  - intros Hk.
    destruct (inv_piece st (reachable_Inv st Hr)) as (n & Hn & Hm & Hic & _).
    assert (Em : rotateMatrixCW (matrix p) = Some rm)
      by (apply (rotateCW_rect 0 n n); assumption).
    assert (Eic : rotateIconsCW (icons p) = Some ri)
      by (apply (rotateCW_rect None n n); assumption).
    assert (Hrot : rotateAction st = Some (try_kicks st rm ri kicks)).
    { unfold rotateAction. fold p. apply String.eqb_neq in Hk.
      rewrite Hk, Em, Eic. reflexivity. }
    split.
    + intros pre k post Hsplit Hpre Hfree. rewrite Hrot. f_equal.
      rewrite (try_kicks_first st rm ri kicks pre k post Hsplit Hpre Hfree).
      rewrite setPiece_fields, with_rotation_fields. reflexivity.
    + intros Hall. rewrite Hrot. f_equal. apply try_kicks_none. exact Hall.
Qed.

Lemma rotateAction_wall_kick_witness :
  rotateAction st_mount_I
  = Some {| board := emptyBoard;
            piece := {| id := 1; key := "I"; color := color (piece st_mount_I);
                        matrix := [[0; 0; 1; 0]; [0; 0; 1; 0];
                                   [0; 0; 1; 0]; [0; 0; 1; 0]];
                        icons := [[None; None; Some "☀"%string; None];
                                  [None; None; Some "☀"%string; None];
                                  [None; None; Some "☀"%string; None];
                                  [None; None; Some "☀"%string; None]];
                        row := 0; col := 3 |};
            score := 0; high := 0; gameOver := false; awardedRef := 1;
            PIECE_SEQ := PIECE_SEQ st_mount_I; mountEnv := mountEnv st_mount_I;
            holdTimer := None |}.
Proof.
  destruct (rotateAction_wall_kick st_mount_I reachable_mount_I) as [_ H].
  destruct (H ltac:(discriminate)) as (Hkick & _).
  apply (Hkick [] 0 [1; -1; 2; -2]).
  - reflexivity.
  - constructor.
  - reflexivity.
Defined.

Lemma clearLines_spec_witness :
  clearLines board_bottom_full = (emptyBoard, 1)
  /\ length (fst (clearLines board_bottom_full)) = Z.to_nat ROWS.
Proof.
  destruct (clearLines_spec board_bottom_full) as (Heq & Hlen & _).
  - reflexivity.
  - repeat constructor.
  - split; [|exact Hlen]. rewrite Heq. reflexivity.
Defined.

Lemma rotation_order_four_witness :
  rotateMatrixCW [[1; 0; 0]; [1; 1; 1]] = Some [[1; 1]; [1; 0]; [1; 0]]
  /\ rotate4 rotateMatrixCW [[1; 0; 0]; [1; 1; 1]] = Some [[1; 0; 0]; [1; 1; 1]].
Proof.
  destruct (rotation_order_four 2 3 [[1; 0; 0]; [1; 1; 1]]
              [[Some "a"; None; None]; [Some "b"; Some "c"; Some "d"]]%string)
    as (m' & ic' & Hm & _ & _ & _ & _ & H4 & _).
  - lia.
  - lia.
  - split; [reflexivity|repeat constructor].
  - split; [reflexivity|repeat constructor].
  - split; [reflexivity|exact H4].
Defined.

(** ** Hard drop *)






(** C10. The descent loop of hard-drop ends for every reachable piece.
    The seven templates have four set cells each, a clockwise rotation of
    a rectangular bitmask keeps the number of set cells, and the bitmask
    of every reachable piece has a set cell; so the collision test is true
    at some offset [d + 1] with [0 <= d < ROWS], and with fuel for [ROWS]
    tests, or more, the loop returns that [d]. *)
Theorem hardDrop_loop_terminates (st : State) :
  reachable st ->
  Forall (fun ks => count_set (shape_matrix (snd ks)) = 4%nat) SHAPES
  /\ (forall (R C : nat) (m m' : Matrix),
        rect R C m -> (0 < R)%nat -> rotateMatrixCW m = Some m' ->
        count_set m' = count_set m)
  /\ (0 < count_set (matrix (piece st)))%nat
  /\ exists d,
       0 <= d < ROWS
       /\ collides (board st) (piece st) (d + 1) 0 None = true
       /\ (forall fuel, (Z.to_nat ROWS <= fuel)%nat ->
             drop_search fuel (board st) (piece st) 0 = Some d)
       /\ drop_search (drop_fuel (piece st)) (board st) (piece st) 0 = Some d.
Proof.
  intros Hr. pose proof (inv_piece st (reachable_Inv st Hr)) as Hp.
  split; [repeat constructor|].
  split.
  { intros R C m m' Hm HR Hrot. unfold rotateMatrixCW in Hrot.
    rewrite (rotateCW_rect 0 R C m Hm HR) in Hrot. injection Hrot as <-.
    apply (count_set_rotated m R C); assumption. }
  split.
  { destruct Hp as (n & _ & _ & _ & Hset & _).
    apply (has_set_cell_count n). exact Hset. }
  destruct (drop_search_ok (board st) (piece st) (Z.to_nat ROWS) Hp ltac:(lia))
    as (d & Hd & Hrange).
  pose proof (drop_search_spec _ _ _ _ _ Hd) as (_ & Hhit & _).
  exists d. split; [exact Hrange|]. split; [exact Hhit|]. split.
  - intros fuel Hfuel. eapply drop_search_more; eauto.
  - eapply drop_search_enough; eauto.
Qed.

Lemma hardDrop_loop_terminates_witness :
  drop_search 20 (board st_cave) (piece st_cave) 0 = Some 13.
Proof.
  destruct (hardDrop_loop_terminates st_cave reachable_cave)
    as (_ & _ & _ & d & _ & _ & Hfuel & _).
  rewrite (Hfuel 20%nat ltac:(reflexivity)).
  specialize (Hfuel 20%nat ltac:(reflexivity)).
  vm_compute in Hfuel. exact (eq_sym Hfuel).
Defined.

(** ** The lightning bonus *)

Lemma awardEffect_piece st : piece (awardEffect st) = piece st.
Proof.
  unfold awardEffect, scoreUpdater, updateHighScore.
  repeat break_if; reflexivity.
Qed.

Lemma awardEffect_idempotent st : awardEffect (awardEffect st) = awardEffect st.
Proof.
  assert (H : id (piece (awardEffect st)) = awardedRef (awardEffect st)).
  { unfold awardEffect, scoreUpdater, updateHighScore.
    destruct (id (piece st) =? awardedRef st) eqn:E.
    - apply Z.eqb_eq in E. exact E.
    - repeat break_if; reflexivity. }
  unfold awardEffect at 1. apply Z.eqb_eq in H. rewrite H. reflexivity.
Qed.

Lemma commit_piece prev st : piece (commit prev st) = piece st.
Proof. unfold commit. destruct (_ =? _); [reflexivity|apply awardEffect_piece]. Qed.

Lemma commit_score_code prev st :
  score (commit prev st)
  = score st
    + (if negb (id (piece st) =? id (piece prev))
          && negb (id (piece st) =? awardedRef st)
          && hasLightningInIcons (icons (piece st))
       then 5 else 0).
Proof.
  unfold commit, awardEffect, scoreUpdater, updateHighScore.
  destruct (id (piece st) =? id (piece prev)); simpl; [lia|].
  destruct (id (piece st) =? awardedRef st); simpl; [lia|].
  destruct (hasLightningInIcons (icons (piece st))); repeat break_if; simpl; lia.
Qed.

Lemma commit_score_le prev st : score st <= score (commit prev st).
Proof. rewrite commit_score_code. break_if; lia. Qed.

Lemma hasLightningInIcons_true (ic : Icons) :
  hasLightningInIcons ic = true
  <-> exists r c, (r < length ic)%nat /\ (c < width ic)%nat
                  /\ get2 ic r c = Some (Some LIGHTNING).
Proof.
  unfold hasLightningInIcons. rewrite for_some_true. split.
  - intros (r & Hr & H). apply for_some_true in H. destruct H as (c & Hc & H).
    exists r, c. split; [exact Hr|]. split; [exact Hc|].
    destruct (get2 ic r c) as [[s|]|]; try discriminate.
    apply String.eqb_eq in H. subst s. reflexivity.
  - intros (r & c & Hr & Hc & H). exists r. split; [exact Hr|].
    apply for_some_true. exists c. split; [exact Hc|].
    rewrite H. apply String.eqb_refl.
Qed.

(** On a rectangular overlay the two loops of [hasLightningInIcons] find
    the lightning icon exactly when the overlay contains it. *)
Lemma hasLightningInIcons_holds (R C : nat) (ic : Icons) :
  rect R C ic -> hasLightningInIcons ic = holds_lightning ic.
Proof.
  intros Hic. destruct (holds_lightning ic) eqn:E.
  - unfold holds_lightning in E. apply existsb_exists in E.
    destruct E as (line & Hline & E). apply existsb_exists in E.
    destruct E as (i & Hi & E).
    apply list_elem_of_In, list_elem_of_lookup_1 in Hline.
    destruct Hline as [r Hr].
    apply list_elem_of_In, list_elem_of_lookup_1 in Hi.
    destruct Hi as [c Hc].
    destruct i as [s|]; [|discriminate]. cbn in E. apply String.eqb_eq in E.
    subst s. apply hasLightningInIcons_true. exists r, c.
    pose proof (lookup_lt_Some _ _ _ Hr) as Hrlt.
    pose proof (lookup_lt_Some _ _ _ Hc) as Hclt.
    assert (HR : (0 < R)%nat) by (destruct Hic as [<- _]; lia).
    rewrite (rect_width R C ic Hic HR).
    destruct Hic as [_ Hall]. rewrite Forall_forall in Hall.
    assert (Hlen : length line = C).
    { apply Hall. eapply list_elem_of_lookup_2; eauto. }
    split; [exact Hrlt|]. split; [lia|].
    unfold get2. rewrite Hr. exact Hc.
  - destruct (hasLightningInIcons ic) eqn:E'; [|reflexivity].
    apply hasLightningInIcons_true in E'.
    destruct E' as (r & c & _ & _ & H). unfold get2 in H.
    destruct (ic !! r) as [line|] eqn:Hr; [|discriminate].
    assert (holds_lightning ic = true); [|congruence].
    unfold holds_lightning. apply existsb_exists. exists line. split.
    + apply list_elem_of_In. eapply list_elem_of_lookup_2; eauto.
    + apply existsb_exists. exists (Some LIGHTNING). split.
      * apply list_elem_of_In. eapply list_elem_of_lookup_2; eauto.
      * reflexivity.
Qed.

Lemma commit_score prev st :
  piece_ok (piece st) ->
  score (commit prev st) = score st + (if awards_bonus prev st then 5 else 0).
Proof.
  intros (n & _ & _ & Hic & _). rewrite commit_score_code. unfold awards_bonus.
  rewrite (hasLightningInIcons_holds n n _ Hic). reflexivity.
Qed.

Lemma commit_seq prev st : PIECE_SEQ (commit prev st) = PIECE_SEQ st.
Proof.
  unfold commit, awardEffect, scoreUpdater, updateHighScore.
  repeat break_if; reflexivity.
Qed.

(** A handler keeps the identifier of the active piece or installs a piece
    with the next identifier, which the award effect has not seen. *)
Lemma handled_ids rnd st st1 :
  Inv st -> handled rnd st st1 ->
  (id (piece st1) = id (piece st)
   \/ (id (piece st1) = PIECE_SEQ st + 1 /\ awardedRef st1 <> id (piece st1)))
  /\ PIECE_SEQ st <= PIECE_SEQ st1
  /\ (gameOver st = false -> gameOver st1 = true -> piece st1 = piece st).
Proof.
  intros HI Hh. pose proof (inv_id st HI) as Hid.
  pose proof (inv_award st HI) as Ha.
  destruct Hh as [|p' Hmv|e cp st1 He Hl Hlock|st1 Hreset|t Ht].
  - split; [left; reflexivity|]. split; [lia|]. intros H1 H2. congruence.
  - destruct (moved_ok _ _ _ (inv_piece st HI) Hmv) as (_ & Hid' & _).
    split; [left; exact Hid'|]. split; [simpl; lia|].
    simpl. intros H1 H2. congruence.
  - destruct (lockAndSpawn_inv _ _ _ _ _ _ Hlock)
      as (next & Hnext & _ & _ & Eseq & Ea & _ & _ & Hcase & _).
    destruct (randomPiece_centred _ _ _ Hnext) as (_ & Hnid & _).
    split; [|split; [lia|]].
    + destruct Hcase as [(_ & _ & ->)|(_ & _ & ->)]; [left; reflexivity|].
      right. split; [exact Hnid|]. rewrite Ea, Ha. lia.
    + destruct Hcase as [(_ & _ & Hp)|(_ & Hg & _)]; [intros; exact Hp|].
      intros H1 H2. congruence.
  - destruct (resetGame_inv _ _ _ Hreset) as (first & Hfirst & Hst1). subst st1.
    destruct (randomPiece_centred _ _ _ Hfirst) as (_ & Hnid & _).
    simpl. split; [right; split; [exact Hnid|lia]|]. split; [lia|].
    intros _ H2. discriminate.
  - simpl. split; [left; reflexivity|]. split; [lia|]. intros H1 H2. congruence.
Qed.

(** The identifiers credited along a run are fresh and increase. *)
Lemma credited_fresh evs :
  forall st, Inv st ->
    Forall (fun x => PIECE_SEQ st < x) (credited st evs) /\ NoDup (credited st evs).
Proof.
  induction evs as [|[ev o] evs IH]; intros st HI; simpl.
  - split; constructor.
  - destruct (handler ev (rng o) st) as [st1|] eqn:Eh; [|split; constructor].
    destruct (step st ev o) as [st'|] eqn:Es; [|split; constructor].
    pose proof (Inv_step _ _ _ _ HI Es) as HI'.
    destruct (IH st' HI') as [Hfresh Hnodup].
    destruct (handled_ids _ _ _ HI (handler_handled _ _ _ _ Eh))
      as (Hid & Hseq & _).
    unfold step in Es. rewrite Eh in Es. injection Es as Est'.
    assert (Hp' : piece st' = piece st1).
    { rewrite <- Est'. simpl. apply commit_piece. }
    assert (Hseq' : PIECE_SEQ st <= PIECE_SEQ st').
    { rewrite <- Est'. simpl. rewrite commit_seq. lia. }
    pose proof (inv_id st' HI') as Hid'. rewrite Hp' in Hid'.
    assert (Htail : Forall (fun x => PIECE_SEQ st < x) (credited st' evs)).
    { eapply Forall_impl; [exact Hfresh|]. simpl. intros x Hx. lia. }
    destruct (awards_bonus st st1) eqn:Eb; simpl; [|split; assumption].
    unfold awards_bonus in Eb. apply andb_true_iff in Eb. destruct Eb as [Eb _].
    apply andb_true_iff in Eb. destruct Eb as [Eb _].
    apply negb_true_iff, Z.eqb_neq in Eb.
    destruct Hid as [Hsame|[Hnew _]]; [contradiction|].
    split.
    + constructor; [lia|exact Htail].
    + constructor; [|exact Hnodup].
      intros Hin. rewrite Forall_forall in Hfresh.
      specialize (Hfresh _ Hin). lia.
Qed.

Lemma try_kicks_id st m ic ks :
  id (piece (try_kicks st m ic ks)) = id (piece st).
Proof.
  induction ks as [|k ks IH]; simpl; [reflexivity|].
  destruct (negb _); [reflexivity|exact IH].
Qed.

Lemma rotateAction_id st st1 :
  rotateAction st = Some st1 -> id (piece st1) = id (piece st).
Proof.
  unfold rotateAction. intros H.
  destruct (String.eqb _ _); [injection H as <-; reflexivity|].
  destruct (rotateMatrixCW _) as [m|]; [|discriminate].
  destruct (rotateIconsCW _) as [ic|]; [|discriminate].
  injection H as <-. exact (try_kicks_id st m ic kicks).
Qed.

(** C8. When a piece becomes the active piece (at mount, on lock, on
    restart) and its icon matrix holds the lightning icon, exactly 5
    points are added, and otherwise none.  The award is keyed on the piece
    identifier: running the effect again changes nothing, a rotation keeps
    the identifier, the identifiers credited along any run are pairwise
    distinct, and the effect leaves the last credited identifier in
    [awardedRef].  A piece whose spawn collides is not installed and gets
    no award. *)
Theorem lightning_bonus_once (st : State) :
  reachable st ->
  awardedRef st = id (piece st)
  /\ (forall st2, rotateAction st = Some st2 -> id (piece st2) = id (piece st))
  /\ (forall evs, NoDup (credited st evs))
  /\ (forall ev o st1 st',
        handler ev (rng o) st = Some st1 -> step st ev o = Some st' ->
        score st' = score st1 + (if awards_bonus st st1 then 5 else 0)
        /\ awards_bonus st st1
           = negb (id (piece st1) =? id (piece st))
             && holds_lightning (icons (piece st1))
        /\ piece st' = piece st1
        /\ awardEffect (awardEffect st1) = awardEffect st1
        /\ (id (piece st1) <> id (piece st) -> PIECE_SEQ st < id (piece st1))
        /\ (gameOver st = false -> gameOver st1 = true ->
            piece st1 = piece st /\ awards_bonus st st1 = false))
  /\ (forall w item o st0,
        mount w item o = Some st0 ->
        score st0 = (if holds_lightning (icons (piece st0)) then 5 else 0)
        /\ awardedRef st0 = id (piece st0)).
Proof.
  intros Hr. pose proof (reachable_Inv st Hr) as HI.
  split; [apply (inv_award st HI)|].
  split; [apply rotateAction_id|].
  split; [intros evs; apply (credited_fresh evs st HI)|].
  split.
  - intros ev o st1 st' Eh Es.
    destruct (handled_ids _ _ _ HI (handler_handled _ _ _ _ Eh))
      as (Hid & Hseq & Hover).
    pose proof (Inv_step _ _ _ _ HI Es) as HI'.
    unfold step in Es. rewrite Eh in Es. injection Es as Est'.
    assert (Hp1 : piece_ok (piece st1)).
    { pose proof (inv_piece st' HI') as H. rewrite <- Est' in H.
      cbn [piece setSeq] in H. rewrite commit_piece in H. exact H. }
    split; [rewrite <- Est'; simpl; apply commit_score; exact Hp1|].
    split.
    { unfold awards_bonus.
      destruct (id (piece st1) =? id (piece st)) eqn:E; [reflexivity|].
      apply Z.eqb_neq in E. destruct Hid as [Hsame|[_ Hnew]]; [contradiction|].
      assert (E2 : (id (piece st1) =? awardedRef st1) = false)
        by (apply Z.eqb_neq; congruence).
      rewrite E2. reflexivity. }
    split; [rewrite <- Est'; simpl; apply commit_piece|].
    split; [apply awardEffect_idempotent|].
    split.
    { intros Hne. destruct Hid as [Hsame|[Hnew _]]; [contradiction|lia]. }
    intros Hg Hg1. specialize (Hover Hg Hg1). split; [exact Hover|].
    unfold awards_bonus. rewrite Hover, Z.eqb_refl. reflexivity.
  - intros w item o st0 Hm. pose proof (Inv_mount _ _ _ _ Hm) as HI0.
    split; [|apply (inv_award st0 HI0)].
    unfold mount in Hm.
    destruct (randomPiece (rng o) 0) as [first|] eqn:Ef; [|discriminate].
    injection Hm as <-.
    destruct (randomPiece_centred _ _ _ Ef) as (_ & Hid & _).
    match goal with
    | |- context [awardEffect ?s] =>
        destruct (awardEffect_inv s ltac:(simpl; lia))
          as (_ & Ep & _ & _ & _ & _ & _ & Esc & _)
    end.
    destruct (randomPiece_ok _ _ _ Ef) as (n & _ & _ & Hic & _).
    simpl in *. rewrite Esc, Ep.
    rewrite (hasLightningInIcons_holds n n _ Hic). reflexivity.
Qed.

Lemma lightning_bonus_once_witness :
  NoDup (credited st_cave [key_event Space draw_O_lightning;
                           key_event ArrowLeft draw_O;
                           key_event Space draw_O_lightning])
  /\ holds_lightning
       (icons (piece (state_of (step st_cave (KeyDown Space)
                                     (oracle draw_O_lightning))))) = true
  /\ score (state_of (step st_cave (KeyDown Space) (oracle draw_O_lightning)))
     = score (state_of (handler (KeyDown Space) draw_O_lightning st_cave)) + 5.
Proof.
  destruct (lightning_bonus_once st_cave reachable_cave) as (_ & _ & H & Hs & _).
  split; [apply H|]. split; [vm_compute; reflexivity|].
  destruct (Hs (KeyDown Space) (oracle draw_O_lightning)
              (state_of (handler (KeyDown Space) draw_O_lightning st_cave))
              (state_of (step st_cave (KeyDown Space) (oracle draw_O_lightning))))
    as (Hsc & _).
  - vm_compute. reflexivity.
  - vm_compute. reflexivity.
  - rewrite Hsc. reflexivity.
Defined.

(** ** Status, line points and the best score *)

Lemma mount_lightning :
  mount true None (oracle draw_O_lightning) = Some st_mount_lightning.
Proof. reflexivity. Qed.

Lemma run_before_gravity_clear :
  run st_mount_lightning gravity_clear_prefix = Some st_before_gravity_clear.
Proof. vm_compute. reflexivity. Qed.

Lemma run_before_hold_clear :
  run st_before_gravity_clear hold_clear_prefix = Some st_before_hold_clear.
Proof. vm_compute. reflexivity. Qed.

Lemma run_before_top_out :
  run st_before_hold_clear top_out_prefix = Some st_before_top_out.
Proof. vm_compute. reflexivity. Qed.

Lemma reachable_before_gravity_clear : reachable st_before_gravity_clear.
Proof.
  apply (run_reachable _ _ _ (reachable_mount _ _ _ _ mount_lightning)
           run_before_gravity_clear).
Qed.

Lemma reachable_before_hold_clear : reachable st_before_hold_clear.
Proof.
  apply (run_reachable _ _ _ reachable_before_gravity_clear run_before_hold_clear).
Qed.

Lemma reachable_before_top_out : reachable st_before_top_out.
Proof.
  apply (run_reachable _ _ _ reachable_before_hold_clear run_before_top_out).
Qed.

(** The status changes only as the specification says: it turns to over
    only inside [lockAndSpawn], when the fresh piece collides with the
    board left by the line clear, which is kept while the active piece is
    not replaced; it turns back to running only by the restart key. *)
Lemma commit_gameOver prev st : gameOver (commit prev st) = gameOver st.
Proof.
  unfold commit, awardEffect, scoreUpdater, updateHighScore.
  repeat break_if; reflexivity.
Qed.

Lemma commit_board prev st : board (commit prev st) = board st.
Proof.
  unfold commit, awardEffect, scoreUpdater, updateHighScore.
  repeat break_if; reflexivity.
Qed.

Lemma lockAndSpawn_stays_over e rnd b cp st st1 :
  lockAndSpawn e rnd b cp st = Some st1 -> gameOver st = true ->
  gameOver st1 = true.
Proof.
  intros Hl Hg. destruct (lockAndSpawn_inv _ _ _ _ _ _ Hl)
    as (next & _ & _ & _ & _ & _ & _ & _ & Hcase & _).
  destruct Hcase as [(_ & H & _)|(_ & H & _)]; [exact H|].
  rewrite H. exact Hg.
Qed.

(** Apart from [resetGame], no handler leaves the over status. *)
Lemma handled_stays_over rnd st st1 :
  handled rnd st st1 -> gameOver st = true ->
  gameOver st1 = true \/ resetGame rnd st = Some st1.
Proof.
  intros Hh Hg.
  destruct Hh as [|p' Hmv|e cp st1 He Hl Hlock|st1 Hreset|t Ht].
  - left. exact Hg.
  - left. exact Hg.
  - left. eapply lockAndSpawn_stays_over; eauto.
  - right. exact Hreset.
  - left. exact Hg.
Qed.

Lemma resetGame_fresh rnd st st1 :
  resetGame rnd st = Some st1 -> id (piece st1) = PIECE_SEQ st + 1.
Proof.
  intros H. destruct (resetGame_inv _ _ _ H) as (first & Hf & Hst1).
  destruct (randomPiece_centred _ _ _ Hf) as (_ & Hid & _).
  rewrite Hst1. simpl. exact Hid.
Qed.

Lemma status_transitions st ev o st' :
  reachable st -> step st ev o = Some st' ->
  (gameOver st = false -> gameOver st' = true ->
   exists e cp next,
     closure_of st e /\ lands (piece st) cp
     /\ randomPiece (rng o) (PIECE_SEQ st) = Some next
     /\ collides (fst (clearLines (merge (board st) cp))) next 0 0 None = true
     /\ board st' = fst (clearLines (merge (board st) cp))
     /\ piece st' = piece st)
  /\ (gameOver st = true -> gameOver st' = false -> ev = KeyDown KeyR).
Proof.
  intros Hr Hs. pose proof (reachable_Inv st Hr) as HI.
  unfold step in Hs.
  destruct (handler ev (rng o) st) as [st1|] eqn:Eh; [|discriminate].
  injection Hs as <-. cbn [gameOver board piece setSeq].
  rewrite commit_gameOver, commit_board, commit_piece.
  pose proof (handler_handled _ _ _ _ Eh) as Hh.
  split.
  - intros Hg Hg1.
    destruct Hh as [|p' Hmv|e cp st1 He Hl Hlock|st1 Hreset|t Ht].
    + rewrite Hg in Hg1. discriminate.
    + cbn in Hg1. rewrite Hg in Hg1. discriminate.
    + destruct (lockAndSpawn_inv _ _ _ _ _ _ Hlock)
        as (next & Hnext & Eb & _ & _ & _ & _ & _ & Hcase & _).
      destruct Hcase as [(Hcol & _ & Hp)|(_ & Hsame & _)].
      * exists e, cp, next. auto 10.
      * rewrite Hsame, Hg in Hg1. discriminate.
    + destruct (resetGame_inv _ _ _ Hreset) as (first & _ & Hst1).
      rewrite Hst1 in Hg1. discriminate.
    + cbn in Hg1. rewrite Hg in Hg1. discriminate.
  - intros Hg Hg1.
    destruct (handled_stays_over _ _ _ Hh Hg) as [Hover|Hreset];
      [rewrite Hover in Hg1; discriminate|].
    pose proof (resetGame_fresh _ _ _ Hreset) as Hfresh.
    pose proof (inv_id st HI) as Hid.
    assert (Hne : id (piece st1) <> id (piece st)) by lia.
    destruct ev as [k|g|b| | | |]; simpl in Eh.
    + destruct k; try reflexivity; exfalso; simpl in Eh; rewrite Hg in Eh;
        injection Eh as <-; apply Hne; reflexivity.
    + exfalso. unfold onTouchEnd in Eh. rewrite Hg in Eh. injection Eh as <-.
      apply Hne. reflexivity.
    + exfalso. destruct b; simpl in Eh.
      * unfold moveLeft in Eh. destruct (canMove st 0 (-1));
          injection Eh as <-; apply Hne; reflexivity.
      * apply Hne. eapply rotateAction_id; eauto.
      * unfold moveRight in Eh. destruct (canMove st 0 1);
          injection Eh as <-; apply Hne; reflexivity.
      * unfold hardDrop in Eh.
        destruct (drop_search _ _ _ 0) as [d|]; [|discriminate].
        rewrite (lockAndSpawn_stays_over _ _ _ _ _ _ Eh Hg) in Hg1.
        discriminate.
    + exfalso. injection Eh as <-. apply Hne. unfold startHoldDown.
      destruct (holdTimer st); reflexivity.
    + exfalso. injection Eh as <-. apply Hne. reflexivity.
    + exfalso. unfold holdTick in Eh. rewrite Hg in Eh.
      destruct (holdTimer st); injection Eh as <-; apply Hne; reflexivity.
    + exfalso. unfold frame in Eh. rewrite Hg in Eh. injection Eh as <-.
      apply Hne. reflexivity.
Qed.

(** Every lock adds one point per cleared row, through any closure. *)
Lemma lockAndSpawn_line_points e rnd b cp st st1 :
  lockAndSpawn e rnd b cp st = Some st1 ->
  score st1 = score st + snd (clearLines (merge b cp)).
Proof.
  intros H. destruct (lockAndSpawn_inv _ _ _ _ _ _ H)
    as (next & _ & _ & Hs & _). exact Hs.
Qed.

(** With the closure of the current render, a lock that clears rows
    raises a best score that the new score exceeds. *)
Lemma lockAndSpawn_current_best rnd b cp st st1 :
  lockAndSpawn (currentEnv st) rnd b cp st = Some st1 ->
  snd (clearLines (merge b cp)) <> 0 ->
  Qlt_bool (high st) (inject_Z (score st + snd (clearLines (merge b cp)))) = true ->
  high st1 = inject_Z (score st + snd (clearLines (merge b cp))).
Proof.
  unfold lockAndSpawn. intros H Hn Hlt.
  destruct (clearLines (merge b cp)) as [cb n].
  destruct (randomPiece rnd (PIECE_SEQ st)) as [next|]; [|discriminate].
  injection H as <-. cbn [snd] in *.
  apply Z.eqb_neq in Hn. rewrite Hn.
  unfold scoreUpdater, updateHighScore. cbn [currentEnv env_high env_score].
  destruct (collides cb _ 0 0 None);
    repeat break_if; cbn in *; try reflexivity; congruence.
Qed.

(** With the closure of the current render, the game-over branch of a
    lock that clears no row leaves the best score at the maximum of the
    best score and the current score. *)
Lemma lockAndSpawn_current_game_over rnd b cp st st1 :
  lockAndSpawn (currentEnv st) rnd b cp st = Some st1 ->
  gameOver st = false -> gameOver st1 = true ->
  snd (clearLines (merge b cp)) = 0 ->
  high st1 = (if Qlt_bool (high st) (inject_Z (score st))
              then inject_Z (score st) else high st).
Proof.
  unfold lockAndSpawn. intros H Hg Hg1 Hn.
  destruct (clearLines (merge b cp)) as [cb n].
  destruct (randomPiece rnd (PIECE_SEQ st)) as [next|]; [|discriminate].
  injection H as <-. cbn [snd] in *. subst n. cbn [Z.eqb] in *.
  unfold updateHighScore in *. cbn [currentEnv env_high env_score] in *.
  destruct (collides cb _ 0 0 None).
  - destruct (Qlt_bool (high st) (inject_Z (score st))); reflexivity.
  - cbn in Hg1. rewrite Hg in Hg1. discriminate.
Qed.

(** C7: where the code falls short of the claim.  The pieces of the run
    below are locked through three closures.  The bottom row is completed
    a second time by a lock of the hold timer, whose closure has kept the
    best score 5 of the render in which the button was pressed; the best
    score has since dropped to 1.  The lock clears one row and the score
    goes from 1 to 2, as claimed, but the best score, which the new score
    exceeds, stays at 1. *)
Theorem hold_lock_keeps_exceeded_best :
  reachable st_before_hold_clear
  /\ gameOver st_before_hold_clear = false
  /\ score st_before_hold_clear = 1
  /\ high st_before_hold_clear = 1%Q
  /\ holdTimer st_before_hold_clear = Some {| env_score := 0; env_high := 5 |}
  /\ snd (clearLines (merge (board st_before_hold_clear)
                            (piece st_before_hold_clear))) = 1
  /\ exists st',
       step st_before_hold_clear HoldTick (oracle draw_O) = Some st'
       /\ score st' = 2
       /\ high st' = 1%Q.
Proof.
  split; [exact reachable_before_hold_clear|].
  do 5 (split; [vm_compute; reflexivity|]).
  eexists. split; [vm_compute; reflexivity|].
  split; reflexivity.
Qed.

(** The same defect through the animation loop, whose closure keeps the
    best score of the first render: in the second game the first gravity
    lock that clears a row lowers the best score from 5 to 1. *)
Lemma gravity_lock_lowers_best :
  reachable st_before_gravity_clear
  /\ score st_before_gravity_clear = 0
  /\ high st_before_gravity_clear = 5%Q
  /\ exists st',
       step st_before_gravity_clear Frame (oracle draw_I) = Some st'
       /\ score st' = 1
       /\ high st' = 1%Q.
Proof.
  split; [exact reachable_before_gravity_clear|].
  do 2 (split; [vm_compute; reflexivity|]).
  eexists. split; [vm_compute; reflexivity|].
  split; reflexivity.
Qed.

(** C6: where the code falls short of the claim.  The status changes as
    claimed (lemma [status_transitions]), but the game-over branch updates
    the best score from the score its closure holds.  Here the game ends
    by a gravity lock: the animation loop holds the score 0 of the first
    render, the current score is 2 and the best score is 1, and the best
    score stays at 1. *)
Theorem game_over_by_gravity_ignores_score :
  reachable st_before_top_out
  /\ gameOver st_before_top_out = false
  /\ score st_before_top_out = 2
  /\ high st_before_top_out = 1%Q
  /\ mountEnv st_before_top_out = {| env_score := 0; env_high := 0 |}
  /\ exists st',
       step st_before_top_out Frame (oracle draw_O) = Some st'
       /\ gameOver st' = true
       /\ piece st' = piece st_before_top_out
       /\ score st' = 2
       /\ high st' = 1%Q.
Proof.
  split; [exact reachable_before_top_out|].
  do 4 (split; [vm_compute; reflexivity|]).
  eexists. split; [vm_compute; reflexivity|].
  repeat split; reflexivity.
Qed.

(** With a negative number in storage the same branch lowers the best
    score: the closure of the animation loop compares its score 0 with
    the loaded -5 and writes 0 over the best score 5. *)
Lemma game_over_by_gravity_lowers_best :
  reachable st_negative_best
  /\ score st_negative_best = 5
  /\ high st_negative_best = 5%Q
  /\ exists st',
       step st_negative_best Frame (oracle draw_O) = Some st'
       /\ gameOver st' = true
       /\ score st' = 5
       /\ high st' = 0%Q.
Proof.
  split.
  { apply (run_reachable (replicate 9 (key_event Space draw_O))
             (state_of (mount true (Some "-5"%string) (oracle draw_O_lightning)))).
    - apply (reachable_mount true (Some "-5"%string) (oracle draw_O_lightning)).
      reflexivity.
    - vm_compute. reflexivity. }
  do 2 (split; [vm_compute; reflexivity|]).
  eexists. split; [vm_compute; reflexivity|].
  repeat split; reflexivity.
Qed.

(** ** White space around the text of a number *)

Lemma wide_space2_high a b : wide_space2 a b = true -> 128 <= a /\ 128 <= b.
Proof.
  unfold wide_space2. rewrite andb_true_iff, !Z.eqb_eq. lia.
Qed.

Lemma wide_space3_high a b c :
  wide_space3 a b c = true -> 128 <= a /\ 128 <= b /\ 128 <= c.
Proof.
  unfold wide_space3.
  rewrite !orb_true_iff, !andb_true_iff, !orb_true_iff, !andb_true_iff,
    !Z.eqb_eq, !Z.leb_le.
  lia.
Qed.

Lemma plain_low c : plain c = true -> is_space c = false /\ code c < 128.
Proof.
  unfold plain. rewrite andb_true_iff, negb_true_iff, Z.ltb_lt. tauto.
Qed.

Lemma drop_space_plain c l : plain c = true -> drop_space (c :: l) = None.
Proof.
  intros Hc. apply plain_low in Hc. destruct Hc as [Hs Hlow].
  unfold drop_space. rewrite Hs.
  destruct l as [|c2 l]; [reflexivity|].
  destruct (wide_space2 (code c) (code c2)) eqn:E2.
  { apply wide_space2_high in E2. lia. }
  destruct l as [|c3 l]; [reflexivity|].
  destruct (wide_space3 (code c) (code c2) (code c3)) eqn:E3; [|reflexivity].
  apply wide_space3_high in E3. lia.
Qed.

Lemma drop_space_rev_plain c l : plain c = true -> drop_space_rev (c :: l) = None.
Proof.
  intros Hc. apply plain_low in Hc. destruct Hc as [Hs Hlow].
  unfold drop_space_rev. rewrite Hs.
  destruct l as [|c2 l]; [reflexivity|].
  destruct (wide_space2 (code c2) (code c)) eqn:E2.
  { apply wide_space2_high in E2. lia. }
  destruct l as [|c3 l]; [reflexivity|].
  destruct (wide_space3 (code c3) (code c2) (code c)) eqn:E3; [|reflexivity].
  apply wide_space3_high in E3. lia.
Qed.

Lemma skip_with_stop drop n l : drop l = None -> skip_with drop n l = l.
Proof. intros H. destruct n; simpl; [reflexivity|]. rewrite H. reflexivity. Qed.

Lemma skip_spaces_plain c l : plain c = true -> skip_spaces (c :: l) = c :: l.
Proof. intros Hc. apply skip_with_stop, drop_space_plain, Hc. Qed.

Lemma skip_spaces_rev_plain c l :
  plain c = true -> skip_spaces_rev (c :: l) = c :: l.
Proof. intros Hc. apply skip_with_stop, drop_space_rev_plain, Hc. Qed.



Lemma trim_plain_ends c l c' l' :
  plain c = true -> plain c' = true -> rev (c :: l) = c' :: l' ->
  trim (c :: l) = c :: l.
Proof.
  intros Hc Hc' Hrev. unfold trim. rewrite (skip_spaces_plain c l Hc).
  rewrite Hrev, (skip_spaces_rev_plain c' l' Hc'), <- Hrev.
  apply rev_involutive.
Qed.

Lemma to_number_small (n : Z) :
  - OVERFLOW < n < OVERFLOW -> to_number (inject_Z n) = Finite (inject_Z n).
Proof.
  intros Hn. unfold to_number.
  destruct (Qle_bool (inject_Z OVERFLOW) (inject_Z n)) eqn:E1.
  { apply Qle_bool_iff in E1. rewrite <- Zle_Qle in E1. lia. }
  destruct (Qle_bool (inject_Z n) (inject_Z (- OVERFLOW))) eqn:E2; [|reflexivity].
  apply Qle_bool_iff in E2. rewrite <- Zle_Qle in E2. lia.
Qed.

(** * Further properties of the code *)

Lemma board_bottom_full_ok : board_ok board_bottom_full.
Proof. split; [reflexivity|repeat constructor]. Qed.

Lemma piece_mount_I_ok : piece_ok (piece st_mount_I).
Proof. exact (inv_piece _ (reachable_Inv _ reachable_mount_I)). Qed.
(** ** More on [merge] *)

Lemma get2_alter_insert {A} (R C : nat) (m : list (list A)) (br bc i j : nat) (x : A) :
  rect R C m -> (i < R)%nat -> (j < C)%nat ->
  get2 (alter (fun line => <[bc := x]> line) br m) i j
  = if bool_decide (br = i /\ bc = j) then Some x else get2 m i j.
Proof.
  intros [Hlen Hall] Hi Hj. unfold get2. rewrite list_lookup_alter.
  destruct (lookup_lt_is_Some_2 m i) as [line Hline]; [lia|].
  rewrite Forall_lookup in Hall. pose proof (Hall _ _ Hline) as Hl.
  destruct (decide (br = i)) as [->|Hne].
  - rewrite Hline. cbn. rewrite list_lookup_insert.
    destruct (decide (bc = j /\ (bc < length line)%nat)) as [[-> _]|Hn].
    + rewrite bool_decide_eq_true_2 by auto. reflexivity.
    + rewrite bool_decide_eq_false_2 by (intros [_ ->]; apply Hn; split; [reflexivity|lia]).
      reflexivity.
  - rewrite Hline. rewrite bool_decide_eq_false_2 by tauto. reflexivity.
Qed.

Lemma alter_insert_rect {A} (R C : nat) (m : list (list A)) (br bc : nat) (x : A) :
  rect R C m -> rect R C (alter (fun line => <[bc := x]> line) br m).
Proof.
  intros [Hlen Hall]. split.
  - rewrite length_alter. exact Hlen.
  - apply Forall_alter; [exact Hall|]. intros line _ Hl.
    rewrite length_insert. exact Hl.
Qed.

Section MergeLoops.
Context (b : Board) (p : Piece).

Let m := matrix p.

(** The body of the inner loop of [merge]. *)
Let cell_step (r : nat) (nb : Board) (c : nat) : Board :=
  match get2 m r c with
  | Some v =>
      if truthy v then
        let br := row p + Z.of_nat r in
        let bc := col p + Z.of_nat c in
        if (br >=? 0) && (br <? ROWS) && (bc >=? 0) && (bc <? COLS) then
          alter (fun line =>
                   <[Z.to_nat bc :=
                       Some {| cell_color := color p;
                               cell_icon := mjoin (get2 (icons p) r c) |}]>
                     line)
                (Z.to_nat br) nb
        else nb
      else nb
  | None => nb
  end.

(** The board while the loops run: the cells under the piece cells
    already visited are written, the others are as in [b]. *)
Let written (r0 c0 : Z) (nb : Board) : Prop :=
  board_ok nb
  /\ forall i j, (i < Z.to_nat ROWS)%nat -> (j < Z.to_nat COLS)%nat ->
       get2 nb i j
       = if covered p i j
            && before (Z.of_nat i - row p) (Z.of_nat j - col p) r0 c0
         then Some (Some (locked_cell p i j))
         else get2 b i j.

Lemma cell_step_written (r c : nat) (nb : Board) :
  (r < length m)%nat -> (c < width m)%nat ->
  written (Z.of_nat r) (Z.of_nat c) nb ->
  written (Z.of_nat r) (Z.of_nat (S c)) (cell_step r nb c).
Proof.
  intros Hr Hc [Hok Hcells].
  assert (Hkeep : (forall i j, Z.of_nat i - row p = Z.of_nat r ->
                               Z.of_nat j - col p = Z.of_nat c ->
                               (i < Z.to_nat ROWS)%nat -> (j < Z.to_nat COLS)%nat ->
                               covered p i j = false) ->
                  written (Z.of_nat r) (Z.of_nat (S c)) nb).
  { intros Hno. split; [exact Hok|]. intros i j Hi Hj.
    rewrite (Hcells i j Hi Hj).
    destruct (covered p i j) eqn:Ecov; [|reflexivity]. cbn [andb].
    unfold before.
    destruct (Z.eq_dec (Z.of_nat i - row p) (Z.of_nat r)) as [Er|Er];
      destruct (Z.eq_dec (Z.of_nat j - col p) (Z.of_nat c)) as [Ec|Ec].
    - rewrite (Hno i j Er Ec Hi Hj) in Ecov. discriminate.
    - replace (Z.of_nat j - col p <? Z.of_nat (S c))
        with (Z.of_nat j - col p <? Z.of_nat c); [reflexivity|].
      destruct (Z.ltb_spec (Z.of_nat j - col p) (Z.of_nat c));
        destruct (Z.ltb_spec (Z.of_nat j - col p) (Z.of_nat (S c))); lia.
    - apply Z.eqb_neq in Er. rewrite Er. reflexivity.
    - apply Z.eqb_neq in Er. rewrite Er. reflexivity. }
  unfold cell_step.
  destruct (get2 m r c) as [v|] eqn:Eget.
  2:{ apply Hkeep. intros i j Er Ec _ _. unfold covered. fold m.
      rewrite Er, Ec, !Nat2Z.id, Eget. rewrite andb_false_r. reflexivity. }
  destruct (truthy v) eqn:Ev.
  2:{ apply Hkeep. intros i j Er Ec _ _. unfold covered. fold m.
      rewrite Er, Ec, !Nat2Z.id, Eget, Ev. rewrite andb_false_r. reflexivity. }
  cbv zeta.
  destruct ((row p + Z.of_nat r >=? 0) && (row p + Z.of_nat r <? ROWS)
            && (col p + Z.of_nat c >=? 0) && (col p + Z.of_nat c <? COLS)) eqn:Ein.
  2:{ apply Hkeep. intros i j Er Ec Hi Hj. exfalso.
      assert (Hin : (row p + Z.of_nat r >=? 0) && (row p + Z.of_nat r <? ROWS)
                    && (col p + Z.of_nat c >=? 0) && (col p + Z.of_nat c <? COLS) = true).
      { rewrite !andb_true_iff, !Z.geb_le, !Z.ltb_lt. unfold ROWS, COLS in *. lia. }
      congruence. }
  rewrite !andb_true_iff, !Z.geb_le, !Z.ltb_lt in Ein.
  destruct Ein as [[[Hr0 Hr1] Hc0] Hc1].
  split; [apply alter_insert_rect; exact Hok|].
  intros i j Hi Hj.
  rewrite (get2_alter_insert _ _ nb _ _ i j _ Hok Hi Hj).
  destruct (bool_decide _) eqn:Eb.
  - apply bool_decide_eq_true_1 in Eb. destruct Eb as [Ei Ej].
    assert (Er : Z.of_nat i - row p = Z.of_nat r) by lia.
    assert (Ec : Z.of_nat j - col p = Z.of_nat c) by lia.
    assert (Ecov : covered p i j = true).
    { unfold covered. fold m. rewrite Er, Ec, !Nat2Z.id, Eget, Ev.
      rewrite !andb_true_iff, !Z.leb_le, !Z.ltb_lt. lia. }
    rewrite Ecov. unfold before. rewrite Er, Ec, Z.eqb_refl.
    replace (Z.of_nat c <? Z.of_nat (S c)) with true
      by (symmetry; apply Z.ltb_lt; lia).
    rewrite orb_true_r. cbn [andb]. unfold locked_cell.
    rewrite Er, Ec, !Nat2Z.id. reflexivity.
  - apply bool_decide_eq_false_1 in Eb.
    rewrite (Hcells i j Hi Hj).
    destruct (covered p i j); [|reflexivity]. cbn [andb]. unfold before.
    destruct (Z.eq_dec (Z.of_nat i - row p) (Z.of_nat r)) as [Er|Er].
    + assert (Ec : Z.of_nat j - col p <> Z.of_nat c) by (intros Ec; apply Eb; lia).
      replace (Z.of_nat j - col p <? Z.of_nat (S c))
        with (Z.of_nat j - col p <? Z.of_nat c); [reflexivity|].
      destruct (Z.ltb_spec (Z.of_nat j - col p) (Z.of_nat c));
        destruct (Z.ltb_spec (Z.of_nat j - col p) (Z.of_nat (S c))); lia.
    + apply Z.eqb_neq in Er. rewrite Er. reflexivity.
Qed.

Lemma inner_loop_written (r : nat) (nb : Board) :
  (r < length m)%nat ->
  written (Z.of_nat r) 0 nb ->
  forall k, (k <= width m)%nat ->
    written (Z.of_nat r) (Z.of_nat k) (for_loop k (cell_step r) nb).
Proof.
  intros Hr H0 k. induction k as [|k IH]; intros Hk.
  - exact H0.
  - unfold for_loop. rewrite seq_S, foldl_app. cbn [foldl plus].
    apply cell_step_written; [exact Hr|lia|]. apply IH. lia.
Qed.

Lemma written_next_row (r : nat) (nb : Board) :
  written (Z.of_nat r) (Z.of_nat (width m)) nb ->
  written (Z.of_nat (S r)) 0 nb.
Proof.
  intros [Hok Hcells]. split; [exact Hok|]. intros i j Hi Hj.
  rewrite (Hcells i j Hi Hj).
  destruct (covered p i j) eqn:Ecov; [|reflexivity]. cbn [andb].
  unfold covered in Ecov. fold m in Ecov.
  rewrite !andb_true_iff, !Z.leb_le, !Z.ltb_lt in Ecov.
  destruct Ecov as [[[[_ _] Hc0] Hc] _].
  unfold before.
  replace (Z.of_nat j - col p <? Z.of_nat (width m)) with true
    by (symmetry; apply Z.ltb_lt; lia).
  replace (Z.of_nat j - col p <? 0) with false
    by (symmetry; apply Z.ltb_ge; lia).
  rewrite andb_true_r, andb_false_r, orb_false_r.
  destruct (Z.ltb_spec (Z.of_nat i - row p) (Z.of_nat r));
    destruct (Z.eqb_spec (Z.of_nat i - row p) (Z.of_nat r));
    destruct (Z.ltb_spec (Z.of_nat i - row p) (Z.of_nat (S r)));
    try reflexivity; lia.
Qed.

Lemma outer_loop_written :
  board_ok b ->
  forall k, (k <= length m)%nat ->
    written (Z.of_nat k) 0
      (for_loop k (fun nb r => for_loop (width m) (cell_step r) nb) b).
Proof.
  intros Hb k. induction k as [|k IH]; intros Hk.
  - split; [exact Hb|]. intros i j Hi Hj.
    destruct (covered p i j) eqn:Ecov; [|reflexivity]. cbn [andb].
    unfold covered in Ecov.
    rewrite !andb_true_iff, !Z.leb_le, !Z.ltb_lt in Ecov.
    destruct Ecov as [[[[Hr0 _] Hc0] _] _].
    unfold before.
    replace (Z.of_nat i - row p <? Z.of_nat 0) with false
      by (symmetry; apply Z.ltb_ge; lia).
    replace (Z.of_nat j - col p <? 0) with false
      by (symmetry; apply Z.ltb_ge; lia).
    rewrite andb_false_r. reflexivity.
  - unfold for_loop at 1. rewrite seq_S, foldl_app. cbn [foldl plus].
    apply written_next_row. apply inner_loop_written; [lia| |lia].
    apply IH. lia.
Qed.

Lemma merge_written :
  board_ok b -> written (Z.of_nat (length m)) 0 (merge b p).
Proof.
  intros Hb. apply (outer_loop_written Hb (length m)). lia.
Qed.
End MergeLoops.

Lemma merge_cells (b : Board) (p : Piece) (i j : nat) :
  board_ok b -> (i < Z.to_nat ROWS)%nat -> (j < Z.to_nat COLS)%nat ->
  get2 (merge b p) i j
  = if covered p i j then Some (Some (locked_cell p i j)) else get2 b i j.
Proof.
  intros Hb Hi Hj. destruct (merge_written b p Hb) as [_ Hcells].
  rewrite (Hcells i j Hi Hj).
  destruct (covered p i j) eqn:Ecov; [|reflexivity]. cbn [andb].
  unfold covered in Ecov.
  rewrite !andb_true_iff, !Z.leb_le, !Z.ltb_lt in Ecov.
  destruct Ecov as [[[[_ Hr] _] _] _].
  unfold before.
  replace (Z.of_nat i - row p <? Z.of_nat (length (matrix p))) with true
    by (symmetry; apply Z.ltb_lt; lia).
  reflexivity.
Qed.

Lemma occupied_merge (b : Board) (p : Piece) (nr nc : Z) :
  board_ok b -> 0 <= nr < ROWS -> 0 <= nc < COLS ->
  occupied b nr nc = true -> occupied (merge b p) nr nc = true.
Proof.
  intros Hb Hr Hc. unfold occupied.
  rewrite (merge_cells b p) by (auto; unfold ROWS, COLS in *; lia).
  destruct (covered p _ _); [reflexivity|auto].
Qed.

Lemma hits_merge (b : Board) (p q : Piece) offR offC m r c :
  board_ok b ->
  hits b q offR offC m r c = true -> hits (merge b p) q offR offC m r c = true.
Proof.
  intros Hb. unfold hits.
  destruct (get2 m r c) as [v|]; [|auto].
  destruct (truthy v); [|auto].
  destruct (_ || _) eqn:Eout; [auto|].
  rewrite !orb_false_iff in Eout. destruct Eout as [[[H1 H2] H3] H4].
  rewrite Z.geb_leb in H2, H4.
  apply Z.ltb_ge in H1, H3. apply Z.leb_gt in H2, H4.
  apply occupied_merge; [exact Hb|lia|lia].
Qed.

(** X1. For a piece whose icon overlay has a row for every row of its
    bitmask, [merge] writes exactly the cells under the set cells of the
    piece that lie inside the board: such a cell receives the colour of the
    piece and the icon of its piece cell, even when it was occupied before;
    every other cell is as it was, and the board keeps its 20 rows of 10
    cells. *)
Theorem merge_writes_exactly_the_piece (b : Board) (p : Piece) :
  board_ok b -> overlay_rows p ->
  board_ok (merge b p)
  /\ forall i j, (i < Z.to_nat ROWS)%nat -> (j < Z.to_nat COLS)%nat ->
       get2 (merge b p) i j
       = if covered p i j then Some (Some (locked_cell p i j)) else get2 b i j.
Proof.
  intros Hb _. split; [apply merge_ok; exact Hb|].
  intros i j Hi Hj. apply merge_cells; assumption.
Qed.

Lemma merge_writes_exactly_the_piece_witness :
  board_ok emptyBoard
  /\ overlay_rows (piece st_mount_I)
  /\ get2 (merge emptyBoard (piece st_mount_I)) 1 3
     = Some (Some (locked_cell (piece st_mount_I) 1 3))
  /\ get2 (merge emptyBoard (piece st_mount_I)) 0 3 = get2 emptyBoard 0 3.
Proof.
  split; [exact emptyBoard_ok|].
  assert (Ho : overlay_rows (piece st_mount_I)) by (vm_compute; lia).
  split; [exact Ho|].
  destruct (merge_writes_exactly_the_piece emptyBoard (piece st_mount_I)
              emptyBoard_ok Ho) as [_ H].
  split.
  - apply (H 1%nat 3%nat); vm_compute; lia.
  - apply (H 0%nat 3%nat); vm_compute; lia.
Defined.

(** X2. [merge] never frees a cell: a placement that collides with the
    board still collides with the board after a piece is merged into it,
    for every piece whose icon overlay has a row for every row of its
    bitmask. *)
Theorem merge_keeps_collisions (b : Board) (p q : Piece) (offR offC : Z)
    (mat : option Matrix) :
  board_ok b -> overlay_rows p ->
  collides b q offR offC mat = true ->
  collides (merge b p) q offR offC mat = true.
Proof.
  intros Hb _ H. apply collides_true in H. apply collides_true.
  destruct H as (r & c & Hr & Hc & Hh). exists r, c.
  split; [exact Hr|]. split; [exact Hc|]. apply hits_merge; assumption.
Qed.

Lemma merge_keeps_collisions_witness :
  collides board_bottom_full (piece st_mount_I) 18 0 None = true
  /\ collides (merge board_bottom_full (piece st_cave)) (piece st_mount_I) 18 0 None
     = true.
Proof.
  split; [vm_compute; reflexivity|].
  apply (merge_keeps_collisions board_bottom_full (piece st_cave)
           (piece st_mount_I) 18 0 None).
  - exact board_bottom_full_ok.
  - vm_compute. lia.
  - vm_compute. reflexivity.
Defined.

(** X3. Once a well-formed piece is merged, its own placement collides
    with the board: every set cell is outside the board or on a cell that
    the merge has occupied. *)
Theorem merged_piece_collides (b : Board) (p : Piece) :
  board_ok b -> piece_ok p -> collides (merge b p) p 0 0 None = true.
Proof.
  intros Hb (n & Hn & Hm & _ & (r & c & v & Hr & Hc & Hget & Hv) & _).
  apply collides_true. cbn zeta. exists r, c.
  pose proof (rect_width n n _ Hm Hn) as Hw. destruct Hm as [Hlen Hall].
  split; [lia|]. split; [lia|].
  unfold hits. rewrite Hget, Hv. cbv zeta.
  destruct (_ || _) eqn:Eout; [reflexivity|].
  rewrite !orb_false_iff in Eout. destruct Eout as [[[H1 H2] H3] H4].
  rewrite Z.geb_leb in H2, H4.
  apply Z.ltb_ge in H1, H3. apply Z.leb_gt in H2, H4.
  unfold occupied.
  rewrite (merge_cells b p) by (auto; unfold ROWS, COLS in *; lia).
  replace (covered p _ _) with true; [reflexivity|].
  symmetry. unfold covered. rewrite !Z2Nat.id by lia.
  replace (row p + Z.of_nat r + 0 - row p) with (Z.of_nat r) by lia.
  replace (col p + Z.of_nat c + 0 - col p) with (Z.of_nat c) by lia.
  rewrite !Nat2Z.id, Hget, Hv.
  rewrite !andb_true_iff, !Z.leb_le, !Z.ltb_lt. lia.
Qed.

Lemma merged_piece_collides_witness :
  collides emptyBoard (piece st_mount_I) 0 0 None = false
  /\ collides (merge emptyBoard (piece st_mount_I)) (piece st_mount_I) 0 0 None
     = true.
Proof.
  split; [vm_compute; reflexivity|].
  apply (merged_piece_collides emptyBoard (piece st_mount_I)).
  - exact emptyBoard_ok.
  - exact piece_mount_I_ok.
Defined.

(** ** More on [clearLines] *)

Lemma row_full_cells (line : list (option Cell)) :
  row_full line = true -> row_cells line = length line.
Proof.
  unfold row_full, row_cells. induction line as [|[x|] line IH]; simpl;
    intros H; [reflexivity| |discriminate].
  rewrite IH by exact H. reflexivity.
Qed.

Lemma cells_app (a b : Board) : cells (a ++ b) = (cells a + cells b)%nat.
Proof. unfold cells. rewrite map_app, list_sum_app. reflexivity. Qed.

Lemma cells_empty_rows (k : nat) : cells (replicate k empty_row) = 0%nat.
Proof. induction k as [|k IH]; [reflexivity|]. unfold cells in *. simpl. exact IH. Qed.

Lemma cells_cons (line : list (option Cell)) (b : Board) :
  cells (line :: b) = (row_cells line + cells b)%nat.
Proof. reflexivity. Qed.

Lemma cells_split (C : nat) (b : Board) :
  Forall (fun l => length l = C) b ->
  (cells b
   = cells (List.filter has_gap b)
     + C * (length b - length (List.filter has_gap b)))%nat.
Proof.
  induction 1 as [|line b Hl _ IH]; [cbn; lia|].
  pose proof (List.filter_length_le has_gap b) as Hle.
  rewrite cells_cons. cbn [List.filter length].
  destruct (has_gap line) eqn:Eg.
  - rewrite cells_cons. cbn [length]. rewrite IH. lia.
  - rewrite has_gap_not_full in Eg. apply negb_false_iff in Eg.
    rewrite (row_full_cells _ Eg), Hl, IH. nia.
Qed.

Lemma filter_all {A} (f : A -> bool) (l : list A) :
  Forall (fun x => f x = true) l -> List.filter f l = l.
Proof.
  induction 1 as [|x l Hx _ IH]; simpl; [reflexivity|].
  rewrite Hx, IH. reflexivity.
Qed.

Lemma clearLines_gaps (b : Board) :
  Forall (fun l => has_gap l = true) (fst (clearLines b)).
Proof.
  unfold clearLines. cbn [fst]. apply Forall_app. split.
  - apply Forall_replicate. reflexivity.
  - apply Forall_forall. intros l Hl. apply list_elem_of_In in Hl.
    apply List.filter_In in Hl. tauto.
Qed.

(** X4. On a 20 by 10 board [clearLines] leaves no full row, removes ten
    occupied cells per cleared row and no other, and clearing the result
    again clears nothing. *)
Theorem clearLines_settles (b : Board) :
  board_ok b ->
  Forall (fun l => row_full l = false) (fst (clearLines b))
  /\ Z.of_nat (cells (fst (clearLines b)))
     = Z.of_nat (cells b) - COLS * snd (clearLines b)
  /\ clearLines (fst (clearLines b)) = (fst (clearLines b), 0).
Proof.
  intros Hb. pose proof (clearLines_gaps b) as Hg. split; [|split].
  - eapply Forall_impl; [exact Hg|]. intros l Hl. cbn beta in Hl.
    rewrite has_gap_not_full in Hl. apply negb_true_iff in Hl. exact Hl.
  - destruct Hb as [Hlen Hall]. rewrite (cells_split _ b Hall).
    pose proof (List.filter_length_le has_gap b) as Hle.
    unfold clearLines. cbn [fst snd].
    rewrite cells_app. fold empty_row. rewrite cells_empty_rows.
    unfold ROWS, COLS in *. lia.
  - pose proof (clearLines_ok b Hb) as [Hlen' _].
    unfold clearLines at 1. rewrite (filter_all _ _ Hg), Hlen'.
    replace (ROWS - Z.of_nat (Z.to_nat ROWS)) with 0 by reflexivity.
    reflexivity.
Qed.

Lemma clearLines_settles_witness :
  cells board_bottom_full = 10%nat
  /\ snd (clearLines board_bottom_full) = 1
  /\ Z.of_nat (cells (fst (clearLines board_bottom_full)))
     = Z.of_nat (cells board_bottom_full) - COLS * snd (clearLines board_bottom_full)
  /\ clearLines (fst (clearLines board_bottom_full))
     = (fst (clearLines board_bottom_full), 0).
Proof.
  split; [vm_compute; reflexivity|]. split; [vm_compute; reflexivity|].
  destruct (clearLines_settles board_bottom_full board_bottom_full_ok)
    as (_ & Hc & Hi).
  split; [exact Hc|exact Hi].
Defined.

(** ** More on spawning *)

Lemma Qlt_bool_iff (a b : Q) : Qlt_bool a b = true <-> (a < b)%Q.
Proof.
  unfold Qlt_bool. rewrite negb_true_iff. split.
  - intros H. apply Qnot_le_lt. intros Hle. apply Qle_bool_iff in Hle. congruence.
  - intros H. destruct (Qle_bool b a) eqn:E; [|reflexivity].
    apply Qle_bool_iff in E. exfalso. apply (Qlt_not_le _ _ H). exact E.
Qed.

(** X5. [randIcon] always returns one of the thirteen icons, never
    [undefined]; it returns the lightning icon exactly when its first draw
    is below the number that the literal [0.03] denotes, the binary64
    value [1080863910568919 / 2^55], and then it makes no second draw. *)
Theorem randIcon_range (rnd : Random) (cur : nat) :
  exists s,
    fst (randIcon rnd cur) = Some s
    /\ In s ICONS
    /\ (s = LIGHTNING
        <-> (uq (rnd cur) < 1080863910568919 # 36028797018963968)%Q)
    /\ snd (randIcon rnd cur)
       = (if Qlt_bool (uq (rnd cur)) (1080863910568919 # 36028797018963968)
          then S cur else S (S cur)).
Proof.
  change (1080863910568919 # 36028797018963968) with LIGHTNING_PROB.
  unfold randIcon.
  destruct (Qlt_bool (uq (rnd cur)) LIGHTNING_PROB) eqn:E; cbn [fst snd].
  - exists LIGHTNING. split; [reflexivity|]. split; [simpl; tauto|].
    split; [|reflexivity]. split; [intros _; apply Qlt_bool_iff; exact E|reflexivity].
  - pose proof (to_int_unit (rnd (S cur)) (Z.of_nat (length NON_LIGHTNING_ICONS))
                  ltac:(reflexivity)) as Hi.
    change (Z.of_nat (length NON_LIGHTNING_ICONS)) with 12 in *.
    assert (Hlt : (Z.to_nat (to_int (uq (rnd (S cur)) * inject_Z 12)) < 12)%nat) by lia.
    revert Hlt. generalize (Z.to_nat (to_int (uq (rnd (S cur)) * inject_Z 12))).
    intros i Hlt.
    assert (Hno : forall s, s = LIGHTNING -> (uq (rnd cur) < LIGHTNING_PROB)%Q ->
                            String.eqb s LIGHTNING = negb false).
    { intros s -> _. apply String.eqb_refl. }
    do 12 (destruct i as [|i];
           [eexists; split; [reflexivity|]; split; [simpl; tauto|];
            split; [|reflexivity]; split;
            [intros H; apply String.eqb_eq in H; vm_compute in H; discriminate
            |intros H; apply Qlt_bool_iff in H; congruence]|]).
    lia.
Qed.

(** X6. [randomPiece] never throws.  The piece it returns has the next
    identifier, one of the seven keys with the colour and the bitmask of
    that key, four set cells, icons exactly on the set cells, row 0 and
    the centred column (3 or 4), and it fits on the empty board. *)
Theorem randomPiece_well_formed (rnd : Random) (seq : Z) :
  exists p sh,
    randomPiece rnd seq = Some p
    /\ id p = seq + 1
    /\ assoc SHAPES (key p) = Some sh
    /\ color p = shape_color sh
    /\ matrix p = shape_matrix sh
    /\ count_set (matrix p) = 4%nat
    /\ icons_match (matrix p) (icons p)
    /\ row p = 0
    /\ col p = (COLS - Z.of_nat (width (matrix p))) / 2
    /\ 3 <= col p <= 4
    /\ collides emptyBoard p 0 0 None = false.
Proof.
  destruct (randomPiece_cases rnd seq) as (k & sh & Hin & Hp).
  eexists _, sh. split; [exact Hp|].
  pose proof (randomPiece_ok _ _ _ Hp) as (n & _ & _ & _ & _ & Hmatch & _).
  pose proof (randomPiece_fits _ _ _ Hp) as Hfit.
  cbn [id key color matrix icons row col] in *.
  split; [reflexivity|].
  assert (Hsh : assoc SHAPES k = Some sh /\ count_set (shape_matrix sh) = 4%nat
                /\ 3 <= (COLS - Z.of_nat (width (shape_matrix sh))) / 2 <= 4).
  { simpl in Hin.
    repeat (destruct Hin as [Hin|Hin]; [inversion Hin; subst; clear Hin|]);
      try contradiction; (split; [reflexivity|split; [reflexivity|]]);
      vm_compute; split; discriminate. }
  destruct Hsh as (Ha & Hc & Hcol).
  repeat split; try assumption; try reflexivity; apply Hcol.
Qed.

(** ** More on [hasLightningInIcons] *)

Lemma hasLightningInIcons_rotated (R C : nat) (ic : Icons) :
  rect R C ic -> (0 < R)%nat ->
  hasLightningInIcons (rotated None ic) = hasLightningInIcons ic.
Proof.
  intros Hic HR.
  pose proof (rotated_rect None R C ic Hic HR) as Hrot.
  pose proof (rect_width R C ic Hic HR) as Hw.
  destruct (hasLightningInIcons ic) eqn:E.
  - apply hasLightningInIcons_true in E. destruct E as (r & c & Hr & Hc & H).
    apply hasLightningInIcons_true. exists c, (R - 1 - r)%nat.
    destruct Hic as [Hlen Hall].
    assert (HC : (0 < C)%nat) by lia.
    rewrite (rect_width C R _ Hrot HC). destruct Hrot as [Hlen' _].
    split; [lia|]. split; [lia|].
    rewrite (rotated_maps None R C) by (try split; auto; lia). exact H.
  - destruct (hasLightningInIcons (rotated None ic)) eqn:E'; [|reflexivity].
    apply hasLightningInIcons_true in E'. destruct E' as (i & j & Hi & Hj & H).
    assert (Hi' : (i < C)%nat) by (destruct Hrot as [<- _]; exact Hi).
    rewrite (rect_width C R _ Hrot ltac:(lia)) in Hj.
    rewrite (rotated_get2 None R C) in H by auto.
    assert (hasLightningInIcons ic = true).
    { apply hasLightningInIcons_true. exists (R - 1 - j)%nat, i.
      destruct Hic as [Hlen Hall]. split; [lia|]. split; [lia|exact H]. }
    congruence.
Qed.

Lemma try_kicks_piece st m ic ks :
  piece (try_kicks st m ic ks) = piece st
  \/ exists k, piece (try_kicks st m ic ks)
               = with_rotation (piece st) m ic (col (piece st) + k).
Proof.
  induction ks as [|k ks IH]; simpl; [left; reflexivity|].
  destruct (negb _); [right; exists k; reflexivity|exact IH].
Qed.

(** X7. [hasLightningInIcons] is true exactly when a cell of the overlay
    within the width of its first row holds the lightning icon, and a
    rotation never changes the answer: in every reachable state the
    rotate action keeps the active piece's lightning. *)
Theorem rotation_keeps_lightning (st st' : State) :
  reachable st -> rotateAction st = Some st' ->
  hasLightningInIcons (icons (piece st')) = hasLightningInIcons (icons (piece st))
  /\ (hasLightningInIcons (icons (piece st)) = true
      <-> exists r c, (r < length (icons (piece st)))%nat
                      /\ (c < width (icons (piece st)))%nat
                      /\ get2 (icons (piece st)) r c = Some (Some LIGHTNING)).
Proof.
  intros Hr H. split; [|apply hasLightningInIcons_true].
  pose proof (inv_piece st (reachable_Inv st Hr)) as (n & Hn & Hm & Hic & _).
  unfold rotateAction in H.
  destruct (String.eqb _ _); [injection H as <-; reflexivity|].
  destruct (rotateMatrixCW _) as [m|]; [|discriminate].
  destruct (rotateIconsCW _) as [ic|] eqn:Eic; [|discriminate].
  injection H as <-.
  unfold rotateIconsCW in Eic. rewrite (rotateCW_rect None n n) in Eic by assumption.
  injection Eic as <-.
  destruct (try_kicks_piece st m (rotated None (icons (piece st))) kicks)
    as [Hp|[k Hp]].
  - change (hasLightningInIcons
              (icons (piece (try_kicks st m (rotated None (icons (piece st))) kicks)))
            = hasLightningInIcons (icons (piece st))).
    rewrite Hp. reflexivity.
  - change (hasLightningInIcons
              (icons (piece (try_kicks st m (rotated None (icons (piece st))) kicks)))
            = hasLightningInIcons (icons (piece st))).
    rewrite Hp. cbn [icons with_rotation].
    apply (hasLightningInIcons_rotated n n); assumption.
Qed.

Lemma rotation_keeps_lightning_witness :
  hasLightningInIcons (icons (piece (state_of (rotateAction st_mount_lightning))))
  = hasLightningInIcons (icons (piece st_mount_lightning))
  /\ hasLightningInIcons (icons (piece (state_of (rotateAction st_mount_I))))
     = hasLightningInIcons (icons (piece st_mount_I)).
Proof.
  split.
  - destruct (rotation_keeps_lightning st_mount_lightning
                (state_of (rotateAction st_mount_lightning))) as [H _].
    + exact (reachable_mount _ _ _ _ mount_lightning).
    + vm_compute. reflexivity.
    + exact H.
  - destruct (rotation_keeps_lightning st_mount_I
                (state_of (rotateAction st_mount_I))) as [H _].
    + exact reachable_mount_I.
    + vm_compute. reflexivity.
    + exact H.
Defined.

(** ** More on the moves *)

Lemma setPiece_back st q : setPiece (setPiece st q) (piece st) = st.
Proof. destruct st. reflexivity. Qed.

Lemma with_col_back p k : with_col (with_col p (col p + k)) (col p + k + - k) = p.
Proof. destruct p. cbn. f_equal. lia. Qed.

(** X8. A move that was possible can be undone: when the active piece
    fits where it stands and can move left, moving left and then right
    gives the state back, and likewise right and then left. *)
Theorem moves_are_inverse (st : State) :
  collides (board st) (piece st) 0 0 None = false ->
  (canMove st 0 (-1) = true -> moveRight (moveLeft st) = st)
  /\ (canMove st 0 1 = true -> moveLeft (moveRight st) = st).
Proof.
  intros Hfree. split; intros Hcan.
  - unfold moveLeft. rewrite Hcan.
    unfold moveRight, canMove. cbn [board piece setPiece].
    rewrite (collides_shift _ _ (piece st) 0 1 0 0 None None)
      by (cbn; lia || reflexivity).
    rewrite Hfree. cbn [negb].
    etrans; [|apply (setPiece_back st (with_col (piece st) (col (piece st) - 1)))].
    f_equal. exact (with_col_back (piece st) (-1)).
  - unfold moveRight. rewrite Hcan.
    unfold moveLeft, canMove. cbn [board piece setPiece].
    rewrite (collides_shift _ _ (piece st) 0 (-1) 0 0 None None)
      by (cbn; lia || reflexivity).
    rewrite Hfree. cbn [negb].
    etrans; [|apply (setPiece_back st (with_col (piece st) (col (piece st) + 1)))].
    f_equal. exact (with_col_back (piece st) 1).
Qed.

Lemma moves_are_inverse_witness :
  moveRight (moveLeft st_mount_I) = st_mount_I
  /\ moveLeft (moveRight st_mount_I) = st_mount_I.
Proof.
  destruct (moves_are_inverse st_mount_I) as [Hl Hr].
  - vm_compute. reflexivity.
  - split; [apply Hl|apply Hr]; vm_compute; reflexivity.
Defined.

(** ** More on the state machine *)

Lemma step_inv st ev o st' :
  step st ev o = Some st' ->
  exists st1, handler ev (rng o) st = Some st1
              /\ st' = setSeq (commit st st1)
                              (PIECE_SEQ (commit st st1) + Z.of_nat (renders o)).
Proof.
  unfold step. destruct (handler ev (rng o) st) as [st1|]; [|discriminate].
  intros H. injection H as <-. eauto.
Qed.

Lemma handled_score rnd st st1 :
  Inv st -> handled rnd st st1 ->
  score st <= score st1 \/ resetGame rnd st = Some st1.
Proof.
  intros HI Hh.
  destruct Hh as [|p' Hmv|e cp st1 He Hl Hlock|st1 Hreset|t Ht];
    try (left; cbn; lia).
  - left. rewrite (lockAndSpawn_line_points _ _ _ _ _ _ Hlock).
    pose proof (clearLines_count _ (merge_ok (board st) cp (inv_board st HI))). lia.
  - right. exact Hreset.
Qed.

Lemma handler_reset_only_by_R ev rnd st st1 :
  Inv st -> handler ev rnd st = Some st1 -> resetGame rnd st = Some st1 ->
  ev = KeyDown KeyR.
Proof.
  intros HI Eh Hreset.
  pose proof (resetGame_fresh _ _ _ Hreset) as Hfresh.
  pose proof (inv_id st HI) as Hid.
  assert (Hne : id (piece st1) <> id (piece st)) by lia.
  pose proof (resetGame_inv _ _ _ Hreset) as (first & _ & Hst1).
  assert (Hseq : PIECE_SEQ st1 = PIECE_SEQ st + 1) by (rewrite Hst1; reflexivity).
  assert (Hb : awardedRef st1 = -1) by (rewrite Hst1; reflexivity).
  pose proof (inv_award st HI) as Ha.
  assert (Hlock : forall e cp, lockAndSpawn e rnd (board st) cp st = Some st1 -> False).
  { intros e cp Hl. destruct (lockAndSpawn_inv _ _ _ _ _ _ Hl)
      as (next & _ & _ & _ & _ & Ea & _). lia. }
  destruct ev as [k|g|b| | | |]; simpl in Eh.
  - destruct k; try reflexivity; exfalso; simpl in Eh;
      destruct (gameOver st);
      try (injection Eh as <-; apply Hne; reflexivity).
    + unfold moveLeft in Eh. destruct (canMove st 0 (-1));
        injection Eh as <-; apply Hne; reflexivity.
    + unfold moveRight in Eh. destruct (canMove st 0 1);
        injection Eh as <-; apply Hne; reflexivity.
    + unfold softDropStep in Eh. destruct (negb _);
        [injection Eh as <-; apply Hne; reflexivity|eapply Hlock; eauto].
    + apply Hne. eapply rotateAction_id; eauto.
    + unfold hardDrop in Eh. destruct (drop_search _ _ _ 0); [|discriminate].
      eapply Hlock; eauto.
  - exfalso. unfold onTouchEnd in Eh.
    destruct (gameOver st); [injection Eh as <-; apply Hne; reflexivity|].
    destruct g.
    + apply Hne. eapply rotateAction_id; eauto.
    + unfold hardDrop in Eh. destruct (drop_search _ _ _ 0); [|discriminate].
      eapply Hlock; eauto.
    + unfold moveLeft in Eh. destruct (canMove st 0 (-1));
        injection Eh as <-; apply Hne; reflexivity.
    + unfold moveRight in Eh. destruct (canMove st 0 1);
        injection Eh as <-; apply Hne; reflexivity.
    + unfold softDropStep in Eh. destruct (negb _);
        [injection Eh as <-; apply Hne; reflexivity|eapply Hlock; eauto].
    + injection Eh as <-. apply Hne. reflexivity.
  - exfalso. destruct b; simpl in Eh.
    + unfold moveLeft in Eh. destruct (canMove st 0 (-1));
        injection Eh as <-; apply Hne; reflexivity.
    + apply Hne. eapply rotateAction_id; eauto.
    + unfold moveRight in Eh. destruct (canMove st 0 1);
        injection Eh as <-; apply Hne; reflexivity.
    + unfold hardDrop in Eh. destruct (drop_search _ _ _ 0); [|discriminate].
      eapply Hlock; eauto.
  - exfalso. injection Eh as <-. apply Hne. unfold startHoldDown.
    destruct (holdTimer st); reflexivity.
  - exfalso. injection Eh as <-. apply Hne. reflexivity.
  - exfalso. unfold holdTick in Eh. destruct (holdTimer st) as [e|];
      [|injection Eh as <-; apply Hne; reflexivity].
    destruct (gameOver st); [injection Eh as <-; apply Hne; reflexivity|].
    unfold softDropStep in Eh. destruct (negb _);
      [injection Eh as <-; apply Hne; reflexivity|eapply Hlock; eauto].
  - exfalso. unfold frame in Eh.
    destruct (gameOver st); [injection Eh as <-; apply Hne; reflexivity|].
    destruct (negb _);
      [injection Eh as <-; apply Hne; reflexivity|eapply Hlock; eauto].
Qed.

(** X9. The score is never negative and never decreases, except that the
    restart key sets it back; the same holds for the identifier of the
    active piece, which never decreases at all. *)
Theorem score_never_decreases (st : State) (ev : Event) (o : Oracle) (st' : State) :
  reachable st -> step st ev o = Some st' ->
  0 <= score st'
  /\ id (piece st) <= id (piece st')
  /\ (ev <> KeyDown KeyR -> score st <= score st').
Proof.
  intros Hr Hs. pose proof (reachable_Inv st Hr) as HI.
  pose proof (Inv_step _ _ _ _ HI Hs) as HI'.
  split; [apply (inv_score st' HI')|].
  destruct (step_inv _ _ _ _ Hs) as (st1 & Eh & Hst').
  pose proof (handler_handled _ _ _ _ Eh) as Hh.
  split.
  - destruct (handled_ids _ _ _ HI Hh) as (Hid & _).
    rewrite Hst'. cbn [piece setSeq]. rewrite commit_piece.
    pose proof (inv_id st HI) as Hids.
    destruct Hid as [Hsame|[Hnew _]]; [rewrite Hsame|rewrite Hnew]; lia.
  - intros Hne. rewrite Hst'. cbn [score setSeq].
    pose proof (commit_score_le st st1) as Hc.
    destruct (handled_score _ _ _ HI Hh) as [Hle|Hreset].
    + lia.
    + exfalso. apply Hne.
      exact (handler_reset_only_by_R ev (rng o) st st1 HI Eh Hreset).
Qed.

Lemma score_never_decreases_witness :
  score st_cave
  <= score (state_of (step st_cave (KeyDown Space) (oracle draw_O_lightning))).
Proof.
  destruct (score_never_decreases st_cave (KeyDown Space)
              (oracle draw_O_lightning)
              (state_of (step st_cave (KeyDown Space) (oracle draw_O_lightning))))
    as (_ & _ & H).
  - exact reachable_cave.
  - vm_compute. reflexivity.
  - apply H. discriminate.
Defined.



(** X11. While the status is over, the keys other than R, the touch
    gestures, the animation frames and the hold timer change nothing: the
    state after such an event is the state before it, but for the
    identifiers spent by the renders. *)
Theorem over_ignores_gated_events (st : State) (ev : Event) (o : Oracle) :
  gameOver st = true -> gated ev = true ->
  step st ev o = Some (setSeq st (PIECE_SEQ st + Z.of_nat (renders o))).
Proof.
  intros Hg Hev. unfold step.
  assert (Eh : handler ev (rng o) st = Some st).
  { destruct ev as [k|g|b| | | |]; try discriminate; cbn.
    - destruct k; try discriminate; cbn; rewrite Hg; reflexivity.
    - unfold onTouchEnd. rewrite Hg. reflexivity.
    - unfold holdTick. rewrite Hg. destruct (holdTimer st); reflexivity.
    - unfold frame. rewrite Hg. reflexivity. }
  rewrite Eh, commit_same by reflexivity. reflexivity.
Qed.

Lemma over_ignores_gated_events_witness :
  step st_over (KeyDown Space) (oracle draw_O)
  = Some (setSeq st_over (PIECE_SEQ st_over + 1)).
Proof.
  apply (over_ignores_gated_events st_over (KeyDown Space) (oracle draw_O));
    vm_compute; reflexivity.
Defined.



(** ** The best score under the handlers of the current render *)

Lemma try_kicks_user rnd st m ic ks :
  rotateMatrixCW (matrix (piece st)) = Some m ->
  rotateIconsCW (icons (piece st)) = Some ic ->
  user_handled rnd st (try_kicks st m ic ks).
Proof.
  intros Hm Hic. induction ks as [|k ks IH]; simpl; [constructor|].
  destruct (collides (board st) (piece st) 0 k (Some m)) eqn:E; simpl; [exact IH|].
  apply user_moved. apply moved_rot; assumption.
Qed.

Lemma moveLeft_user rnd st : user_handled rnd st (moveLeft st).
Proof.
  unfold moveLeft, canMove.
  destruct (collides (board st) (piece st) 0 (-1) None) eqn:E; simpl; [constructor|].
  apply user_moved. apply (moved_col _ _ (-1)). exact E.
Qed.

Lemma moveRight_user rnd st : user_handled rnd st (moveRight st).
Proof.
  unfold moveRight, canMove.
  destruct (collides (board st) (piece st) 0 1 None) eqn:E; simpl; [constructor|].
  apply user_moved. apply (moved_col _ _ 1). exact E.
Qed.

Lemma rotateAction_user rnd st st1 :
  rotateAction st = Some st1 -> user_handled rnd st st1.
Proof.
  unfold rotateAction. intros H.
  destruct (String.eqb (key (piece st)) "O"); [injection H as <-; constructor|].
  destruct (rotateMatrixCW (matrix (piece st))) as [m|] eqn:Em; [|discriminate].
  destruct (rotateIconsCW (icons (piece st))) as [ic|] eqn:Eic; [|discriminate].
  injection H as <-. exact (try_kicks_user rnd st m ic kicks Em Eic).
Qed.

Lemma softDropStep_user rnd st st1 :
  softDropStep (currentEnv st) rnd st = Some st1 -> user_handled rnd st st1.
Proof.
  unfold softDropStep. intros H.
  destruct (collides (board st) (piece st) 1 0 None) eqn:E; simpl in H.
  - apply (user_lock _ _ (piece st)); [left; reflexivity|exact H].
  - injection H as <-. apply user_moved. apply moved_row. exact E.
Qed.

Lemma hardDrop_user rnd st st1 :
  hardDrop (currentEnv st) rnd st = Some st1 -> user_handled rnd st st1.
Proof.
  unfold hardDrop. intros H.
  destruct (drop_search _ _ _ 0) as [d|] eqn:Ed; [|discriminate].
  apply drop_search_spec in Ed. destruct Ed as (Hd & _).
  apply (user_lock _ _ (with_row (piece st) (row (piece st) + d))); [|exact H].
  right. exists d. auto.
Qed.

Ltac solve_user H :=
  first
    [ apply user_reset; exact H
    | injection H as <-;
      solve [apply user_same | apply moveLeft_user | apply moveRight_user]
    | solve [apply softDropStep_user; exact H]
    | solve [apply hardDrop_user; exact H]
    | solve [eapply rotateAction_user; exact H] ].

Lemma handler_user ev rnd st st1 :
  from_user ev = true -> handler ev rnd st = Some st1 -> user_handled rnd st st1.
Proof.
  destruct ev as [k|g|b| | | |]; simpl; intros Hev H; try discriminate.
  - destruct k; simpl in H; try solve_user H;
      destruct (gameOver st); solve_user H.
  - unfold onTouchEnd in H. destruct (gameOver st); [solve_user H|].
    destruct g; solve_user H.
  - destruct b; simpl in H; solve_user H.
  - injection H as <-. unfold startHoldDown.
    destruct (holdTimer st); [constructor|].
    apply user_hold. right. reflexivity.
  - injection H as <-. apply user_hold. left. reflexivity.
Qed.

Lemma scoreUpdater_current e d st :
  env_high e = high st ->
  best_covers_score (scoreUpdater e d st)
  /\ (high st <= high (scoreUpdater e d st))%Q.
Proof.
  intros He. unfold best_covers_score, scoreUpdater, updateHighScore. rewrite He.
  destruct (Qlt_bool (high st) (inject_Z (score st + d))) eqn:E; cbn.
  - split; [apply Qle_refl|]. apply Qlt_le_weak, Qlt_bool_iff. exact E.
  - split; [|apply Qle_refl]. unfold Qlt_bool in E.
    apply negb_false_iff in E. apply Qle_bool_iff. exact E.
Qed.

(** ** The best score as a maximum *)

Lemma keeps_maximum_refl st : best_covers_score st -> keeps_maximum st st.
Proof. intros HK. split; [exact HK|]. split; [apply Qle_refl|]. left. reflexivity. Qed.

Lemma keeps_maximum_trans st st1 st2 :
  keeps_maximum st st1 -> keeps_maximum st1 st2 -> score st1 <= score st2 ->
  keeps_maximum st st2.
Proof.
  intros (HK1 & Hle1 & Hat1) (HK2 & Hle2 & Hat2) Hs.
  split; [exact HK2|]. split; [eapply Qle_trans; eauto|].
  destruct Hat2 as [E2|E2]; [|right; exact E2].
  destruct Hat1 as [E1|E1]; [left; congruence|]. right.
  unfold best_covers_score in HK2. rewrite E2, E1 in HK2.
  rewrite <- Zle_Qle in HK2. rewrite E2, E1. f_equal. lia.
Qed.

Lemma scoreUpdater_max e d st :
  env_high e = high st -> keeps_maximum st (scoreUpdater e d st).
Proof.
  intros He. destruct (scoreUpdater_current e d st He) as [HK Hle].
  split; [exact HK|]. split; [exact Hle|].
  unfold scoreUpdater, updateHighScore. rewrite He.
  destruct (Qlt_bool (high st) (inject_Z (score st + d))); cbn;
    [right|left]; reflexivity.
Qed.

Lemma awardEffect_max st :
  best_covers_score st -> keeps_maximum st (awardEffect st).
Proof.
  intros HK. unfold awardEffect.
  destruct (id (piece st) =? awardedRef st); [apply keeps_maximum_refl; exact HK|].
  destruct (hasLightningInIcons (icons (piece st))).
  - exact (scoreUpdater_max (currentEnv st) 5 st eq_refl).
  - exact (keeps_maximum_refl st HK).
Qed.

Lemma commit_max prev st :
  best_covers_score st -> keeps_maximum st (commit prev st).
Proof.
  intros HK. unfold commit.
  destruct (id (piece st) =? id (piece prev)); [apply keeps_maximum_refl; exact HK|].
  apply awardEffect_max. exact HK.
Qed.

Lemma lockAndSpawn_max rnd b cp st st1 :
  best_covers_score st ->
  lockAndSpawn (currentEnv st) rnd b cp st = Some st1 ->
  keeps_maximum st st1.
Proof.
  intros HK. unfold lockAndSpawn.
  destruct (clearLines (merge b cp)) as [cb n].
  destruct (randomPiece rnd (PIECE_SEQ st)) as [next|]; [|discriminate].
  intros H. injection H as <-.
  assert (Hno : forall s, updateHighScore (currentEnv st) (score st) s = s).
  { intros s. unfold updateHighScore, Qlt_bool. cbn [currentEnv env_high].
    apply Qle_bool_iff in HK. rewrite HK. reflexivity. }
  rewrite Hno.
  destruct (collides cb _ 0 0 None); destruct (n =? 0);
    try exact (keeps_maximum_refl st HK);
    match goal with
    | |- context [scoreUpdater ?e ?d ?s2] =>
        exact (scoreUpdater_max e d s2 eq_refl)
    end.
Qed.

Lemma user_handled_max rnd st st1 :
  Inv st -> best_covers_score st -> user_handled rnd st st1 ->
  keeps_maximum st st1.
Proof.
  intros HI HK Hh.
  destruct Hh as [|p' Hmv|cp st1 Hl Hlock|st1 Hreset|t Ht];
    try exact (keeps_maximum_refl st HK).
  - eapply lockAndSpawn_max; eauto.
  - destruct (resetGame_inv _ _ _ Hreset) as (first & _ & Hst1). subst st1.
    split; [|split; [apply Qle_refl|left; reflexivity]].
    unfold best_covers_score in *. cbn.
    eapply Qle_trans; [|exact HK]. rewrite <- Zle_Qle. apply (inv_score st HI).
Qed.

Lemma user_step_max st ev o st' :
  Inv st -> best_covers_score st -> from_user ev = true ->
  step st ev o = Some st' -> keeps_maximum st st'.
Proof.
  intros HI HK Hev Hs.
  destruct (step_inv _ _ _ _ Hs) as (st1 & Eh & Hst').
  pose proof (user_handled_max _ _ _ HI HK (handler_user _ _ _ _ Hev Eh)) as H1.
  pose proof (commit_max st st1 (proj1 H1)) as H2.
  pose proof (keeps_maximum_trans _ _ _ H1 H2 (commit_score_le st st1)) as H.
  rewrite Hst'. exact H.
Qed.

Lemma mount_max w item o st0 :
  (0 <= initialHigh w item)%Q -> mount w item o = Some st0 ->
  best_covers_score st0
  /\ (initialHigh w item <= high st0)%Q
  /\ (high st0 = initialHigh w item \/ high st0 = inject_Z (score st0)).
Proof.
  intros H0 Hm. unfold mount in Hm.
  destruct (randomPiece (rng o) 0) as [first|]; [|discriminate].
  injection Hm as <-.
  match goal with
  | |- context [awardEffect ?s] => exact (awardEffect_max s H0)
  end.
Qed.

Lemma scores_of_head st evs : exists l, scores_of st evs = score st :: l.
Proof. destruct evs; eexists; reflexivity. Qed.

Lemma user_run_max evs :
  forall st0 st,
    Inv st0 -> best_covers_score st0 ->
    Forall (fun eo => from_user (fst eo) = true) evs ->
    run st0 evs = Some st ->
    best_covers_score st /\ maximum_of (high st0) (scores_of st0 evs) (high st).
Proof.
  induction evs as [|[ev o] evs IH]; intros st0 st HI HK Hevs Hrun;
    simpl in Hrun.
  - injection Hrun as <-. split; [exact HK|].
    split; [apply Qle_refl|]. split; [|left; reflexivity].
    constructor; [exact HK|constructor].
  - destruct (step st0 ev o) as [st1|] eqn:Es; [|discriminate].
    apply Forall_cons in Hevs. destruct Hevs as [Hev Hevs].
    destruct (user_step_max _ _ _ _ HI HK Hev Es) as (HK1 & Hle1 & Hat1).
    destruct (IH st1 st (Inv_step _ _ _ _ HI Es) HK1 Hevs Hrun)
      as (HKs & Hle & Hall & Hat).
    split; [exact HKs|]. cbn [scores_of]. rewrite Es.
    split; [eapply Qle_trans; eauto|]. split.
    + constructor; [|exact Hall].
      eapply Qle_trans; [exact HK|]. eapply Qle_trans; eauto.
    + destruct Hat as [E|E]; [|right; apply Exists_cons_tl; exact E].
      destruct Hat1 as [E1|E1]; [left; congruence|]. right.
      apply Exists_cons_tl. destruct (scores_of_head st1 evs) as [l ->].
      apply Exists_cons_hd. congruence.
Qed.

(** X13. As long as only keys, touches, clicks and the hold button drive
    the game (their handlers belong to the current render) and the loaded
    best score is not negative, the best score is never below the score
    nor below the loaded value, and it never decreases: in whatever state
    such a run has reached, the best score covers the score, and it is at
    most the best score of any state that a further such run reaches. *)
Theorem user_events_keep_best (w : bool) (item : option string) (o : Oracle)
    (st0 : State) (evs1 evs2 : list (Event * Oracle)) (st1 st2 : State) :
  (0 <= initialHigh w item)%Q ->
  mount w item o = Some st0 ->
  Forall (fun eo => from_user (fst eo) = true) evs1 ->
  Forall (fun eo => from_user (fst eo) = true) evs2 ->
  run st0 evs1 = Some st1 ->
  run st1 evs2 = Some st2 ->
  best_covers_score st1
  /\ (initialHigh w item <= high st1)%Q
  /\ (high st1 <= high st2)%Q.
Proof.
  intros H0 Hm Hevs1 Hevs2 Hrun1 Hrun2.
  destruct (mount_max _ _ _ _ H0 Hm) as (HK0 & Hle0 & _).
  pose proof (Inv_mount _ _ _ _ Hm) as HI0.
  destruct (user_run_max evs1 st0 st1 HI0 HK0 Hevs1 Hrun1) as (HK1 & Hle1 & _).
  assert (HI1 : Inv st1).
  { apply reachable_Inv. eapply run_reachable; [|exact Hrun1].
    eapply reachable_mount; eauto. }
  destruct (user_run_max evs2 st1 st2 HI1 HK1 Hevs2 Hrun2) as (_ & Hle2 & _).
  split; [exact HK1|]. split; [eapply Qle_trans; eauto|exact Hle2].
Qed.

Lemma user_events_keep_best_witness :
  best_covers_score st_cave
  /\ (initialHigh true None <= high st_cave)%Q
  /\ (high st_cave
      <= high (state_of (run st_cave [key_event Space draw_O_lightning])))%Q.
Proof.
  apply (user_events_keep_best true None (oracle draw_I) st_mount_I cave_events
           [key_event Space draw_O_lightning]).
  - vm_compute. discriminate.
  - reflexivity.
  - unfold cave_events. simpl. repeat constructor.
  - repeat constructor.
  - vm_compute. reflexivity.
  - vm_compute. reflexivity.
Defined.

(** ** The closure only matters for the best score *)

Lemma lockAndSpawn_env e e' rnd b cp st s :
  lockAndSpawn e rnd b cp st = Some s ->
  exists s', lockAndSpawn e' rnd b cp st = Some s' /\ setHigh s 0 = setHigh s' 0.
Proof.
  unfold lockAndSpawn.
  destruct (clearLines (merge b cp)) as [cb n].
  destruct (randomPiece rnd (PIECE_SEQ st)) as [next|]; [|discriminate].
  intros H. injection H as <-. eexists. split; [reflexivity|].
  unfold scoreUpdater, updateHighScore.
  repeat break_if; reflexivity.
Qed.

Lemma softDropStep_env e e' rnd st s :
  softDropStep e rnd st = Some s ->
  exists s', softDropStep e' rnd st = Some s' /\ setHigh s 0 = setHigh s' 0.
Proof.
  unfold softDropStep. destruct (negb _).
  - intros H. injection H as <-. eauto.
  - apply lockAndSpawn_env.
Qed.

Lemma commit_forget_high prev s s' :
  setHigh s 0 = setHigh s' 0 ->
  setHigh (commit prev s) 0 = setHigh (commit prev s') 0.
Proof.
  destruct s, s'. unfold setHigh. cbn. intros H. injection H as -> -> -> -> -> -> -> ->.
  unfold commit, awardEffect, scoreUpdater, updateHighScore. cbn.
  repeat break_if; reflexivity.
Qed.

Lemma setSeq_forget_high s s' k :
  setHigh s 0 = setHigh s' 0 ->
  setHigh (setSeq s (PIECE_SEQ s + k)) 0 = setHigh (setSeq s' (PIECE_SEQ s' + k)) 0.
Proof.
  destruct s, s'. unfold setHigh. cbn. intros H. injection H as -> -> -> -> -> -> -> ->.
  reflexivity.
Qed.

(** X14. The closure a lock runs with only matters for the best score: in
    a running state a gravity step, a tick of the hold timer and the
    soft-drop key lead to states that agree on the board, the piece, the
    score, the status and everything else but the best score. *)
Theorem timers_match_soft_drop_key (st : State) (ev : Event) (o : Oracle) (s : State) :
  gameOver st = false ->
  ev = Frame \/ (ev = HoldTick /\ holdTimer st <> None) ->
  step st ev o = Some s ->
  exists s', step st (KeyDown ArrowDown) o = Some s' /\ setHigh s 0 = setHigh s' 0.
Proof.
  intros Hg Hev Hs.
  destruct (step_inv _ _ _ _ Hs) as (st1 & Eh & ->).
  assert (Hsoft : exists e, softDropStep e (rng o) st = Some st1).
  { destruct Hev as [->|[-> Hh]]; cbn in Eh.
    - unfold frame in Eh. rewrite Hg in Eh. exists (mountEnv st). exact Eh.
    - unfold holdTick in Eh. destruct (holdTimer st) as [e|]; [|congruence].
      rewrite Hg in Eh. exists e. exact Eh. }
  destruct Hsoft as [e Hsoft].
  destruct (softDropStep_env e (currentEnv st) _ _ _ Hsoft) as (s1 & Hs1 & Heq).
  unfold step. cbn [handler handleKey]. rewrite Hg, Hs1.
  eexists. split; [reflexivity|].
  apply setSeq_forget_high. apply commit_forget_high. exact Heq.
Qed.

Lemma timers_match_soft_drop_key_witness :
  exists s',
    step st_before_gravity_clear (KeyDown ArrowDown) (oracle draw_I) = Some s'
    /\ setHigh (state_of (step st_before_gravity_clear Frame (oracle draw_I))) 0
       = setHigh s' 0.
Proof.
  apply (timers_match_soft_drop_key st_before_gravity_clear Frame (oracle draw_I)).
  - vm_compute. reflexivity.
  - left. reflexivity.
  - vm_compute. reflexivity.
Defined.

(** ** Hard drop as repeated soft drops *)

Lemma with_row_zero p : with_row p (row p + 0) = p.
Proof. destruct p. unfold with_row. cbn. f_equal. lia. Qed.

Lemma run_app evs1 evs2 :
  forall st,
    run st (evs1 ++ evs2)
    = match run st evs1 with Some st1 => run st1 evs2 | None => None end.
Proof.
  induction evs1 as [|[ev o] evs1 IH]; intros st; simpl; [reflexivity|].
  destruct (step st ev o); [apply IH|reflexivity].
Qed.

(** The soft-drop key lowers a piece that is free below. *)
Lemma soft_key_lowers st o :
  gameOver st = false ->
  collides (board st) (piece st) 1 0 None = false ->
  step st (KeyDown ArrowDown) o
  = Some (setSeq (setPiece st (with_row (piece st) (row (piece st) + 1)))
                 (PIECE_SEQ st + Z.of_nat (renders o))).
Proof.
  intros Hg Hc. unfold step. cbn [handler handleKey]. rewrite Hg.
  unfold softDropStep. rewrite Hc. cbn [negb].
  rewrite commit_same by reflexivity. reflexivity.
Qed.

Lemma lowered_again st k n seq :
  setSeq (setPiece (setSeq (setPiece st (with_row (piece st) (row (piece st) + 1))) k)
                   (with_row (with_row (piece st) (row (piece st) + 1))
                             (row (piece st) + 1 + Z.of_nat n)))
         seq
  = setSeq (setPiece st (with_row (piece st) (row (piece st) + Z.of_nat (S n)))) seq.
Proof.
  unfold setSeq, setPiece, with_row. cbn.
  replace (row (piece st) + 1 + Z.of_nat n) with (row (piece st) + Z.of_nat (S n))
    by lia.
  reflexivity.
Qed.

Lemma soft_keys_lower os :
  forall st,
    gameOver st = false ->
    (forall k, 1 <= k <= Z.of_nat (length os) ->
               collides (board st) (piece st) k 0 None = false) ->
    exists seq,
      PIECE_SEQ st <= seq
      /\ run st (soft_drop_keys os)
         = Some (setSeq (setPiece st (with_row (piece st)
                                        (row (piece st) + Z.of_nat (length os))))
                        seq).
Proof.
  induction os as [|o os IH]; intros st Hg Hfree.
  - exists (PIECE_SEQ st). split; [lia|]. cbn [soft_drop_keys map run length].
    change (Z.of_nat 0) with 0. rewrite with_row_zero. destruct st. reflexivity.
  - cbn [soft_drop_keys map run]. fold (soft_drop_keys os).
    rewrite (soft_key_lowers st o Hg) by (apply Hfree; cbn [length]; lia).
    match goal with
    | |- context [run ?s1 _] =>
        destruct (IH s1) as (seq & Hseq & Hrun)
    end.
    + exact Hg.
    + intros k Hk. cbn [board piece setSeq setPiece].
      rewrite (collides_shift _ _ (piece st) k 0 (k + 1) 0 None None)
        by (cbn; lia || reflexivity).
      apply Hfree. cbn [length]. lia.
    + exists seq. cbn [PIECE_SEQ setSeq] in Hseq. split; [lia|].
      rewrite Hrun. f_equal. cbn [piece setSeq setPiece row with_row length].
      apply lowered_again.
Qed.

Lemma randomPiece_seq rnd seq seq' p :
  randomPiece rnd seq = Some p ->
  randomPiece rnd seq'
  = Some {| id := seq' + 1; key := key p; color := color p; matrix := matrix p;
            icons := icons p; row := row p; col := col p |}.
Proof.
  unfold randomPiece.
  destruct (ALL_KEYS !! _) as [k|]; [|discriminate].
  destruct (assoc SHAPES k) as [sh|]; [|discriminate].
  intros H. injection H as <-. reflexivity.
Qed.

Lemma erase_ids_piece x y :
  erase_ids x = erase_ids y -> erase_ids (setPiece x (piece y)) = erase_ids y.
Proof.
  unfold erase_ids. cbn. intros H.
  injection H as -> _ _ _ _ _ _ -> -> -> -> ->. reflexivity.
Qed.

(** A lock does the same whatever the module counter holds and wherever
    the active piece stands, up to the identifiers. *)
Lemma lockAndSpawn_ids e rnd b cp st q seq s :
  lockAndSpawn e rnd b cp st = Some s ->
  exists s',
    lockAndSpawn e rnd b cp (setSeq (setPiece st q) seq) = Some s'
    /\ erase_ids (setPiece s' (piece s)) = erase_ids s
    /\ awardedRef s' = awardedRef st
    /\ awardedRef s = awardedRef st
    /\ ((gameOver s = true /\ piece s' = q /\ piece s = piece st)
        \/ (gameOver s = gameOver st
            /\ id (piece s') = seq + 1 /\ id (piece s) = PIECE_SEQ st + 1
            /\ erase_ids s' = erase_ids s)).
Proof.
  unfold lockAndSpawn.
  destruct (clearLines (merge b cp)) as [cb n].
  cbn [PIECE_SEQ setSeq setPiece].
  destruct (randomPiece rnd (PIECE_SEQ st)) as [next|] eqn:Er; [|discriminate].
  rewrite (randomPiece_seq rnd _ seq next Er).
  destruct (randomPiece_centred _ _ _ Er) as (_ & Hid & _).
  intros H. injection H as <-. eexists. split; [reflexivity|].
  cbn [matrix id].
  match goal with
  | |- context [collides cb ?p' 0 0 None] =>
      lazymatch p' with
      | context [seq] =>
          rewrite (collides_shift cb p'
                     (with_col (with_row next 0)
                        ((COLS - Z.of_nat (width (matrix next))) / 2))
                     0 0 0 0 None None) by reflexivity
      end
  end.
  destruct (collides cb _ 0 0 None); destruct (n =? 0);
    unfold scoreUpdater, updateHighScore; cbn;
    repeat break_if; cbn in *; try (exfalso; congruence);
    (split; [reflexivity|]); (split; [reflexivity|]); (split; [reflexivity|]);
    try (left; repeat split; reflexivity);
    right; repeat split; try reflexivity; exact Hid.
Qed.

Lemma awardEffect_erase x y :
  erase_ids x = erase_ids y ->
  id (piece x) <> awardedRef x -> id (piece y) <> awardedRef y ->
  erase_ids (awardEffect x) = erase_ids (awardEffect y).
Proof.
  intros H Hx Hy. unfold awardEffect.
  apply Z.eqb_neq in Hx, Hy. rewrite Hx, Hy.
  unfold erase_ids in H. injection H as Hb Hk Hc Hm Hi Hr Hcol Hs Hh Hg Hme Hht.
  rewrite Hi. unfold scoreUpdater, updateHighScore, currentEnv. cbn [env_high].
  rewrite Hs, Hh.
  destruct (hasLightningInIcons (icons (piece y))); repeat break_if;
    unfold erase_ids; cbn; congruence.
Qed.

Lemma awardEffect_gameOver x : gameOver (awardEffect x) = gameOver x.
Proof.
  unfold awardEffect, scoreUpdater, updateHighScore.
  repeat break_if; reflexivity.
Qed.

(** X15. The hard-drop key does what repeated presses of the soft-drop key
    do.  In a running reachable state, when the hard-drop key leads to the
    state [s], there is a number [n] such that [n] presses of the
    soft-drop key only lower the piece and one more press locks it, and
    the state reached agrees with [s] up to the identifiers that the
    renders in between have spent; after a game over the two states differ
    in the piece, which the soft drops leave where it landed and the hard
    drop leaves where it started. *)
Theorem hardDrop_is_repeated_softDrop (st s : State) (o : Oracle) :
  reachable st -> gameOver st = false ->
  step st (KeyDown Space) o = Some s ->
  exists n : nat,
    forall os, length os = n ->
      exists s',
        run st (soft_drop_keys os ++ [(KeyDown ArrowDown, o)]) = Some s'
        /\ erase_ids (setPiece s' (piece s)) = erase_ids s
        /\ (gameOver s = false -> erase_ids s' = erase_ids s)
        /\ (gameOver s = true ->
            piece s = piece st
            /\ piece s' = with_row (piece st) (row (piece st) + Z.of_nat n)).
Proof.
  intros Hr Hg Hs. pose proof (reachable_Inv st Hr) as HI.
  destruct (step_inv _ _ _ _ Hs) as (s1 & Eh & ->).
  cbn [handler handleKey] in Eh. rewrite Hg in Eh. unfold hardDrop in Eh.
  destruct (drop_search _ _ _ 0) as [d|] eqn:Ed; [|discriminate].
  destruct (drop_search_spec _ _ _ _ _ Ed) as (Hd & Hhit & Hfree).
  exists (Z.to_nat d). intros os Hlen.
  destruct (soft_keys_lower os st Hg) as (seq & Hseq & Hrun).
  { intros k Hk. apply Hfree. lia. }
  rewrite Hlen, Z2Nat.id in Hrun by lia. rewrite Z2Nat.id by lia.
  set (landed := with_row (piece st) (row (piece st) + d)) in *.
  destruct (lockAndSpawn_ids _ _ _ _ _ landed seq _ Eh)
    as (s1' & Hlock & Herase & Ha' & Ha & Hcase).
  assert (Hstep : step (setSeq (setPiece st landed) seq) (KeyDown ArrowDown) o
                  = Some (setSeq (commit (setSeq (setPiece st landed) seq) s1')
                            (PIECE_SEQ (commit (setSeq (setPiece st landed) seq) s1')
                             + Z.of_nat (renders o)))).
  { unfold step. cbn [handler handleKey gameOver setSeq setPiece]. rewrite Hg.
    unfold softDropStep. cbn [board piece setSeq setPiece].
    rewrite (collides_shift _ _ (piece st) 1 0 (d + 1) 0 None None)
      by (cbn; lia || reflexivity).
    rewrite Hhit. cbn [negb].
    change (currentEnv (setSeq (setPiece st landed) seq)) with (currentEnv st).
    rewrite Hlock. reflexivity. }
  rewrite run_app, Hrun. cbn [run]. rewrite Hstep. eexists. split; [reflexivity|].
  pose proof (inv_id st HI) as Hid. pose proof (inv_award st HI) as Haw.
  destruct Hcase as [(Hover & Hp' & Hp)|(Hsame & Hid' & Hid1 & Heq)].
  - rewrite (commit_same _ s1') by (rewrite Hp'; reflexivity).
    rewrite (commit_same st s1) by (rewrite Hp; reflexivity).
    split; [exact Herase|]. split.
    + cbn [gameOver setSeq]. congruence.
    + intros _. cbn [piece setSeq]. split; assumption.
  - rewrite (commit_fresh _ s1') by (cbn [piece setSeq setPiece id landed with_row]; lia).
    rewrite (commit_fresh st s1) by lia.
    assert (Heq' : erase_ids (awardEffect s1') = erase_ids (awardEffect s1)).
    { apply awardEffect_erase; [exact Heq|lia|lia]. }
    split; [|split].
    + exact (erase_ids_piece _ _ Heq').
    + intros _. exact Heq'.
    + cbn [gameOver setSeq]. rewrite awardEffect_gameOver. congruence.
Qed.

Lemma hardDrop_is_repeated_softDrop_witness :
  exists n : nat,
    forall os, length os = n ->
      exists s',
        run st_cave (soft_drop_keys os ++ [(KeyDown ArrowDown, oracle draw_O)])
        = Some s'
        /\ erase_ids (setPiece s' (piece (state_of (step st_cave (KeyDown Space)
                                                         (oracle draw_O)))))
           = erase_ids (state_of (step st_cave (KeyDown Space) (oracle draw_O)))
        /\ (gameOver (state_of (step st_cave (KeyDown Space) (oracle draw_O))) = false ->
            erase_ids s'
            = erase_ids (state_of (step st_cave (KeyDown Space) (oracle draw_O))))
        /\ (gameOver (state_of (step st_cave (KeyDown Space) (oracle draw_O))) = true ->
            piece (state_of (step st_cave (KeyDown Space) (oracle draw_O)))
            = piece st_cave
            /\ piece s'
               = with_row (piece st_cave) (row (piece st_cave) + Z.of_nat n)).
Proof.
  apply (hardDrop_is_repeated_softDrop st_cave
           (state_of (step st_cave (KeyDown Space) (oracle draw_O)))
           (oracle draw_O)).
  - exact reachable_cave.
  - reflexivity.
  - vm_compute. reflexivity.
Defined.

(** ** The hold timer *)

Lemma try_kicks_holdTimer st m ic ks :
  holdTimer (try_kicks st m ic ks) = holdTimer st.
Proof.
  induction ks as [|k ks IH]; simpl; [reflexivity|].
  destruct (negb _); [reflexivity|exact IH].
Qed.

Lemma moveLeft_holdTimer st : holdTimer (moveLeft st) = holdTimer st.
Proof. unfold moveLeft. destruct (canMove st 0 (-1)); reflexivity. Qed.

Lemma moveRight_holdTimer st : holdTimer (moveRight st) = holdTimer st.
Proof. unfold moveRight. destruct (canMove st 0 1); reflexivity. Qed.

Lemma rotateAction_holdTimer st st1 :
  rotateAction st = Some st1 -> holdTimer st1 = holdTimer st.
Proof.
  unfold rotateAction. intros H.
  destruct (String.eqb _ _); [injection H as <-; reflexivity|].
  destruct (rotateMatrixCW _) as [m|]; [|discriminate].
  destruct (rotateIconsCW _) as [ic|]; [|discriminate].
  injection H as <-. exact (try_kicks_holdTimer st m ic kicks).
Qed.

Lemma lockAndSpawn_holdTimer e rnd b cp st st1 :
  lockAndSpawn e rnd b cp st = Some st1 -> holdTimer st1 = holdTimer st.
Proof.
  intros H. destruct (lockAndSpawn_inv _ _ _ _ _ _ H)
    as (next & _ & _ & _ & _ & _ & _ & Eh & _). exact Eh.
Qed.

Lemma softDropStep_holdTimer e rnd st st1 :
  softDropStep e rnd st = Some st1 -> holdTimer st1 = holdTimer st.
Proof.
  unfold softDropStep. intros H. destruct (negb _).
  - injection H as <-. reflexivity.
  - exact (lockAndSpawn_holdTimer _ _ _ _ _ _ H).
Qed.

Lemma hardDrop_holdTimer e rnd st st1 :
  hardDrop e rnd st = Some st1 -> holdTimer st1 = holdTimer st.
Proof.
  unfold hardDrop. intros H.
  destruct (drop_search _ _ _ 0) as [d|]; [|discriminate].
  exact (lockAndSpawn_holdTimer _ _ _ _ _ _ H).
Qed.

Lemma resetGame_holdTimer rnd st st1 :
  resetGame rnd st = Some st1 -> holdTimer st1 = holdTimer st.
Proof.
  intros H. destruct (resetGame_inv _ _ _ H) as (first & _ & ->). reflexivity.
Qed.

Lemma commit_holdTimer prev st : holdTimer (commit prev st) = holdTimer st.
Proof.
  unfold commit, awardEffect, scoreUpdater, updateHighScore.
  repeat break_if; reflexivity.
Qed.

Ltac solve_timer H :=
  first
    [ injection H as <-;
      solve [reflexivity | apply moveLeft_holdTimer | apply moveRight_holdTimer]
    | solve [eapply softDropStep_holdTimer; exact H]
    | solve [eapply hardDrop_holdTimer; exact H]
    | solve [eapply rotateAction_holdTimer; exact H]
    | solve [eapply resetGame_holdTimer; exact H] ].

Lemma handler_holdTimer ev rnd st st1 e :
  handler ev rnd st = Some st1 ->
  releases ev = false ->
  holdTimer st = Some e ->
  holdTimer st1 = Some e.
Proof.
  intros H Hrel Hh. rewrite <- Hh.
  destruct ev as [k|g|b| | | |]; cbn in H; try discriminate Hrel.
  - unfold handleKey in H. destruct k; repeat break_if; solve_timer H.
  - unfold onTouchEnd in H. destruct g; repeat break_if; solve_timer H.
  - unfold onClick in H. destruct b; solve_timer H.
  - unfold startHoldDown in H. rewrite Hh in H. injection H as <-. reflexivity.
  - unfold holdTick in H. rewrite Hh in H. break_if; solve_timer H.
  - unfold frame in H. repeat break_if; try solve_timer H.
    exact (lockAndSpawn_holdTimer _ _ _ _ _ _ H).
Qed.

Lemma step_holdTimer st ev o st' e :
  step st ev o = Some st' ->
  releases ev = false ->
  holdTimer st = Some e ->
  holdTimer st' = Some e.
Proof.
  unfold step. intros H Hrel Hh.
  destruct (handler ev (rng o) st) as [st1|] eqn:Eh; [|discriminate].
  injection H as <-. cbn [holdTimer setSeq]. rewrite commit_holdTimer.
  exact (handler_holdTimer _ _ _ _ _ Eh Hrel Hh).
Qed.

(** X16. From a press of the drop button until its release the interval
    callback keeps the score and the best score of the moment of the
    press: no event in between, be it a line clear, a game over, a restart
    or a second press, renews what the timer holds. *)
Theorem hold_timer_keeps_press_closure (st st1 st' : State) (o : Oracle)
    (evs : list (Event * Oracle)) :
  holdTimer st = None ->
  step st PressDown o = Some st1 ->
  Forall (fun eo => releases (fst eo) = false) evs ->
  run st1 evs = Some st' ->
  holdTimer st' = Some {| env_score := score st; env_high := high st |}.
Proof.
  intros Hnone Hpress Hevs Hrun.
  assert (H1 : holdTimer st1 = Some (currentEnv st)).
  { unfold step in Hpress. cbn [handler] in Hpress. injection Hpress as <-.
    cbn [holdTimer setSeq]. rewrite commit_holdTimer.
    unfold startHoldDown. rewrite Hnone. reflexivity. }
  change (holdTimer st' = Some (currentEnv st)).
  clear Hpress Hnone. revert st1 H1 Hrun.
  induction Hevs as [|[ev o1] evs Hev _ IH]; intros st1 H1 Hrun; simpl in Hrun.
  - injection Hrun as <-. exact H1.
  - destruct (step st1 ev o1) as [st2|] eqn:Es; [|discriminate].
    exact (IH st2 (step_holdTimer _ _ _ _ _ Es Hev H1) Hrun).
Qed.

Lemma hold_timer_keeps_press_closure_witness :
  holdTimer (state_of (run st_pressed held_events))
  = Some {| env_score := 5; env_high := 5 |}.
Proof.
  apply (hold_timer_keeps_press_closure st_mount_lightning st_pressed
           (state_of (run st_pressed held_events)) (oracle draw_O) held_events).
  - reflexivity.
  - vm_compute. reflexivity.
  - repeat constructor.
  - vm_compute. reflexivity.
Defined.

(** ** Writing the best score and reading it back *)

Lemma digit_cases (d : Z) :
  0 <= d < 10 ->
  d = 0 \/ d = 1 \/ d = 2 \/ d = 3 \/ d = 4 \/ d = 5 \/ d = 6 \/ d = 7
  \/ d = 8 \/ d = 9.
Proof. lia. Qed.

Lemma digit_char_value (d : Z) :
  0 <= d < 10 -> digit_value 10 (digit_char d) = Some d.
Proof.
  intros H.
  destruct (digit_cases d H) as [-> | [-> | [-> | [-> | [-> | [-> | [-> | [-> | [-> | ->]]]]]]]]];
    reflexivity.
Qed.

Lemma digit_char_decimal (d : Z) :
  0 <= d < 10 -> In (digit_char d) decimal_digits.
Proof.
  intros H.
  destruct (digit_cases d H) as [-> | [-> | [-> | [-> | [-> | [-> | [-> | [-> | [-> | ->]]]]]]]]];
    cbn; tauto.
Qed.

Lemma digits_text_S (fuel : nat) (n : Z) :
  digits_text (S fuel) n
  = if n <? 10 then [digit_char n]
    else digits_text fuel (n / 10) ++ [digit_char (n mod 10)].
Proof. reflexivity. Qed.

Lemma digits_text_decimal (fuel : nat) :
  forall n, 0 <= n -> Forall (fun c => In c decimal_digits) (digits_text fuel n).
Proof.
  induction fuel as [|fuel IH]; intros n Hn; [constructor|].
  rewrite digits_text_S. destruct (n <? 10) eqn:E.
  - apply Z.ltb_lt in E. constructor; [|constructor].
    apply digit_char_decimal. lia.
  - apply Forall_app. split.
    + apply IH. apply Z.div_pos; lia.
    + constructor; [|constructor]. apply digit_char_decimal.
      apply Z.mod_pos_bound. lia.
Qed.

Lemma digits_text_not_empty (fuel : nat) (n : Z) :
  digits_text (S fuel) n <> [].
Proof.
  rewrite digits_text_S. destruct (n <? 10); [discriminate|].
  intros H. apply app_eq_nil in H. destruct H as [_ H]. discriminate.
Qed.

Lemma read_digits_text (fuel : nat) :
  forall n acc k rest,
    0 <= n < 10 ^ Z.of_nat (S fuel) ->
    exists len,
      read_digits 10 (digits_text (S fuel) n ++ rest) acc k
      = read_digits 10 rest (acc * 10 ^ Z.of_nat (S len) + n) (k + S len).
Proof.
  induction fuel as [|fuel IH]; intros n acc k rest Hn;
    rewrite digits_text_S; destruct (n <? 10) eqn:E;
    try (apply Z.ltb_lt in E; exists 0%nat;
         cbn [app read_digits]; rewrite digit_char_value by lia;
         f_equal; [|lia]; change (10 ^ Z.of_nat 1) with 10; lia).
  - apply Z.ltb_ge in E. change (10 ^ Z.of_nat 1) with 10 in Hn. lia.
  - apply Z.ltb_ge in E.
    assert (Hp : 10 ^ Z.of_nat (S (S fuel)) = 10 * 10 ^ Z.of_nat (S fuel)).
    { rewrite (Nat2Z.inj_succ (S fuel)). apply Z.pow_succ_r. lia. }
    assert (Hq : 0 <= n / 10 < 10 ^ Z.of_nat (S fuel)).
    { split; [apply Z.div_pos; lia|].
      apply Z.div_lt_upper_bound; lia. }
    rewrite <- app_assoc. cbn [app].
    destruct (IH (n / 10) acc k (digit_char (n mod 10) :: rest) Hq) as [len Hl].
    rewrite Hl. exists (S len). cbn [read_digits].
    rewrite digit_char_value by (apply Z.mod_pos_bound; lia).
    f_equal; [|lia].
    assert (Hp' : 10 ^ Z.of_nat (S (S len)) = 10 * 10 ^ Z.of_nat (S len)).
    { rewrite (Nat2Z.inj_succ (S len)). apply Z.pow_succ_r. lia. }
    rewrite Hp'. pose proof (Z.div_mod n 10). lia.
Qed.

Lemma decimal_plain (c : ascii) : In c decimal_digits -> plain c = true.
Proof.
  intros Hc. cbn in Hc.
  destruct Hc as [<- | [<- | [<- | [<- | [<- | [<- | [<- | [<- | [<- | [<- | []]]]]]]]]]];
    reflexivity.
Qed.

Lemma trim_decimal (l : list ascii) :
  Forall (fun c => In c decimal_digits) l -> trim l = l.
Proof.
  intros H. destruct l as [|c l]; [reflexivity|].
  pose proof (Forall_rev H) as Hrev.
  destruct (rev (c :: l)) as [|c' l'] eqn:E.
  { apply (f_equal (@length ascii)) in E. rewrite length_rev in E. discriminate. }
  apply (trim_plain_ends c l c' l'); [| |exact E]; apply decimal_plain.
  - inversion H; assumption.
  - inversion Hrev; assumption.
Qed.

Lemma Qred_inject_Z (n : Z) : Qred (inject_Z n) = inject_Z n.
Proof.
  unfold Qred, inject_Z.
  pose proof (Z.ggcd_gcd n 1) as Hg.
  pose proof (Z.ggcd_correct_divisors n 1) as Hd.
  destruct (Z.ggcd n 1) as [g [a b]]. cbn [fst snd] in *.
  rewrite Z.gcd_1_r in Hg. subst g. destruct Hd as [Ha Hb].
  replace a with n by lia. replace b with 1 by lia. reflexivity.
Qed.

Lemma read_decimal_digits (l : list ascii) (n : Z) (k : nat) :
  read_digits 10 l 0 0 = (n, S k, []) -> read_decimal l = Some (inject_Z n).
Proof.
  intros H. unfold read_decimal. rewrite H. cbn [read_exponent].
  f_equal. transitivity (Qred (inject_Z n)); [|apply Qred_inject_Z].
  apply Qred_complete. change (10 ^ Z.of_nat 0) with 1.
  unfold Qeq. cbn. lia.
Qed.

Ltac each_digit H :=
  cbn in H;
  destruct H as [<- | [<- | [<- | [<- | [<- | [<- | [<- | [<- | [<- | [<- | []]]]]]]]]]].

Lemma read_signed_decimal (c : ascii) (l : list ascii) (q : Q) :
  In c decimal_digits ->
  read_decimal (c :: l) = Some q -> read_signed (c :: l) = to_number q.
Proof.
  intros Hc Hq. unfold read_signed.
  each_digit Hc; cbv beta iota; rewrite Hq; reflexivity.
Qed.

Lemma StringToNumber_decimal (l : list ascii) (q : Q) :
  l <> [] ->
  Forall (fun c => In c decimal_digits) l ->
  read_decimal l = Some q ->
  StringToNumber (string_of_list_ascii l) = to_number q.
Proof.
  intros Hne Hl Hq. unfold StringToNumber.
  rewrite list_ascii_of_string_of_list_ascii, (trim_decimal l Hl).
  destruct Hl as [|c l Hc Hl]; [congruence|].
  rewrite <- (read_signed_decimal c l q Hc Hq).
  destruct Hl as [|c2 l Hc2 _].
  - each_digit Hc; reflexivity.
  - each_digit Hc; try reflexivity; each_digit Hc2; reflexivity.
Qed.

Lemma savedNumber_decimal (l : list ascii) (q : Q) :
  l <> [] ->
  Forall (fun c => In c decimal_digits) l ->
  read_decimal l = Some q ->
  savedNumber (Some (string_of_list_ascii l)) = to_number q.
Proof.
  intros Hne Hl Hq. unfold savedNumber.
  rewrite <- (StringToNumber_decimal l q Hne Hl Hq).
  destruct l as [|c l]; [congruence|reflexivity].
Qed.

(** X17. The best score survives a reload: when [updateHighScore] finds a
    score above the best score it knows and the write to local storage
    succeeds, the text it stores is read back by the next mount as exactly
    the value it set. *)
Theorem stored_best_reloads (e : Env) (n : Z) (st : State) (item : option string) :
  0 <= n < 10 ^ 21 ->
  Qlt_bool (env_high e) (inject_Z n) = true ->
  high (updateHighScore e n st) = inject_Z n
  /\ initialHigh true (storedHighScore e n false item) = inject_Z n.
Proof.
  intros Hn Hlt. unfold updateHighScore, storedHighScore. rewrite Hlt.
  split; [reflexivity|].
  unfold initialHigh, NumberToString. cbn [negb].
  destruct (read_digits_text 20 n 0 0%nat [] Hn) as [len Hl].
  rewrite app_nil_r in Hl. cbn [read_digits] in Hl.
  replace (0 * 10 ^ Z.of_nat (S len) + n) with n in Hl by lia.
  rewrite (savedNumber_decimal _ (inject_Z n) (digits_text_not_empty 20 n)
             (digits_text_decimal 21 n (proj1 Hn))
             (read_decimal_digits _ _ _ Hl)).
  assert (Hbig : 10 ^ 21 < OVERFLOW) by reflexivity.
  rewrite to_number_small by lia. reflexivity.
Qed.

Lemma stored_best_reloads_witness :
  high (updateHighScore (currentEnv st_mount_I) 40 st_mount_I) = 40%Q
  /\ initialHigh true (storedHighScore (currentEnv st_mount_I) 40 false None)
     = 40%Q.
Proof.
  apply (stored_best_reloads (currentEnv st_mount_I) 40 st_mount_I None).
  - split; [lia|reflexivity].
  - vm_compute. reflexivity.
Defined.

(** ** The best score: loading and keeping the maximum *)




